(** * merge_lemmas.py: the Oracc transcription comparator

    A shallow embedding of [scripts/merge_lemmas.py] and the verification
    of its comparison engine: the spelling normaliser [f_xlit], the
    distance scorer [score_strings] ([hamming] / [levenshtein]), the
    quadratic clustering pass [compare], the overlap annotator
    [compare_xlits], the loader [read_file], the reporter
    [print_results] and the transitive merge [merge_entries].

    Python [str] values are sequences of Unicode code points, so a string
    is a [list N]; [len] is [length].  The module-level variables
    [dictionary] and [data] and the standard output are the fields of an
    explicit state that the effectful functions thread through an
    exception-and-state monad. *)

From Stdlib Require Import String Ascii Decimal DecimalString.
From Stdlib Require Import List NArith ZArith Arith Lia Bool.
Import ListNotations.

Set Implicit Arguments.

(* ================================================================== *)
(** * Python built-ins used by the script *)
(* ================================================================== *)

Module Py.

(** A code point and a [str]. *)
Definition char := N.
Definition str := list char.

Definition chr (a : ascii) : char := N_of_ascii a.

(** [lit "abc"] is the [str] of an ASCII literal. *)
Definition lit (s : string) : str := map chr (list_ascii_of_string s).

Definition str_eqb (a b : str) : bool :=
  if list_eq_dec N.eq_dec a b then true else false.

Definition between (lo hi c : N) : bool := ((lo <=? c) && (c <=? hi))%N.

(** [str.lower()], one code point at a time.  The table is the Unicode
    lower-case mapping of Basic Latin, Latin-1 Supplement, Latin
    Extended-A and U+1E00..U+1E95 (the alphabet of Oracc transliterations
    lies inside these blocks); code points outside them are left as they
    are.  U+0130 is the one code point of the table whose lower case is
    two code points long. *)
Definition lower_char (c : char) : list char :=
  (if between 0x41 0x5A c then [c + 32]
   else if between 0xC0 0xDE c && negb (c =? 0xD7) then [c + 32]
   else if c =? 0x130 then [0x69; 0x307]
   else if (between 0x100 0x137 c || between 0x14A 0x177 c) && N.even c
        then [c + 1]
   else if (between 0x139 0x148 c || between 0x179 0x17E c) && N.odd c
        then [c + 1]
   else if c =? 0x178 then [0xFF]
   else if between 0x1E00 0x1E95 c && N.even c then [c + 1]
   else [c])%N.

Definition lower (x : str) : str := flat_map lower_char x.

(** [str.upper()] on the same blocks, with the special casings of
    U+00DF, U+0149 and the code points whose upper case leaves the
    block. *)
Definition upper_char (c : char) : list char :=
  (if between 0x61 0x7A c then [c - 32]
   else if c =? 0xB5 then [0x39C]
   else if c =? 0xDF then [0x53; 0x53]
   else if between 0xE0 0xFE c && negb (c =? 0xF7) then [c - 32]
   else if c =? 0xFF then [0x178]
   else if c =? 0x131 then [0x49]
   else if c =? 0x149 then [0x2BC; 0x4E]
   else if c =? 0x17F then [0x53]
   else if (between 0x100 0x137 c || between 0x14A 0x177 c) && N.odd c
        then [c - 1]
   else if (between 0x139 0x148 c || between 0x179 0x17E c) && N.even c
        then [c - 1]
   else if between 0x1E00 0x1E95 c && N.odd c then [c - 1]
   else [c])%N.

Definition upper (x : str) : str := flat_map upper_char x.

(** [enumerate(l)], and the same counting from [i]. *)
Definition enumerate_from {A} (i : nat) (l : list A) : list (nat * A) :=
  combine (seq i (length l)) l.

Definition enumerate {A} (l : list A) : list (nat * A) := enumerate_from 0 l.

(** [min(a, b, c)]. *)
Definition min3 (a b c : nat) : nat := Nat.min a (Nat.min b c).

(** [int(b)] of a [bool], as Python's arithmetic on booleans has it. *)
Definition int_of_bool (b : bool) : nat := if b then 1 else 0.

(** [x in l] for a list of strings. *)
Definition str_in (x : str) (l : list str) : bool := existsb (str_eqb x) l.

(** [s.startswith(p)]. *)
Definition startswith (p s : str) : bool := str_eqb (firstn (length p) s) p.

(** The code points for which [str.isspace()] holds. *)
Definition isspace (c : char) : bool :=
  (between 0x09 0x0D c || between 0x1C 0x20 c || (c =? 0x85) || (c =? 0xA0)
   || (c =? 0x1680) || between 0x2000 0x200A c || (c =? 0x2028)
   || (c =? 0x2029) || (c =? 0x202F) || (c =? 0x205F) || (c =? 0x3000))%N.

Fixpoint lstrip (s : str) : str :=
  match s with
  | [] => []
  | c :: t => if isspace c then lstrip t else s
  end.

Definition rstrip (s : str) : str := rev (lstrip (rev s)).

(** [s.strip()]. *)
Definition strip (s : str) : str := rstrip (lstrip s).

(** [s[1:-1]]. *)
Definition slice_1_m1 (s : str) : str := removelast (tl s).

(** [s.split(sep)] for a non-empty separator: the first field and the
    fields after it.  [skip] counts the characters of a separator that
    are still to be passed over. *)
Fixpoint split_from (sep : str) (skip : nat) (s : str) : str * list str :=
  match s with
  | [] => ([], [])
  | c :: t =>
      match skip with
      | S k => split_from sep k t
      | O =>
          if startswith sep s then
            let '(h, r) := split_from sep (length sep - 1) t in ([], h :: r)
          else
            let '(h, r) := split_from sep 0 t in (c :: h, r)
      end
  end.

Definition split (sep : str) (s : str) : list str :=
  let '(h, r) := split_from sep 0 s in h :: r.

(** The line boundaries of [str.splitlines()]. *)
Definition is_linebreak (c : char) : bool :=
  (between 0x0A 0x0D c || between 0x1C 0x1E c || (c =? 0x85)
   || (c =? 0x2028) || (c =? 0x2029))%N.

Definition cons_line (c : char) (ls : list str) : list str :=
  match ls with
  | [] => [[c]]
  | l :: r => (c :: l) :: r
  end.

(** [s.splitlines()]; [after_cr] tells that the previous character was a
    carriage return, whose line feed belongs to the same boundary. *)
Fixpoint splitlines_from (after_cr : bool) (s : str) : list str :=
  match s with
  | [] => []
  | c :: t =>
      if (c =? 0x0A)%N && after_cr then splitlines_from false t
      else if (c =? 0x0D)%N then [] :: splitlines_from true t
      else if is_linebreak c then [] :: splitlines_from false t
      else cons_line c (splitlines_from false t)
  end.

Definition splitlines (s : str) : list str := splitlines_from false s.

(** [sep.join(xs)]. *)
Fixpoint join (sep : str) (xs : list str) : str :=
  match xs with
  | [] => []
  | x :: r =>
      match r with
      | [] => x
      | _ :: _ => x ++ sep ++ join sep r
      end
  end.

Definition is_digit (c : char) : bool := between 0x30 0x39 c.

Definition digit_val (c : char) : Z := Z.of_N (c - 0x30).

(** The digits of an [int(...)] literal: decimal digits, single
    underscores allowed between two digits. *)
Fixpoint int_digits (acc : Z) (after_digit : bool) (s : str) : option Z :=
  match s with
  | [] => if after_digit then Some acc else None
  | c :: t =>
      if is_digit c then int_digits (10 * acc + digit_val c) true t
      else if (c =? 0x5F)%N && after_digit then int_digits acc false t
      else None
  end.

(** [int(s)] on ASCII input: surrounding white space, an optional sign,
    decimal digits.  [None] stands for the [ValueError]. *)
Definition int_ (s : str) : option Z :=
  match strip s with
  | 0x2B%N :: t => int_digits 0 false t
  | 0x2D%N :: t => option_map Z.opp (int_digits 0 false t)
  | t => int_digits 0 false t
  end.

(** ['%i' % n]. *)
Definition str_of_Z (n : Z) : str :=
  lit (NilZero.string_of_int (Z.to_int n)).

Definition str_of_nat (n : nat) : str := str_of_Z (Z.of_nat n).

(** Python compares strings lexicographically by code point. *)
Fixpoint str_leb (a b : str) : bool :=
  match a, b with
  | [], _ => true
  | _ :: _, [] => false
  | x :: a', y :: b' =>
      if (x <? y)%N then true
      else if (y <? x)%N then false
      else str_leb a' b'
  end.

Fixpoint insert_sorted {A} (leb : A -> A -> bool) (x : A) (l : list A)
  : list A :=
  match l with
  | [] => [x]
  | y :: r => if leb x y then x :: l else y :: insert_sorted leb x r
  end.

(** [sorted(l)] under the order [leb]. *)
Definition sorted {A} (leb : A -> A -> bool) (l : list A) : list A :=
  fold_right (insert_sorted leb) [] l.

(** [sorted(list(set(l)))] for strings: the distinct elements in order. *)
Definition sorted_set (l : list str) : list str :=
  sorted str_leb (nodup (list_eq_dec N.eq_dec) l).

(** [l.index(x)]; [None] stands for the [ValueError]. *)
Fixpoint index (l : list str) (x : str) : option nat :=
  match l with
  | [] => None
  | y :: r => if str_eqb y x then Some 0 else option_map S (index r x)
  end.

(** A [range] object and [i in range(start, stop, step)] for the
    non-negative bounds and steps of the script. *)
Record range := { start : nat; stop : nat; step : nat }.

Definition range_contains (i : nat) (m : range) : bool :=
  (start m <=? i) && (i <? stop m) && ((i - start m) mod step m =? 0).

(** [re.sub(p, repl, s)] for a pattern [p] that is an alternation of
    non-empty literals (a character class counts as the alternation of
    its members).  [first_match] gives, for the first alternative that
    matches at the head of [s], the number of characters after the head
    that the match covers. *)
Fixpoint first_match (alts : list str) (s : str) : option nat :=
  match alts with
  | [] => None
  | p :: ps =>
      match p with
      | [] => first_match ps s
      | _ :: p' => if startswith p s then Some (length p')
                   else first_match ps s
      end
  end.

Fixpoint re_sub_from (alts : list str) (repl : str) (skip : nat) (s : str)
  : str :=
  match s with
  | [] => []
  | c :: t =>
      match skip with
      | S k => re_sub_from alts repl k t
      | O =>
          match first_match alts s with
          | Some k => repl ++ re_sub_from alts repl k t
          | None => c :: re_sub_from alts repl 0 t
          end
      end
  end.

Definition re_sub (alts : list str) (repl : str) (s : str) : str :=
  re_sub_from alts repl 0 s.

(** A [dict] keyed by strings: the items in insertion order. *)
Definition dict (V : Type) := list (str * V).

Definition dict_keys {V} (d : dict V) : list str := map fst d.

Fixpoint dict_get {V} (d : dict V) (k : str) : option V :=
  match d with
  | [] => None
  | (k', v) :: r => if str_eqb k' k then Some v else dict_get r k
  end.

Definition dict_mem {V} (k : str) (d : dict V) : bool :=
  str_in k (dict_keys d).

(** [d[k] = v]: a present key keeps its place, a new key goes last. *)
Fixpoint dict_set {V} (d : dict V) (k : str) (v : V) : dict V :=
  match d with
  | [] => [(k, v)]
  | (k', v') :: r =>
      if str_eqb k' k then (k', v) :: r else (k', v') :: dict_set r k v
  end.

End Py.

Import Py.

(* ================================================================== *)
(** * The distance scorer *)
(* ================================================================== *)

(** [hamming(s1, s2)]: [sum(e1 != e2 for e1, e2 in zip(s1, s2))]. *)
Definition hamming (s1 s2 : str) : nat :=
  list_sum (map (fun '(e1, e2) => int_of_bool (negb (e1 =? e2)%N))
                (combine s1 s2)).

(** The inner loop of [levenshtein]: one pass over [enumerate(s2)]
    extending [current_row].  The rows hold [len(s2) + 1] entries, so
    every index below is in range ([levenshtein_row_length]). *)
Definition levenshtein_inner (c1 : char) (previous_row : list nat)
    (js : list (nat * char)) (current_row : list nat) : list nat :=
  fold_left
    (fun current_row '(j, c2) =>
       let insertions := nth (j + 1) previous_row 0 + 1 in
       let deletions := nth j current_row 0 + 1 in
       let substitutions :=
         nth j previous_row 0 + int_of_bool (negb (c1 =? c2)%N) in
       current_row ++ [min3 insertions deletions substitutions])
    js current_row.

(** The outer loop: one row per character of [s1]. *)
Definition levenshtein_outer (is_ : list (nat * char)) (s2 : str)
    (previous_row : list nat) : list nat :=
  fold_left
    (fun previous_row '(i, c1) =>
       levenshtein_inner c1 previous_row (enumerate s2) [i + 1])
    is_ previous_row.

(** The body of [levenshtein] below its first test. *)
Definition levenshtein_body (s1 s2 : str) : nat :=
  if length s2 =? 0 then length s1
  else
    let previous_row := seq 0 (length s2 + 1) in
    last (levenshtein_outer (enumerate s1) s2 previous_row) 0.

(** [levenshtein(s1, s2)].  The recursive call swaps the arguments, so
    its own first test fails and it runs the body. *)
Definition levenshtein (s1 s2 : str) : nat :=
  if length s1 <? length s2 then levenshtein_body s2 s1
  else levenshtein_body s1 s2.

(** [score_strings(w1, w2)]. *)
Definition score_strings (w1 w2 : str) : nat :=
  if length w1 =? length w2 then hamming (lower w1) (lower w2)
  else levenshtein (lower w1) (lower w2).

(* ================================================================== *)
(** * The spelling normaliser *)
(* ================================================================== *)

(** The pattern ['\{URU\}|\{KUR\}|\{KI\}|[₁₂₃₄₅₆₇₈₉₀]']: the three
    determinative markers, then the subscript digits U+2081..U+2089 and
    U+2080 in the order of the character class. *)
Definition determinatives_and_subscripts : list str :=
  [lit "{URU}"; lit "{KUR}"; lit "{KI}";
   [0x2081]; [0x2082]; [0x2083]; [0x2084]; [0x2085];
   [0x2086]; [0x2087]; [0x2088]; [0x2089]; [0x2080]]%N.

(** The glyph U+014B (eng) of the last substitution. *)
Definition eng : char := 0x14B%N.

(** [f_xlit(x)]. *)
Definition f_xlit (x : str) : str :=
  let x := re_sub determinatives_and_subscripts [] (lower x) in
  let x := re_sub [lit "."] (lit "-") (lower x) in
  let x := re_sub [lit "("; lit ")"] [] x in
  let x := re_sub [[eng]] (lit "g") x in
  x.

(* ================================================================== *)
(** * Module state, exceptions and the monad of the effectful functions *)
(* ================================================================== *)

Inductive exn : Type := ValueError | KeyError | IndexError.

(** A record of the lemma store: the list [[freq, xlit]]. *)
Definition record : Type := (Z * list str)%type.

(** The module-level variables [dictionary] (the edge mapping written by
    [compare]) and [data] (the lemma store), and what has been printed. *)
Record globals : Type := mk_globals {
  dictionary : dict (list str);
  data : dict record;
  stdout : list str
}.

(** A computation runs on the globals and ends with a value or with a
    raised exception; what it wrote before raising stays written. *)
Definition M (A : Type) : Type := globals -> (exn + A) * globals.

Definition ret {A} (a : A) : M A := fun g => (inr a, g).

Definition bind {A B} (m : M A) (k : A -> M B) : M B :=
  fun g =>
    match m g with
    | (inl e, g') => (inl e, g')
    | (inr a, g') => k a g'
    end.

Definition raise {A} (e : exn) : M A := fun g => (inl e, g).

Declare Scope py_scope.
Delimit Scope py_scope with py.
Notation "x <- c ;; k" := (bind c (fun x => k))
  (at level 61, c at next level, right associativity) : py_scope.
Notation "' pat <- c ;; k" :=
  (bind c (fun x => match x with pat => k end))
  (at level 61, pat pattern, c at next level, right associativity)
  : py_scope.
Notation "c ;; k" := (bind c (fun _ => k))
  (at level 61, right associativity) : py_scope.
Local Open Scope py_scope.

Definition get_dictionary : M (dict (list str)) :=
  fun g => (inr (dictionary g), g).

Definition set_dictionary (d : dict (list str)) : M unit :=
  fun g => (inr tt, mk_globals d (data g) (stdout g)).

Definition get_data : M (dict record) := fun g => (inr (data g), g).

Definition set_data (d : dict record) : M unit :=
  fun g => (inr tt, mk_globals (dictionary g) d (stdout g)).

(** [print(line)]. *)
Definition print (line : str) : M unit :=
  fun g => (inr tt, mk_globals (dictionary g) (data g) (stdout g ++ [line])).

(** A partial built-in: its [None] raises [e]. *)
Definition lift_opt {A} (e : exn) (o : option A) : M A :=
  match o with
  | Some a => ret a
  | None => raise e
  end.

(** [d[k]]. *)
Definition dict_item {V} (d : dict V) (k : str) : M V :=
  lift_opt KeyError (dict_get d k).

(** [for x in l: body(x)]. *)
Fixpoint for_each {A} (l : list A) (body : A -> M unit) : M unit :=
  match l with
  | [] => ret tt
  | x :: r => body x ;; for_each r body
  end.

(** A loop over [l] that also carries a local variable. *)
Fixpoint fold_m {A S} (l : list A) (s : S) (body : S -> A -> M S) : M S :=
  match l with
  | [] => ret s
  | x :: r => s' <- body s x ;; fold_m r s' body
  end.

(** A list comprehension [[f(x) for x in l]]. *)
Fixpoint map_m {A B} (l : list A) (f : A -> M B) : M (list B) :=
  match l with
  | [] => ret []
  | x :: r => y <- f x ;; ys <- map_m r f ;; ret (y :: ys)
  end.

(** [range(start, stop, step)] raises [ValueError] on a zero step. *)
Definition range_ (start stop step : nat) : M range :=
  if step =? 0 then raise ValueError
  else ret {| start := start; stop := stop; step := step |}.

(* ================================================================== *)
(** * Loading the lemma store *)
(* ================================================================== *)

Definition tab : str := [0x09%N].

Fixpoint drop_to_newline (s : str) : str :=
  match s with
  | [] => []
  | c :: t => if (c =? 0x0A)%N then s else drop_to_newline t
  end.

(** [re.sub('^(\d+?).+', r'\1', l)]: the pattern is anchored at the start
    of [l]; the lazy [\d+?] takes one digit, and the greedy [.+] takes
    what follows up to a line feed and must take one character at least.
    The whole match is replaced by the one digit of the group.  [\d] is
    modelled on the ASCII digits. *)
Definition re_sub_first_digit (l : str) : str :=
  match l with
  | d :: c :: rest =>
      if is_digit d && negb (c =? 0x0A)%N then d :: drop_to_newline rest
      else l
  | _ => l
  end.

(** The character class ['[0-9 ]']. *)
Definition digits_and_space : list str :=
  map (fun c => [c]) [0x30; 0x31; 0x32; 0x33; 0x34; 0x35; 0x36; 0x37;
                      0x38; 0x39; 0x20]%N.

(** The body of the loop of [read_file] in the ['freq'] format, up to the
    assignment [ddict[lemma] = [freq, xlit]]. *)
Definition read_file_freq_line (l : str) : M (str * record) :=
  let l := strip l in
  freq <- lift_opt ValueError (int_ (re_sub_first_digit l)) ;;
  f0 <- lift_opt IndexError (nth_error (split tab l) 0) ;;
  let lemma := re_sub digits_and_space [] f0 in
  f1 <- lift_opt IndexError (nth_error (split tab l) 1) ;;
  let xlit := split (lit ", ") (slice_1_m1 f1) in
  ret (lemma, (freq, xlit)).

(** [read_file(fname, format_)]; [contents] is what [f.read()] returns,
    the text of the file decoded with the undecodable bytes dropped. *)
Definition read_file (fname contents format_ : str) : M (dict record) :=
  print (lit "reading file " ++ fname ++ lit "...") ;;
  if str_eqb format_ (lit "freq") then
    fold_m (splitlines contents) []
      (fun ddict l =>
         '(lemma, r) <- read_file_freq_line l ;;
         ret (dict_set ddict lemma r))
  else
    fold_m (splitlines contents) []
      (fun ddict l => ret (dict_set ddict l (0%Z, []))).

(* ================================================================== *)
(** * The clustering pass *)
(* ================================================================== *)

(** The [while] loop of [count_comparisons]; it runs [d - 1] times at
    most, so [d] units of fuel are enough. *)
Fixpoint count_comparisons_loop (fuel d i j : nat) : nat :=
  match fuel with
  | O => j
  | S fuel' =>
      if i <? d then count_comparisons_loop fuel' d (i + 1) (j + (i + 1))
      else j
  end.

Definition count_comparisons (d : nat) : nat :=
  count_comparisons_loop d d 1 1.

(** The body of the inner loop of [compare]: the length gate on the pair
    [(w1, w2)], its score against the threshold of [w1], and the edge
    recorded under [w1] when the pair passes. *)
Definition compare_pair (w1 w2 : str) : M unit :=
  let x := sorted Nat.leb [length w1; length w2] in
  if 3 <? nth 1 x 0 - nth 0 x 0 then ret tt
  else
    let score := score_strings w1 w2 in
    let min_val := if 8 <=? length w1 then 2 else 1 in
    if score <=? min_val then
      d <- get_dictionary ;;
      if negb (dict_mem w1 d) then set_dictionary (dict_set d w1 [w2])
      else
        v <- dict_item d w1 ;;
        set_dictionary (dict_set d w1 (v ++ [w2]))
    else ret tt.

(** The body of the outer loop of [compare]. *)
Definition compare_row (data : list str) (m : range) (w1 : str) : M unit :=
  index <- lift_opt ValueError (index data w1) ;;
  (if range_contains index m
   then print (str_of_nat index ++ lit " / " ++ str_of_nat (length data))
   else ret tt) ;;
  for_each (skipn (index + 1) data) (compare_pair w1).

(** [compare(dict_data)].  [int(len(data)/100)] is the floor of the
    quotient. *)
Definition compare (dict_data : dict record) : M unit :=
  let data := dict_keys dict_data in
  print (str_of_nat (length data) ++ lit " entries, "
         ++ str_of_nat (count_comparisons (length data))
         ++ lit " comparisons") ;;
  m <- range_ 0 (length data) (length data / 100) ;;
  for_each data (compare_row data m).

(* ================================================================== *)
(** * The overlap annotator and the reporter *)
(* ================================================================== *)

(** The loop over [t_xlits] inside [compare_xlits], for one suggestion
    [s] with spellings [s_xlits]. *)
Definition compare_xlits_inner (s : str) (s_xlits t_xlits : list str)
    (s_dict : dict str) : M (dict str) :=
  fold_m t_xlits s_dict (fun s_dict t =>
    if str_in (f_xlit t) (map f_xlit s_xlits) then
      if negb (dict_mem s s_dict) then ret (dict_set s_dict s (lit "*"))
      else
        v <- dict_item s_dict s ;;
        ret (dict_set s_dict s (v ++ lit "*"))
    else
      if negb (dict_mem s s_dict) then ret (dict_set s_dict s [])
      else ret s_dict).

(** [compare_xlits(target, suggestions)]; [data] is the global. *)
Definition compare_xlits (target : str) (suggestions : list str)
  : M (list str) :=
  d <- get_data ;;
  t_rec <- dict_item d target ;;
  let t_xlits := snd t_rec in
  s_dict <- fold_m suggestions [] (fun s_dict s =>
    d <- get_data ;;
    s_rec <- dict_item d s ;;
    let s_xlits := snd s_rec in
    compare_xlits_inner s s_xlits t_xlits s_dict) ;;
  map_m (dict_keys s_dict) (fun x =>
    v <- dict_item s_dict x ;;
    ret (x ++ v)).

(** The character class ['[–\* \?\[\]0-9]'] of [get_freq]. *)
Definition label_marks : list str :=
  map (fun c => [c]) [0x2013; 0x2A; 0x20; 0x3F; 0x5B; 0x5D;
                      0x30; 0x31; 0x32; 0x33; 0x34; 0x35; 0x36; 0x37;
                      0x38; 0x39]%N.

(** [get_freq(lemmas, show_freqs)]. *)
Definition get_freq (lemmas : list str) (show_freqs : bool)
  : M (list str) :=
  if show_freqs then
    map_m lemmas (fun l =>
      d <- get_data ;;
      r <- dict_item d (re_sub label_marks [] l) ;;
      ret (l ++ lit " (" ++ str_of_Z (fst r) ++ lit ")"))
  else ret lemmas.

(** [print_results(show_freqs)].  [merge_entries] is commented out in the
    script, so every value of [dictionary] is a list and the test
    [dictionary[k] == '_'] against a string is false. *)
Definition print_results (show_freqs : bool) : M unit :=
  d <- get_dictionary ;;
  for_each (dict_keys d) (fun k =>
    d <- get_dictionary ;;
    v <- dict_item d k ;;
    let results :=
      if str_in (lit "_") v
      then filter (fun x => negb (str_eqb x (lit "_"))) v
      else v in
    filt_res <- compare_xlits k results ;;
    head <- get_freq [k] show_freqs ;;
    head0 <- lift_opt IndexError (nth_error head 0) ;;
    labels <- get_freq filt_res show_freqs ;;
    print (head0 ++ tab ++ tab ++ tab
           ++ join (lit " | ") (sorted_set labels))).

(** The three statements at the end of the script. *)
Definition main (contents : str) : M unit :=
  d <- read_file (lit "places_with_translit.txt") contents (lit "freq") ;;
  set_data d ;;
  d <- get_data ;;
  compare d ;;
  print_results true.

(** The globals when the script starts: [dictionary = {}], nothing loaded
    and nothing printed. *)
Definition initial_globals : globals := mk_globals [] [] [].

(* ================================================================== *)
(** * Specification of the edit distance *)
(* ================================================================== *)

(** One single-character edit: an insertion, a deletion or a
    substitution anywhere in the string. *)
Inductive edit1 : str -> str -> Prop :=
| edit_ins x c y : edit1 (x ++ y) (x ++ c :: y)
| edit_del x c y : edit1 (x ++ c :: y) (x ++ y)
| edit_sub x c d y : edit1 (x ++ c :: y) (x ++ d :: y).

(** [edits n a b]: [n] single-character edits transform [a] into [b]. *)
Inductive edits : nat -> str -> str -> Prop :=
| edits_O a : edits 0 a a
| edits_S n a b c : edit1 a b -> edits n b c -> edits (S n) a c.

(** [n] is the least number of edits transforming [a] into [b]. *)
Definition edit_distance (a b : str) (n : nat) : Prop :=
  edits n a b /\ forall m, edits m a b -> n <= m.

(** The textbook recurrence, on the heads of the two strings. *)
Fixpoint lev (a : str) : str -> nat :=
  fix lev_a (b : str) : nat :=
    match a, b with
    | [], _ => length b
    | _, [] => length a
    | x :: a', y :: b' =>
        min3 (S (lev a' b)) (S (lev_a b'))
             (lev a' b' + int_of_bool (negb (x =? y)%N))
    end.

(** The row of distances from the reversed prefix [rp] of [s1] to every
    prefix of [s2]: what [previous_row] holds once the characters of
    [rev rp] have been consumed. *)
Definition lev_row (rp : str) (s2 : str) : list nat :=
  map (fun k => lev rp (rev (firstn k s2))) (seq 0 (S (length s2))).

(* ================================================================== *)
(** * Specification of the normaliser *)
(* ================================================================== *)

(** A code point that [str.lower()] leaves as it is. *)
Definition lower_fixed (c : char) : Prop := lower_char c = [c].

(** A code point that no step of [f_xlit] changes or removes. *)
Definition normal_char (c : char) : Prop :=
  lower_fixed c
  /\ ~ In [c] determinatives_and_subscripts
  /\ ~ In [c] [lit "."; lit "("; lit ")"; [eng]].

(** The code points of the case table, for the exhaustive check of the
    table's properties. *)
Definition case_table_domain : list char :=
  map N.of_nat (seq 0 (N.to_nat 0x1E96)).

(* ================================================================== *)
(** * Specification of the effects *)
(* ================================================================== *)

(** [m] moves the globals along the relation [R] only, whether it
    returns or raises. *)
Definition preserves {A} (R : globals -> globals -> Prop) (m : M A)
  : Prop :=
  forall g, R g (snd (m g)).

(** The store is left as it was. *)
Definition same_data (g g' : globals) : Prop := data g' = data g.

(** The first line that [compare] prints for a store of [n] keys. *)
Definition compare_header (n : nat) : str :=
  str_of_nat n ++ lit " entries, " ++ str_of_nat (count_comparisons n)
  ++ lit " comparisons".

(** The candidate list of [w] in an edge mapping; no entry, no
    candidate. *)
Definition candidates (d : dict (list str)) (w : str) : list str :=
  match dict_get d w with
  | Some v => v
  | None => []
  end.

(** The edge criterion of the clusterer, as the specification words it:
    the lengths differ by three at most and the score is within the
    threshold of [w1]. *)
Definition edge_criterion (w1 w2 : str) : Prop :=
  (length w1 - length w2) + (length w2 - length w1) <= 3
  /\ score_strings w1 w2 <= (if 8 <=? length w1 then 2 else 1).

(** The test that [compare_pair] applies to a pair, as a boolean. *)
Definition is_candidate (w1 w2 : str) : bool :=
  let x := sorted Nat.leb [length w1; length w2] in
  if 3 <? nth 1 x 0 - nth 0 x 0 then false
  else score_strings w1 w2 <=? (if 8 <=? length w1 then 2 else 1).

(** Recording the edge [w1 -> w2]: what the body of [compare_pair] does
    to the edge mapping. *)
Definition add_edge (d : dict (list str)) (w1 w2 : str)
  : dict (list str) :=
  match dict_get d w1 with
  | None => dict_set d w1 [w2]
  | Some v => dict_set d w1 (v ++ [w2])
  end.

(** The edges that the outer loop records for [w1]: the lemmas after the
    position of [w1] that pass the test. *)
Definition edges_of (keys : list str) (w1 : str) : list str :=
  match index keys w1 with
  | Some i => filter (is_candidate w1) (skipn (i + 1) keys)
  | None => []
  end.

(* ================================================================== *)
(** * Specification of the overlap annotator *)
(* ================================================================== *)

(** A string of [n] asterisks. *)
Definition stars (n : nat) : str := repeat 0x2A%N n.

(** The spellings of a lemma of the store. *)
Definition spellings (store : dict record) (w : str) : list str :=
  match dict_get store w with
  | Some r => snd r
  | None => []
  end.

(** The star count of candidate [s]: the target spellings whose normal
    form is the normal form of a spelling of [s]. *)
Definition star_count (store : dict record) (t_xlits : list str) (s : str)
  : nat :=
  length (filter (fun t => str_in (f_xlit t)
                             (map f_xlit (spellings store s)))
                 t_xlits).

(** The label held for [s] in [s_dict], or the empty label. *)
Definition label (s_dict : dict str) (s : str) : str :=
  match dict_get s_dict s with
  | Some v => v
  | None => []
  end.

(** The strings of [l] are pairwise distinct. *)
Fixpoint nodupb (l : list str) : bool :=
  match l with
  | [] => true
  | x :: r => negb (str_in x r) && nodupb r
  end.

(* ================================================================== *)
(** * The parsing rule of the specification *)
(* ================================================================== *)

Fixpoint take_digits (s : str) : str :=
  match s with
  | [] => []
  | c :: t => if is_digit c then c :: take_digits t else []
  end.

Fixpoint drop_digits (s : str) : str :=
  match s with
  | [] => []
  | c :: t => if is_digit c then drop_digits t else s
  end.

(** The parsing rule in the words of the specification: the line is
    split on tab into three fields; the leading digit run of the first
    field is the frequency; the rest of the first field without digits
    and spaces is the key; the third field without its enclosing brackets,
    split on [", "], gives the spellings.  [None] is the
    [MalformedRecordError]. *)
Definition spec_parse_line (l : str) : option (str * record) :=
  match split tab l with
  | [f1; _; f3] =>
      match int_ (take_digits f1) with
      | Some freq =>
          Some (re_sub digits_and_space [] (drop_digits f1),
                (freq, split (lit ", ") (slice_1_m1 f3)))
      | None => None
      end
  | _ => None
  end.

(** The loader follows the rule of the specification on the line [l]. *)
Definition load_follows_spec (l : str) : Prop :=
  forall r, spec_parse_line l = Some r ->
            fst (read_file_freq_line l initial_globals) = inr r.

(** The characters that the key keeps: neither ASCII digits nor
    spaces. *)
Definition key_char (c : char) : bool :=
  negb (is_digit c || (c =? 0x20)%N).

(** A store of a hundred lemmas: [Babil], [Babilu] and ninety-eight
    numbered names, each with one spelling. *)
Definition store_100 : dict record :=
  map (fun k => (k, (1%Z, [k])))
      ([lit "Babil"; lit "Babilu"]
       ++ map (fun n => lit "Lemma" ++ str_of_nat n) (seq 0 98)).

(* ================================================================== *)
(** * Further specifications *)
(* ================================================================== *)

(** The subscript digits of the first pattern of [f_xlit]. *)
Definition subscript_digits : list char :=
  [0x2081; 0x2082; 0x2083; 0x2084; 0x2085;
   0x2086; 0x2087; 0x2088; 0x2089; 0x2080]%N.

(** What [f_xlit] makes of one lowercased character: subscript digits
    and parentheses go, the full stop becomes a hyphen and the eng a
    [g]. *)
Definition normalise_char (d : char) : str :=
  if existsb (N.eqb d) subscript_digits then []
  else if (d =? 0x2E)%N then lit "-"
  else if (d =? 0x28)%N || (d =? 0x29)%N then []
  else if (d =? eng)%N then lit "g"
  else [d].

(** The characters that [get_freq] removes from a label before it looks
    the lemma up. *)
Definition is_mark (c : char) : bool :=
  existsb (N.eqb c)
    [0x2013; 0x2A; 0x20; 0x3F; 0x5B; 0x5D;
     0x30; 0x31; 0x32; 0x33; 0x34; 0x35; 0x36; 0x37; 0x38; 0x39]%N.

Definition mark_free (s : str) : Prop :=
  Forall (fun c => is_mark c = false) s.

(** The label [l] followed by the frequency of the lemma it is looked up
    under, as [get_freq] formats it. *)
Definition with_freq (store : dict record) (l : str) : str :=
  l ++ lit " ("
    ++ str_of_Z (match dict_get store (re_sub label_marks [] l) with
                 | Some r => fst r
                 | None => 0%Z
                 end)
    ++ lit ")".

(** The labels that [compare_xlits] returns for a target with spellings
    [t_xlits]. *)
Definition star_labels (store : dict record) (t_xlits : list str)
    (suggestions : list str) : list str :=
  match t_xlits with
  | [] => []
  | _ :: _ =>
      map (fun s => s ++ stars (star_count store t_xlits s)) suggestions
  end.

(** The line that [print_results] prints for the key [k] with the
    candidate list [v]. *)
Definition report_line (store : dict record) (k : str) (v : list str)
  : str :=
  let results := filter (fun x => negb (str_eqb x (lit "_"))) v in
  let filt_res := star_labels store (spellings store k) results in
  with_freq store k ++ tab ++ tab ++ tab
    ++ join (lit " | ") (sorted_set (map (with_freq store) filt_res)).

(** The globals keep their store and their edge mapping, and their
    output is extended. *)
Definition output_only (g g' : globals) : Prop :=
  dictionary g' = dictionary g /\ data g' = data g
  /\ exists out, stdout g' = stdout g ++ out.

(** A store of three lemmas and an edge mapping over it, for the
    examples. *)
Definition store_3 : dict record :=
  [(lit "Babil", (1%Z, [lit "a-b"; lit "c-d"]));
   (lit "Babilu", (2%Z, [lit "A-B"]));
   (lit "Bubil", (3%Z, [lit "x"]))].

Definition edges_3 : dict (list str) :=
  [(lit "Babil", [lit "Babilu"; lit "Bubil"])].


(* ================================================================== *)
(** * The transitive merge *)
(* ================================================================== *)

(** [merge_entries(dic)] extends the list held under a key while a loop
    runs over that very list, and overwrites absorbed entries with the
    string ['_'].  A value of the mapping is therefore a list object,
    given by its address in a heap of lists, or a string; what a loop
    over a list object yields is read from the heap at every turn. *)
Inductive value : Type :=
| VRef (a : nat)
| VStr (s : str).

Record merge_state : Type := mk_merge_state {
  entries : dict value;
  heap : list (list str)
}.

(** How a run of [merge_entries] ends.  The model counts the turns of
    each inner loop against a bound, since a list that grows under its
    own loop need not end. *)
Inductive merge_outcome : Type :=
| Returned
| Raised_KeyError
| Raised_TypeError
| Out_of_fuel.

(** Iterating a [str] yields its characters as strings of length one. *)
Definition chars (s : str) : list str := map (fun c => [c]) s.

(** What iterating the value [v] yields, as the heap stands. *)
Definition iter_items (h : list (list str)) (v : value) : list str :=
  match v with
  | VRef a => nth a h []
  | VStr s => chars s
  end.

Fixpoint heap_set (h : list (list str)) (a : nat) (l : list str)
  : list (list str) :=
  match h, a with
  | [], _ => []
  | _ :: r, 0 => l :: r
  | x :: r, S a => x :: heap_set r a l
  end.

(** [dic[key] += dic[val]; dic[val] = '_'].  On a list [+=] is
    [list.extend]: the object is extended in place by what iterating the
    right-hand side yields, and stored back under [key]; on a string it
    is [+], which builds a new string and raises [TypeError] for a list
    on the right. *)
Definition merge_step (key val : str) (st : merge_state)
  : merge_outcome + merge_state :=
  match dict_get (entries st) key with
  | None => inl Raised_KeyError
  | Some x =>
      match dict_get (entries st) val with
      | None => inl Raised_KeyError
      | Some y =>
          match x, y with
          | VRef a, _ =>
              inr (mk_merge_state
                     (dict_set (dict_set (entries st) key (VRef a))
                               val (VStr (lit "_")))
                     (heap_set (heap st) a
                        (nth a (heap st) [] ++ iter_items (heap st) y)))
          | VStr s, VStr t =>
              inr (mk_merge_state
                     (dict_set (dict_set (entries st) key (VStr (s ++ t)))
                               val (VStr (lit "_")))
                     (heap st))
          | VStr _, VRef _ => inl Raised_TypeError
          end
      end
  end.

(** [for val in dic[key]: if val in dic.keys(): ...], from the turn [i]
    on; [obj] is the value that [dic[key]] gave when the loop began. *)
Fixpoint merge_values (fuel : nat) (key : str) (obj : value) (i : nat)
    (st : merge_state) : merge_outcome * merge_state :=
  match fuel with
  | 0 => (Out_of_fuel, st)
  | S fuel =>
      match nth_error (iter_items (heap st) obj) i with
      | None => (Returned, st)
      | Some val =>
          if dict_mem val (entries st) then
            match merge_step key val st with
            | inl e => (e, st)
            | inr st' => merge_values fuel key obj (i + 1) st'
            end
          else merge_values fuel key obj (i + 1) st
      end
  end.

(** [for key in dic.keys(): ...].  The body assigns to present keys
    only, so the keys under iteration stay as they were. *)
Fixpoint merge_keys (fuel : nat) (keys : list str) (st : merge_state)
  : merge_outcome * merge_state :=
  match keys with
  | [] => (Returned, st)
  | key :: rest =>
      match dict_get (entries st) key with
      | None => (Raised_KeyError, st)
      | Some obj =>
          match merge_values fuel key obj 0 st with
          | (Returned, st') => merge_keys fuel rest st'
          | r => r
          end
      end
  end.

(** [merge_entries(dic)], every inner loop bounded by [fuel] turns. *)
Definition merge_entries (fuel : nat) (st : merge_state)
  : merge_outcome * merge_state :=
  merge_keys fuel (dict_keys (entries st)) st.

(** ** Specification of the merge *)

(** The tombstone that marks an absorbed key. *)
Definition tomb : str := lit "_".

Fixpoint load_from (a : nat) (d : dict (list str)) : dict value :=
  match d with
  | [] => []
  | (k, _) :: r => (k, VRef a) :: load_from (S a) r
  end.

(** An edge mapping as [compare] builds it: every key holds a list
    object of its own. *)
Definition load_edges (d : dict (list str)) : merge_state :=
  mk_merge_state (load_from 0 d) (map snd d).

(** What the mapping holds under [k]: a list, or a string. *)
Definition view (st : merge_state) (k : str) : option (list str + str) :=
  match dict_get (entries st) k with
  | Some (VRef a) => Some (inl (nth a (heap st) []))
  | Some (VStr s) => Some (inr s)
  | None => None
  end.

(** Every candidate that is itself a key stands after its key. *)
Definition forward (d : dict (list str)) : Prop :=
  forall p q w1 w2,
    nth_error (dict_keys d) p = Some w1 ->
    nth_error (dict_keys d) q = Some w2 ->
    In w2 (candidates d w1) ->
    p < q.

(** The same, as a test. *)
Definition forwardb (d : dict (list str)) : bool :=
  forallb
    (fun k =>
       match index (dict_keys d) k with
       | Some p =>
           forallb
             (fun w =>
                match index (dict_keys d) w with
                | Some q => p <? q
                | None => true
                end)
             (candidates d k)
       | None => true
       end)
    (dict_keys d).

(** The turns that an item of a list may still cost: a tombstone costs
    its own turn, any other item may add a tombstone. *)
Definition item_weight (w : str) : nat := if str_eqb w tomb then 1 else 2.

Definition weight (l : list str) : nat := list_sum (map item_weight l).

Definition key_weight (st : merge_state) (k : str) : nat :=
  match view st k with
  | Some (inl l) => weight l
  | _ => 0
  end.

(** The weight of the lists held from the position [p] on. *)
Definition tail_weight (ks : list str) (p : nat) (st : merge_state) : nat :=
  list_sum (map (key_weight st) (skipn p ks)).

(** What holds of the state while the key at position [p] of the edge
    mapping [d] is under way, the keys before it being done. *)
Record merge_inv (d : dict (list str)) (p : nat) (st : merge_state)
  : Prop := mk_merge_inv {
  inv_keys : dict_keys (entries st) = dict_keys d;
  inv_heap : length (heap st) = length (dict_keys d);
  inv_sep : forall k a,
      dict_get (entries st) k = Some (VRef a) ->
      nth_error (dict_keys d) a = Some k;
  inv_tomb : forall k s,
      dict_get (entries st) k = Some (VStr s) -> s = tomb;
  inv_prefix : forall k l,
      view st k = Some (inl l) -> exists extra, l = candidates d k ++ extra;
  inv_forward : forall q k l w j,
      nth_error (dict_keys d) q = Some k ->
      view st k = Some (inl l) ->
      In w l ->
      nth_error (dict_keys d) j = Some w ->
      q < j;
  inv_source : forall k l w,
      view st k = Some (inl l) -> In w l ->
      w = tomb \/ exists j, In w (candidates d j);
  inv_absorbed : forall k,
      view st k = Some (inr tomb) -> exists j, In k (candidates d j);
  inv_covered : forall k,
      view st k = Some (inr tomb) ->
      exists q r l,
        q <= p /\ nth_error (dict_keys d) q = Some r
        /\ view st r = Some (inl l) /\ incl (candidates d k) l;
  inv_closed : forall q r l w,
      q < p ->
      nth_error (dict_keys d) q = Some r ->
      view st r = Some (inl l) ->
      In w l -> In w (dict_keys d) ->
      view st w = Some (inr tomb)
}.

(** Whether some later key passes the pair test with [w]. *)
Definition has_candidates (keys : list str) (w : str) : bool :=
  match edges_of keys w with
  | [] => false
  | _ :: _ => true
  end.

(** An edge mapping with a chain, for the examples. *)
Definition edges_chain : dict (list str) :=
  [(lit "Babil", [lit "Babilu"; lit "Bubil"]);
   (lit "Babilu", [lit "Babitu"])].
(* ================================================================== *)
(** * Theorems *)
(* ================================================================== *)

Example score_Babil_Babilu : score_strings (lit "Babil") (lit "Babilu") = 1.
Proof. reflexivity. Qed.

Example score_Barsip_Barsipa :
  score_strings (lit "Barsip") (lit "Barsipa") = 1.
Proof. reflexivity. Qed.

Example score_kitten_sitting :
  score_strings (lit "kitten") (lit "sitting") = 3.
Proof. reflexivity. Qed.

(* ------------------------------------------------------------------ *)
(** ** The recurrence [lev] is the edit distance *)
(* ------------------------------------------------------------------ *)

Section EditDistance.

Lemma lev_nil_l b : lev [] b = length b.
Proof. destruct b; reflexivity. Qed.

Lemma lev_nil_r a : lev a [] = length a.
Proof. destruct a; reflexivity. Qed.

Lemma lev_cons x a y b :
  lev (x :: a) (y :: b)
  = min3 (S (lev a (y :: b))) (S (lev (x :: a) b))
         (lev a b + int_of_bool (negb (x =? y)%N)).
Proof. reflexivity. Qed.

Lemma int_of_bool_le1 b : int_of_bool b <= 1.
Proof. destruct b; simpl; lia. Qed.

Lemma lev_refl a : lev a a = 0.
Proof.
  induction a as [|x a IH]; [reflexivity|].
  rewrite lev_cons, IH, N.eqb_refl. unfold min3. simpl. lia.
Qed.

(** Dropping the head of the right string costs at most one edit. *)
Lemma lev_cons_r_le a y b : lev a (y :: b) <= S (lev a b).
Proof.
  destruct a as [|x a].
  - rewrite !lev_nil_l. simpl. lia.
  - rewrite lev_cons. unfold min3. lia.
Qed.

Lemma lev_cons_l_le x a b : lev (x :: a) b <= S (lev a b).
Proof.
  destruct b as [|y b].
  - rewrite !lev_nil_r. simpl. lia.
  - rewrite lev_cons. unfold min3. lia.
Qed.

Lemma lev_uncons_l_le x a b : lev a b <= S (lev (x :: a) b).
Proof.
  induction b as [|y b IH].
  - rewrite !lev_nil_r. simpl. lia.
  - rewrite lev_cons. unfold min3.
    pose proof (lev_cons_r_le a y b). lia.
Qed.

Lemma lev_subst_l_le x x' a b : lev (x :: a) b <= S (lev (x' :: a) b).
Proof.
  induction b as [|y b IH].
  - rewrite !lev_nil_r. simpl. lia.
  - rewrite !lev_cons. unfold min3.
    pose proof (int_of_bool_le1 (negb (x =? y)%N)). lia.
Qed.

(** A bound that holds for two strings still holds below a common head. *)
Lemma lev_under_cons c u v :
  (forall b, lev u b <= S (lev v b)) ->
  forall b, lev (c :: u) b <= S (lev (c :: v) b).
Proof.
  intros H b. induction b as [|y b IH].
  - rewrite !lev_nil_r. specialize (H []). rewrite !lev_nil_r in H.
    simpl. lia.
  - rewrite !lev_cons. unfold min3.
    pose proof (H (y :: b)). pose proof (H b). lia.
Qed.

Lemma lev_under_prefix x u v :
  (forall b, lev u b <= S (lev v b)) ->
  forall b, lev (x ++ u) b <= S (lev (x ++ v) b).
Proof.
  intros H. induction x as [|c x IH]; simpl; [exact H|].
  apply lev_under_cons, IH.
Qed.

(** [lev] moves by at most one under a single edit of its left string. *)
Lemma lev_edit1 a a' : edit1 a a' -> forall b, lev a b <= S (lev a' b).
Proof.
  intros [x c y|x c y|x c d y]; apply lev_under_prefix; intro b.
  - apply lev_uncons_l_le.
  - apply lev_cons_l_le.
  - apply lev_subst_l_le.
Qed.

Lemma lev_lower_bound m a b : edits m a b -> lev a b <= m.
Proof.
  induction 1 as [a|n a b c H1 _ IH].
  - rewrite lev_refl. lia.
  - pose proof (lev_edit1 H1 c). lia.
Qed.

Lemma edit1_cons c a b : edit1 a b -> edit1 (c :: a) (c :: b).
Proof.
  intros [x e y|x e y|x e d y].
  - apply (edit_ins (c :: x) e y).
  - apply (edit_del (c :: x) e y).
  - apply (edit_sub (c :: x) e d y).
Qed.

Lemma edits_cons c n a b : edits n a b -> edits n (c :: a) (c :: b).
Proof.
  induction 1 as [a|n a b d H1 _ IH]; [constructor|].
  econstructor; [apply edit1_cons, H1|exact IH].
Qed.

Lemma edits_insert_all b : edits (length b) [] b.
Proof.
  induction b as [|y b IH]; [constructor|]. simpl.
  econstructor; [apply (edit_ins [] y [])|]. simpl.
  apply edits_cons, IH.
Qed.

Lemma edits_delete_all a : edits (length a) a [].
Proof.
  induction a as [|x a IH]; [constructor|]. simpl.
  econstructor; [apply (edit_del [] x a)|exact IH].
Qed.

Lemma edits_lev a b : edits (lev a b) a b.
Proof.
  revert b. induction a as [|x a IHa]; intro b.
  - rewrite lev_nil_l. apply edits_insert_all.
  - induction b as [|y b IHb].
    + rewrite lev_nil_r. apply edits_delete_all.
    + rewrite lev_cons. unfold min3.
      destruct (Nat.min_spec (S (lev a (y :: b)))
                  (Nat.min (S (lev (x :: a) b))
                     (lev a b + int_of_bool (negb (x =? y)%N))))
        as [[_ ->]|[_ ->]].
      * econstructor; [apply (edit_del [] x a)|apply IHa].
      * destruct (Nat.min_spec (S (lev (x :: a) b))
                    (lev a b + int_of_bool (negb (x =? y)%N)))
          as [[_ ->]|[_ ->]].
        -- econstructor; [apply (edit_ins [] y (x :: a))|].
           simpl. apply edits_cons, IHb.
        -- destruct (N.eqb_spec x y) as [->|Hxy]; simpl.
           ++ rewrite Nat.add_0_r. apply edits_cons, IHa.
           ++ rewrite Nat.add_1_r.
              econstructor; [apply (edit_sub [] x y a)|].
              simpl. apply edits_cons, IHa.
Qed.

Lemma lev_edit_distance a b : edit_distance a b (lev a b).
Proof. split; [apply edits_lev|intros m; apply lev_lower_bound]. Qed.

Lemma edit_distance_unique a b n m :
  edit_distance a b n -> edit_distance a b m -> n = m.
Proof.
  intros [H1 H2] [H3 H4]. apply Nat.le_antisymm; auto.
Qed.

(** Edits can be undone and read backwards. *)
Lemma edit1_sym a b : edit1 a b -> edit1 b a.
Proof. intros [x c y|x c y|x c d y]; constructor. Qed.

Lemma edits_snoc n a b c : edits n a b -> edit1 b c -> edits (S n) a c.
Proof.
  induction 1 as [a|n a b d H1 _ IH]; intro H.
  - econstructor; [exact H|constructor].
  - econstructor; [exact H1|apply IH, H].
Qed.

Lemma edits_sym n a b : edits n a b -> edits n b a.
Proof.
  induction 1 as [a|n a b c H1 _ IH]; [constructor|].
  eapply edits_snoc; [exact IH|apply edit1_sym, H1].
Qed.

Lemma edit1_rev a b : edit1 a b -> edit1 (rev a) (rev b).
Proof.
  intros [x c y|x c y|x c d y];
    rewrite ?rev_app_distr; simpl; rewrite ?rev_app_distr;
    rewrite <- ?app_assoc; simpl; constructor.
Qed.

Lemma edits_rev n a b : edits n a b -> edits n (rev a) (rev b).
Proof.
  induction 1 as [a|n a b c H1 _ IH]; [constructor|].
  econstructor; [apply edit1_rev, H1|exact IH].
Qed.

Lemma lev_sym a b : lev a b = lev b a.
Proof.
  apply Nat.le_antisymm; apply lev_lower_bound, edits_sym, edits_lev.
Qed.

Lemma lev_rev a b : lev (rev a) (rev b) = lev a b.
Proof.
  apply Nat.le_antisymm; apply lev_lower_bound.
  - apply edits_rev, edits_lev.
  - pose proof (edits_rev (edits_lev (rev a) (rev b))) as H.
    rewrite !rev_involutive in H. exact H.
Qed.

End EditDistance.

(* ------------------------------------------------------------------ *)
(** ** The rolling rows of [levenshtein] compute [lev] *)
(* ------------------------------------------------------------------ *)

Section RollingRows.

Lemma enumerate_from_cons {A} i (x : A) l :
  enumerate_from i (x :: l) = (i, x) :: enumerate_from (S i) l.
Proof. reflexivity. Qed.

Lemma nth_map_seq {A} (f : nat -> A) n k d :
  k < n -> nth k (map f (seq 0 n)) d = f k.
Proof.
  intro H. rewrite (nth_indep _ d (f 0)) by (rewrite length_map, length_seq; lia).
  rewrite (map_nth f (seq 0 n) 0 k), seq_nth by lia. reflexivity.
Qed.

Lemma map_seq_snoc {A} (f : nat -> A) n :
  map f (seq 0 (S n)) = map f (seq 0 n) ++ [f n].
Proof. rewrite seq_S, map_app. reflexivity. Qed.

Lemma firstn_app_exact {A} (pre suf : list A) :
  firstn (length pre) (pre ++ suf) = pre.
Proof.
  rewrite firstn_app, Nat.sub_diag, firstn_all. simpl. apply app_nil_r.
Qed.

Lemma firstn_app_succ {A} (pre : list A) c suf :
  firstn (S (length pre)) (pre ++ c :: suf) = pre ++ [c].
Proof.
  replace (pre ++ c :: suf) with ((pre ++ [c]) ++ suf)
    by (rewrite <- app_assoc; reflexivity).
  replace (S (length pre)) with (length (pre ++ [c]))
    by (rewrite length_app; simpl; lia).
  apply firstn_app_exact.
Qed.

Lemma levenshtein_inner_cons c1 previous_row j c2 js current_row :
  levenshtein_inner c1 previous_row ((j, c2) :: js) current_row
  = levenshtein_inner c1 previous_row js
      (current_row ++
       [min3 (nth (j + 1) previous_row 0 + 1) (nth j current_row 0 + 1)
             (nth j previous_row 0 + int_of_bool (negb (c1 =? c2)%N))]).
Proof. reflexivity. Qed.

Lemma levenshtein_outer_cons i c1 is_ s2 previous_row :
  levenshtein_outer ((i, c1) :: is_) s2 previous_row
  = levenshtein_outer is_ s2
      (levenshtein_inner c1 previous_row (enumerate s2) [i + 1]).
Proof. reflexivity. Qed.

(** The inner loop extends the row of [c1 :: rp] by one prefix of [s2]
    per iteration. *)
Lemma levenshtein_inner_spec c1 rp suf :
  forall pre,
    levenshtein_inner c1 (lev_row rp (pre ++ suf))
      (enumerate_from (length pre) suf)
      (map (fun k => lev (c1 :: rp) (rev (firstn k (pre ++ suf))))
           (seq 0 (S (length pre))))
    = lev_row (c1 :: rp) (pre ++ suf).
Proof.
  induction suf as [|c2 suf IH]; intro pre.
  - unfold lev_row. rewrite app_nil_r. reflexivity.
  - rewrite enumerate_from_cons, levenshtein_inner_cons.
    specialize (IH (pre ++ [c2])).
    rewrite <- app_assoc in IH. simpl app in IH.
    replace (length (pre ++ [c2])) with (S (length pre)) in IH
      by (rewrite length_app; simpl; lia).
    rewrite <- IH. f_equal.
    rewrite (map_seq_snoc _ (S (length pre))). f_equal. f_equal.
    unfold lev_row.
    rewrite !nth_map_seq by (rewrite ?length_app; simpl; lia).
    replace (length pre + 1) with (S (length pre)) by lia.
    rewrite firstn_app_succ, firstn_app_exact, rev_app_distr. simpl rev.
    simpl app. rewrite lev_cons.
    rewrite !Nat.add_1_r. reflexivity.
Qed.

Lemma levenshtein_inner_row c1 rp s2 :
  levenshtein_inner c1 (lev_row rp s2) (enumerate s2) [length rp + 1]
  = lev_row (c1 :: rp) s2.
Proof.
  pose proof (levenshtein_inner_spec c1 rp s2 []) as H.
  rewrite Nat.add_1_r. exact H.
Qed.

(** The outer loop replaces the row of [rp] by the row of the next longer
    prefix of [s1]. *)
Lemma levenshtein_outer_spec s2 rest :
  forall rp,
    levenshtein_outer (enumerate_from (length rp) rest) s2 (lev_row rp s2)
    = lev_row (rev rest ++ rp) s2.
Proof.
  induction rest as [|c1 rest IH]; intro rp; [reflexivity|].
  rewrite enumerate_from_cons, levenshtein_outer_cons.
  rewrite levenshtein_inner_row.
  specialize (IH (c1 :: rp)). simpl length in IH. rewrite IH.
  simpl rev. rewrite <- app_assoc. reflexivity.
Qed.

Lemma lev_row_nil s2 : lev_row [] s2 = seq 0 (length s2 + 1).
Proof.
  unfold lev_row. rewrite Nat.add_1_r.
  rewrite <- (map_id (seq 0 (S (length s2)))) at 2.
  apply map_ext_in. intros k Hk. apply in_seq in Hk.
  rewrite lev_nil_l, length_rev, length_firstn. lia.
Qed.

Lemma last_lev_row rp s2 d : last (lev_row rp s2) d = lev rp (rev s2).
Proof.
  unfold lev_row. rewrite map_seq_snoc, last_last, firstn_all. reflexivity.
Qed.

Lemma levenshtein_outer_rows s1 s2 :
  levenshtein_outer (enumerate s1) s2 (seq 0 (length s2 + 1))
  = lev_row (rev s1) s2.
Proof.
  rewrite <- lev_row_nil.
  pose proof (levenshtein_outer_spec s2 s1 []) as H.
  rewrite app_nil_r in H. exact H.
Qed.

(** Every row of [levenshtein] holds [len(s2) + 1] entries, so the
    indices [j] and [j + 1] read by the inner loop are in range. *)
Lemma levenshtein_row_length s1 s2 :
  length (levenshtein_outer (enumerate s1) s2 (seq 0 (length s2 + 1)))
  = length s2 + 1.
Proof.
  rewrite levenshtein_outer_rows.
  unfold lev_row. rewrite length_map, length_seq. lia.
Qed.

Lemma levenshtein_body_lev s1 s2 : levenshtein_body s1 s2 = lev s1 s2.
Proof.
  unfold levenshtein_body. destruct (Nat.eqb_spec (length s2) 0) as [H|H].
  - apply length_zero_iff_nil in H. subst. symmetry. apply lev_nil_r.
  - cbv zeta. rewrite levenshtein_outer_rows, last_lev_row. apply lev_rev.
Qed.

Lemma levenshtein_lev s1 s2 : levenshtein s1 s2 = lev s1 s2.
Proof.
  unfold levenshtein. destruct (length s1 <? length s2).
  - rewrite levenshtein_body_lev. apply lev_sym.
  - apply levenshtein_body_lev.
Qed.

Lemma hamming_sym s1 s2 : hamming s1 s2 = hamming s2 s1.
Proof.
  unfold hamming. revert s2.
  induction s1 as [|a s1 IH]; intros [|b s2]; try reflexivity.
  simpl. rewrite IH, (N.eqb_sym a b). reflexivity.
Qed.

End RollingRows.

(* ------------------------------------------------------------------ *)
(** ** The scorer: Levenshtein branch and symmetry *)
(* ------------------------------------------------------------------ *)

Lemma levenshtein_edit_distance s1 s2 :
  edit_distance s1 s2 (levenshtein s1 s2).
Proof. rewrite levenshtein_lev. apply lev_edit_distance. Qed.

Lemma levenshtein_sym s1 s2 : levenshtein s1 s2 = levenshtein s2 s1.
Proof. rewrite !levenshtein_lev. apply lev_sym. Qed.

(** C4. For strings [a], [b] of different lengths, [score_strings a b] is
    the Levenshtein distance of the lowercased strings: that many
    single-character insertions, deletions and substitutions turn
    [lower a] into [lower b], and no shorter sequence of such edits does.
    When one of the two strings is empty the score is the length of the
    other lowercased string. *)
Theorem score_strings_levenshtein (a b : str) :
  length a <> length b ->
  edit_distance (lower a) (lower b) (score_strings a b)
  /\ (a = [] -> score_strings a b = length (lower b))
  /\ (b = [] -> score_strings a b = length (lower a)).
Proof.
  intro Hlen. unfold score_strings.
  destruct (Nat.eqb_spec (length a) (length b)) as [E|_]; [contradiction|].
  split; [apply levenshtein_edit_distance|].
  rewrite levenshtein_lev. split; intros ->; simpl lower.
  - apply lev_nil_l.
  - apply lev_nil_r.
Qed.

Lemma score_strings_levenshtein_witness :
  length (lit "Babil") <> length (lit "Babilu")
  /\ edit_distance (lower (lit "Babil")) (lower (lit "Babilu"))
       (score_strings (lit "Babil") (lit "Babilu"))
  /\ score_strings (lit "Babil") (lit "Babilu") = 1.
Proof.
  split; [simpl; lia|]. split; [|reflexivity].
  apply (score_strings_levenshtein (lit "Babil") (lit "Babilu")).
  simpl. lia.
Defined.

(** C5. The score is symmetric: [score_strings a b = score_strings b a]
    for all strings. *)
Theorem score_strings_sym (a b : str) :
  score_strings a b = score_strings b a.
Proof.
  unfold score_strings. rewrite (Nat.eqb_sym (length b) (length a)).
  destruct (length a =? length b).
  - apply hamming_sym.
  - apply levenshtein_sym.
Qed.

(* ------------------------------------------------------------------ *)
(** ** Case mapping *)
(* ------------------------------------------------------------------ *)

Section CaseMapping.

Lemma lower_char_outside c : (0x1E95 < c)%N -> lower_char c = [c].
Proof.
  intro H. unfold lower_char, between.
  repeat match goal with
  | |- context [(c <=? ?k)%N] =>
      replace (c <=? k)%N with false by (symmetry; apply N.leb_gt; lia)
  | |- context [(c =? ?k)%N] =>
      replace (c =? k)%N with false by (symmetry; apply N.eqb_neq; lia)
  end.
  rewrite !andb_false_r. reflexivity.
Qed.

Lemma case_table_domain_spec c :
  (c <= 0x1E95)%N -> In c case_table_domain.
Proof.
  intro H. unfold case_table_domain.
  rewrite <- (N2Nat.id c). apply in_map, in_seq.
  lia.
Qed.

Lemma lower_char_table_fixed :
  forallb (fun c => forallb (fun d => str_eqb (lower_char d) [d])
                            (lower_char c))
          case_table_domain = true.
Proof. vm_compute. reflexivity. Qed.

Lemma str_eqb_eq a b : str_eqb a b = true <-> a = b.
Proof.
  unfold str_eqb. destruct (list_eq_dec N.eq_dec a b); split;
    congruence.
Qed.

Lemma str_eqb_refl a : str_eqb a a = true.
Proof. apply str_eqb_eq. reflexivity. Qed.

(** What [lower] produces, [lower] leaves alone. *)
Lemma lower_char_fixed c d : In d (lower_char c) -> lower_fixed d.
Proof.
  intro H. destruct (N.le_gt_cases c 0x1E95) as [Hc|Hc].
  - pose proof lower_char_table_fixed as T.
    rewrite forallb_forall in T.
    specialize (T c (case_table_domain_spec Hc)).
    rewrite forallb_forall in T. apply str_eqb_eq, T, H.
  - rewrite (lower_char_outside Hc) in H. destruct H as [<-|[]].
    apply lower_char_outside, Hc.
Qed.

Lemma lower_Forall_fixed x : Forall lower_fixed (lower x).
Proof.
  apply Forall_forall. intros d H. unfold lower in H.
  apply in_flat_map in H. destruct H as [c [_ H]].
  eapply lower_char_fixed, H.
Qed.

Lemma lower_of_fixed s : Forall lower_fixed s -> lower s = s.
Proof.
  induction 1 as [|c s Hc _ IH]; [reflexivity|].
  unfold lower in *. simpl. rewrite Hc, IH. reflexivity.
Qed.

Lemma lower_idempotent x : lower (lower x) = lower x.
Proof. apply lower_of_fixed, lower_Forall_fixed. Qed.

End CaseMapping.

(* ------------------------------------------------------------------ *)
(** ** Substitution of literal alternatives *)
(* ------------------------------------------------------------------ *)

Section ReSub.

Variable alts : list str.
Variable repl : str.

Lemma startswith_In p s d : startswith p s = true -> In d p -> In d s.
Proof.
  unfold startswith. intros H Hd. apply str_eqb_eq in H.
  rewrite <- H in Hd. rewrite <- (firstn_skipn (length p) s).
  apply in_or_app. now left.
Qed.

Lemma startswith_single c t : startswith [c] (c :: t) = true.
Proof. unfold startswith. simpl. apply str_eqb_refl. Qed.

Lemma first_match_none_single c t :
  first_match alts (c :: t) = None -> ~ In [c] alts.
Proof.
  induction alts as [|p ps IH]; simpl; [tauto|].
  destruct p as [|x p'].
  - intros H [E|Hin]; [discriminate|]. exact (IH H Hin).
  - destruct (startswith (x :: p') (c :: t)) eqn:E; [discriminate|].
    intros H [E'|Hin]; [|exact (IH H Hin)].
    rewrite E', startswith_single in E. discriminate.
Qed.

Lemma first_match_absent s :
  (forall p, In p alts -> exists d, In d p /\ ~ In d s) ->
  first_match alts s = None.
Proof.
  induction alts as [|p ps IH]; intro H; [reflexivity|]. simpl.
  assert (Hps : first_match ps s = None)
    by (apply IH; intros q Hq; apply H; now right).
  destruct p as [|x p']; [exact Hps|].
  destruct (startswith (x :: p') s) eqn:E; [|exact Hps].
  destruct (H (x :: p') (or_introl eq_refl)) as [d [Hd Hn]].
  exfalso. apply Hn. eapply startswith_In; eauto.
Qed.

(** A character of the result was copied from the input, where no
    one-character alternative equals it, or comes from the replacement. *)
Lemma re_sub_from_chars s :
  forall skip,
    Forall (fun c => (In c s /\ ~ In [c] alts) \/ In c repl)
           (re_sub_from alts repl skip s).
Proof.
  induction s as [|c t IH]; intro skip; [constructor|].
  assert (W : forall k,
             Forall (fun c0 => (In c0 (c :: t) /\ ~ In [c0] alts)
                               \/ In c0 repl)
                    (re_sub_from alts repl k t)).
  { intro k. eapply Forall_impl; [|apply IH].
    simpl. intros a [[H1 H2]|H]; [left; split; [now right|exact H2]|now right]. }
  simpl. destruct skip as [|k]; [|apply W].
  destruct (first_match alts (c :: t)) as [k|] eqn:E.
  - apply Forall_app. split; [|apply W].
    apply Forall_forall. intros a Ha. now right.
  - constructor; [|apply W].
    left. split; [now left|]. eapply first_match_none_single, E.
Qed.

Lemma re_sub_chars s :
  Forall (fun c => (In c s /\ ~ In [c] alts) \/ In c repl)
         (re_sub alts repl s).
Proof. apply re_sub_from_chars. Qed.

(** A string in which no alternative can match is left as it is. *)
Lemma re_sub_absent s :
  (forall p, In p alts -> exists d, In d p /\ ~ In d s) ->
  re_sub alts repl s = s.
Proof.
  unfold re_sub. induction s as [|c t IH]; intro H; [reflexivity|].
  simpl. rewrite (first_match_absent _ H). f_equal. apply IH.
  intros p Hp. destruct (H p Hp) as [d [Hd Hn]].
  exists d. split; [exact Hd|]. intro Hin. apply Hn. now right.
Qed.

End ReSub.

(* ------------------------------------------------------------------ *)
(** ** The normaliser *)
(* ------------------------------------------------------------------ *)

Section Normaliser.

(** Every character of a normalised spelling is a normal character. *)
Lemma f_xlit_normal x : Forall normal_char (f_xlit x).
Proof.
  unfold f_xlit. cbv zeta.
  set (s1 := re_sub determinatives_and_subscripts [] (lower x)).
  assert (H1 : Forall (fun c => lower_fixed c
                        /\ ~ In [c] determinatives_and_subscripts) s1).
  { pose proof (re_sub_chars determinatives_and_subscripts [] (lower x)) as R.
    pose proof (lower_Forall_fixed x) as L. rewrite Forall_forall in L.
    eapply Forall_impl; [|exact R]. simpl.
    intros c [[Hin Hn]|[]]. split; [apply L, Hin|exact Hn]. }
  rewrite (lower_of_fixed (s := s1))
    by (eapply Forall_impl; [|exact H1]; simpl; tauto).
  rewrite Forall_forall in H1.
  apply Forall_forall. intros c Hc.
  pose proof (re_sub_chars [[eng]] (lit "g")
                (re_sub [lit "("; lit ")"] []
                   (re_sub [lit "."] (lit "-") s1))) as R4.
  rewrite Forall_forall in R4. destruct (R4 c Hc) as [[Hc3 N4]|G].
  2:{ destruct G as [<-|[]]. repeat split.
      all: simpl; intros H; repeat destruct H as [H|H]; try discriminate H;
        exact H. }
  pose proof (re_sub_chars [lit "("; lit ")"] []
                (re_sub [lit "."] (lit "-") s1)) as R3.
  rewrite Forall_forall in R3. destruct (R3 c Hc3) as [[Hc2 N3]|[]].
  pose proof (re_sub_chars [lit "."] (lit "-") s1) as R2.
  rewrite Forall_forall in R2. destruct (R2 c Hc2) as [[Hc1 N2]|D].
  2:{ destruct D as [<-|[]]. repeat split.
      all: simpl; intros H; repeat destruct H as [H|H]; try discriminate H;
        exact H. }
  destruct (H1 c Hc1) as [F N1]. repeat split; try assumption.
  simpl in *. tauto.
Qed.

(** A string of normal characters is its own normal form. *)
Lemma f_xlit_of_normal y : Forall normal_char y -> f_xlit y = y.
Proof.
  intro H. unfold f_xlit. cbv zeta.
  assert (L : lower y = y)
    by (apply lower_of_fixed; eapply Forall_impl; [|exact H];
        unfold normal_char; simpl; tauto).
  rewrite Forall_forall in H.
  assert (U : ~ In 0x55%N y)
    by (intro Hin; destruct (H _ Hin) as [F _]; discriminate F).
  assert (K : ~ In 0x4B%N y)
    by (intro Hin; destruct (H _ Hin) as [F _]; discriminate F).
  assert (S1 : re_sub determinatives_and_subscripts [] y = y).
  { apply re_sub_absent. intros p Hp. simpl in Hp.
    destruct Hp as [<-|[<-|[<-|Hp]]].
    - exists 0x55%N. split; [simpl; tauto|exact U].
    - exists 0x4B%N. split; [simpl; tauto|exact K].
    - exists 0x4B%N. split; [simpl; tauto|exact K].
    - repeat destruct Hp as [<-|Hp]; try contradiction;
        (eexists; split; [now left|]; intro Hin;
         destruct (H _ Hin) as [_ [N1 _]]; apply N1; simpl; tauto). }
  assert (S2 : forall alts repl,
             (forall p, In p alts ->
                        In p [lit "."; lit "("; lit ")"; [eng]]) ->
             re_sub alts repl y = y).
  { intros alts repl Hsub. apply re_sub_absent. intros p Hp.
    specialize (Hsub p Hp). simpl in Hsub.
    repeat destruct Hsub as [<-|Hsub]; try contradiction;
      (eexists; split; [now left|]; intro Hin;
       destruct (H _ Hin) as [_ [_ N2]]; apply N2; simpl; tauto). }
  rewrite L, S1, L. rewrite !S2 by (simpl; tauto). reflexivity.
Qed.

Lemma f_xlit_idempotent x : f_xlit (f_xlit x) = f_xlit x.
Proof. apply f_xlit_of_normal, f_xlit_normal. Qed.

(** [f_xlit] reads its argument through [lower] only. *)
Lemma f_xlit_lower x y : lower x = lower y -> f_xlit x = f_xlit y.
Proof. intro H. unfold f_xlit. rewrite H. reflexivity. Qed.

Lemma lower_app a b : lower (a ++ b) = lower a ++ lower b.
Proof. unfold lower. apply flat_map_app. Qed.

Lemma upper_lower_ascii_table :
  forallb (fun c => str_eqb (lower (upper_char c)) (lower_char c))
          (map N.of_nat (seq 0 128)) = true.
Proof. vm_compute. reflexivity. Qed.

(** Lower-casing undoes upper-casing on ASCII strings. *)
Lemma lower_upper_ascii x :
  Forall (fun c => (c < 128)%N) x -> lower (upper x) = lower x.
Proof.
  induction 1 as [|c x Hc _ IH]; [reflexivity|].
  unfold upper in *. simpl. rewrite lower_app, IH.
  change (lower (c :: x)) with (lower_char c ++ lower x). f_equal.
  pose proof upper_lower_ascii_table as T. rewrite forallb_forall in T.
  apply str_eqb_eq, T.
  rewrite <- (N2Nat.id c). apply in_map, in_seq. lia.
Qed.

(** The upper-case pattern never matches the lowercased argument: a
    determinative marker comes out lowercased, and is not removed. *)
Lemma f_xlit_keeps_URU x :
  f_xlit (lit "{URU}" ++ x) = lit "{uru}" ++ f_xlit x.
Proof.
  unfold f_xlit. cbv zeta. rewrite lower_app.
  change (lower (lit "{URU}")) with (lit "{uru}").
  change (re_sub determinatives_and_subscripts []
            (lit "{uru}" ++ lower x))
    with (lit "{uru}" ++ re_sub determinatives_and_subscripts [] (lower x)).
  rewrite lower_app.
  change (lower (lit "{uru}")) with (lit "{uru}").
  reflexivity.
Qed.

End Normaliser.

Example f_xlit_URU_asdudi :
  f_xlit (lit "{URU}as-du-di") = lit "{uru}as-du-di"
  /\ f_xlit (lit "as-du-di") = lit "as-du-di".
Proof. split; reflexivity. Qed.

(** C3 (the code departs from the claim).  [f_xlit] lowercases its
    argument before it matches the upper-case patterns [{URU}], [{KUR}]
    and [{KI}], so a determinative marker is never stripped: the spelling
    [{URU}as-du-di] normalises to [{uru}as-du-di], which is not the
    normal form [as-du-di] of the same spelling without the marker. *)
Theorem f_xlit_marker_not_stripped :
  f_xlit (lit "{URU}as-du-di") = lit "{uru}as-du-di"
  /\ f_xlit (lit "as-du-di") = lit "as-du-di"
  /\ f_xlit (lit "{URU}as-du-di") <> f_xlit (lit "as-du-di").
Proof. repeat split. discriminate. Qed.

(** C6, as the claim states it, fails on U+00DF: its upper case is [SS],
    which normalises to [ss], while U+00DF normalises to itself. *)
Lemma f_xlit_upper_sharp_s :
  ~ (f_xlit (f_xlit [0xDF%N]) = f_xlit [0xDF%N]
     /\ f_xlit [0xDF%N] = f_xlit (upper [0xDF%N])).
Proof. intros [_ H]. discriminate H. Qed.

(** C6 (amended).  [f_xlit] is idempotent on every string, and
    [f_xlit x = f_xlit (upper x)] for every string [x] whose upper case
    lowercases to the lower case of [x], as every ASCII string does
    ([lower_upper_ascii]). *)
Theorem f_xlit_idempotent_case_insensitive (x : str) :
  f_xlit (f_xlit x) = f_xlit x
  /\ (lower (upper x) = lower x -> f_xlit x = f_xlit (upper x)).
Proof.
  split; [apply f_xlit_idempotent|].
  intro H. apply f_xlit_lower. symmetry. exact H.
Qed.

Lemma f_xlit_idempotent_case_insensitive_witness :
  lower (upper (lit "{Uru}As.du(2)")) = lower (lit "{Uru}As.du(2)")
  /\ f_xlit (f_xlit (lit "{Uru}As.du(2)")) = f_xlit (lit "{Uru}As.du(2)")
  /\ f_xlit (lit "{Uru}As.du(2)") = f_xlit (upper (lit "{Uru}As.du(2)")).
Proof.
  split; [reflexivity|].
  destruct (f_xlit_idempotent_case_insensitive (lit "{Uru}As.du(2)"))
    as [H1 H2].
  split; [exact H1|apply H2; reflexivity].
Defined.

(* ------------------------------------------------------------------ *)
(** ** Frame rules of the monad *)
(* ------------------------------------------------------------------ *)

Section Frame.

Variable R : globals -> globals -> Prop.
Hypothesis R_refl : forall g, R g g.
Hypothesis R_trans : forall a b c, R a b -> R b c -> R a c.

Lemma preserves_ret {A} (a : A) : preserves R (ret a).
Proof. intro g. apply R_refl. Qed.

Lemma preserves_raise {A} e : preserves R (@raise A e).
Proof. intro g. apply R_refl. Qed.

Lemma preserves_bind {A B} (m : M A) (k : A -> M B) :
  preserves R m -> (forall a, preserves R (k a)) -> preserves R (bind m k).
Proof.
  intros Hm Hk g. unfold bind. specialize (Hm g).
  destruct (m g) as [[e|a] g']; simpl in *; [exact Hm|].
  eapply R_trans; [exact Hm|apply Hk].
Qed.

Lemma preserves_lift_opt {A} e (o : option A) : preserves R (lift_opt e o).
Proof. destruct o; [apply preserves_ret|apply preserves_raise]. Qed.

Lemma preserves_dict_item {V} (d : dict V) k : preserves R (dict_item d k).
Proof. apply preserves_lift_opt. Qed.

Lemma preserves_get_dictionary : preserves R get_dictionary.
Proof. intro g. apply R_refl. Qed.

Lemma preserves_get_data : preserves R get_data.
Proof. intro g. apply R_refl. Qed.

Lemma preserves_range_ a b c : preserves R (range_ a b c).
Proof.
  unfold range_. destruct (c =? 0);
    [apply preserves_raise|apply preserves_ret].
Qed.

Lemma preserves_for_each {A} (l : list A) body :
  (forall x, preserves R (body x)) -> preserves R (for_each l body).
Proof.
  intro H. induction l as [|x l IH]; simpl.
  - apply preserves_ret.
  - apply preserves_bind; [apply H|intros _; exact IH].
Qed.

Lemma preserves_fold_m {A S} (l : list A) (s : S) body :
  (forall s x, preserves R (body s x)) -> preserves R (fold_m l s body).
Proof.
  intro H. revert s. induction l as [|x l IH]; intro s; simpl.
  - apply preserves_ret.
  - apply preserves_bind; [apply H|intro s'; apply IH].
Qed.

Lemma preserves_map_m {A B} (l : list A) (f : A -> M B) :
  (forall x, preserves R (f x)) -> preserves R (map_m l f).
Proof.
  intro H. induction l as [|x l IH]; simpl.
  - apply preserves_ret.
  - apply preserves_bind; [apply H|intro y].
    apply preserves_bind; [exact IH|intro ys; apply preserves_ret].
Qed.

End Frame.

(** One step of a frame proof: split a sequence, a branch or a loop, or
    close a primitive that does not write. *)
Ltac frame_intro :=
  try assumption;
  repeat match goal with |- forall _, _ => intro end.

Ltac frame_step :=
  match goal with
  | |- preserves _ (bind _ _) => apply preserves_bind; frame_intro
  | |- preserves _ (ret _) => apply preserves_ret; assumption
  | |- preserves _ (raise _) => apply preserves_raise; assumption
  | |- preserves _ (lift_opt _ _) => apply preserves_lift_opt; assumption
  | |- preserves _ (dict_item _ _) => apply preserves_dict_item; assumption
  | |- preserves _ get_dictionary =>
      apply preserves_get_dictionary; assumption
  | |- preserves _ get_data => apply preserves_get_data; assumption
  | |- preserves _ (range_ _ _ _) => apply preserves_range_; assumption
  | |- preserves _ (for_each _ _) => apply preserves_for_each; frame_intro
  | |- preserves _ (fold_m _ _ _) => apply preserves_fold_m; frame_intro
  | |- preserves _ (map_m _ _) => apply preserves_map_m; frame_intro
  | |- preserves _ (if ?b then _ else _) => destruct b
  | |- preserves _ (match ?p with (_, _) => _ end) => destruct p
  end.

Section StoreFrame.

Lemma same_data_refl g : same_data g g.
Proof. reflexivity. Qed.

Lemma same_data_trans a b c : same_data a b -> same_data b c -> same_data a c.
Proof. unfold same_data. congruence. Qed.

Lemma eq_globals_trans (a b c : globals) : a = b -> b = c -> a = c.
Proof. congruence. Qed.

Lemma same_data_print line : preserves same_data (print line).
Proof. intro g. reflexivity. Qed.

Lemma same_data_set_dictionary d : preserves same_data (set_dictionary d).
Proof. intro g. reflexivity. Qed.

(** The clustering pass writes [dictionary] and the output only. *)
Lemma compare_same_data dict_data : preserves same_data (compare dict_data).
Proof.
  pose proof same_data_refl as Hr. pose proof same_data_trans as Ht.
  unfold compare, compare_row, compare_pair. cbv zeta.
  repeat first [frame_step | apply same_data_print
               | apply same_data_set_dictionary].
Qed.

(** The annotator reads the store and writes nothing. *)
Lemma compare_xlits_readonly target suggestions :
  preserves eq (compare_xlits target suggestions).
Proof.
  pose proof (@eq_refl globals) as Hr. pose proof eq_globals_trans as Ht.
  unfold compare_xlits, compare_xlits_inner. cbv zeta.
  repeat frame_step.
Qed.

Lemma get_freq_readonly lemmas show_freqs :
  preserves eq (get_freq lemmas show_freqs).
Proof.
  pose proof (@eq_refl globals) as Hr. pose proof eq_globals_trans as Ht.
  unfold get_freq. repeat frame_step.
Qed.

Lemma preserves_eq_same_data {A} (m : M A) :
  preserves eq m -> preserves same_data m.
Proof. intros H g. rewrite <- (H g). reflexivity. Qed.

(** The reporter leaves the store as it is, too. *)
Lemma print_results_same_data show_freqs :
  preserves same_data (print_results show_freqs).
Proof.
  pose proof same_data_refl as Hr. pose proof same_data_trans as Ht.
  unfold print_results. cbv zeta.
  repeat first [frame_step | apply same_data_print
               | apply preserves_eq_same_data, compare_xlits_readonly
               | apply preserves_eq_same_data, get_freq_readonly].
Qed.

End StoreFrame.

(** C9. The lemma store is not mutated after the load: from any state of
    the globals, the clustering pass [compare] ends (returning or
    raising) with the store [data] as it was, records and keys, having
    written the edge mapping [dictionary] and the output only, and the
    overlap annotator [compare_xlits] ends with all the globals as they
    were. *)
Theorem store_never_mutated (dict_data : dict record) (target : str)
    (suggestions : list str) (g : globals) :
  data (snd (compare dict_data g)) = data g
  /\ snd (compare_xlits target suggestions g) = g.
Proof.
  split.
  - apply (compare_same_data dict_data g).
  - symmetry. apply (compare_xlits_readonly target suggestions g).
Qed.

(* ------------------------------------------------------------------ *)
(** ** The clustering pass on small stores *)
(* ------------------------------------------------------------------ *)

(** Below a hundred keys the step of the progress [range] is zero:
    [compare] prints its first line and raises, before its loops. *)
Lemma compare_small_store (dict_data : dict record) (g : globals) :
  length (dict_keys dict_data) < 100 ->
  compare dict_data g
  = (inl ValueError,
     mk_globals (dictionary g) (data g)
       (stdout g ++ [compare_header (length (dict_keys dict_data))])).
Proof.
  intro H. unfold compare, compare_header. cbv zeta.
  unfold bind at 1. unfold print at 1. cbv beta iota.
  unfold bind at 1. unfold range_.
  rewrite (Nat.div_small _ _ H). reflexivity.
Qed.

(** The reporter prints nothing for an empty edge mapping. *)
Lemma print_results_empty show_freqs store out :
  print_results show_freqs (mk_globals [] store out)
  = (inr tt, mk_globals [] store out).
Proof. reflexivity. Qed.

(** C10. On a non-empty store of fewer than a hundred lemmas [compare]
    raises [ValueError] from the zero step of its progress [range]: it
    has printed its first line and nothing else, and the edge mapping is
    as it was, no pair having been compared.  So [compare] returns only
    on stores of at least a hundred entries. *)
Theorem compare_raises_below_100 (dict_data : dict record) (g : globals) :
  (0 < length (dict_keys dict_data) < 100 ->
   compare dict_data g
   = (inl ValueError,
      mk_globals (dictionary g) (data g)
        (stdout g ++ [compare_header (length (dict_keys dict_data))])))
  /\ (fst (compare dict_data g) = inr tt ->
      100 <= length (dict_keys dict_data)).
Proof.
  split.
  - intros [_ H]. apply compare_small_store, H.
  - intro H. destruct (Nat.lt_ge_cases (length (dict_keys dict_data)) 100)
      as [Hlt|Hge]; [|exact Hge].
    rewrite (compare_small_store dict_data g Hlt) in H. discriminate H.
Qed.

Lemma compare_raises_below_100_witness :
  0 < length (dict_keys [(lit "Aba", (2%Z, [lit "a-ba"]))]) < 100
  /\ compare [(lit "Aba", (2%Z, [lit "a-ba"]))] initial_globals
     = (inl ValueError,
        mk_globals [] [] [lit "1 entries, 1 comparisons"]).
Proof.
  split; [simpl; lia|].
  apply (proj1 (compare_raises_below_100
                  [(lit "Aba", (2%Z, [lit "a-ba"]))] initial_globals)).
  simpl. lia.
Defined.

(** C8 (the code departs from the claim).  On the empty store the
    clustering pass does not complete: [compare] prints its first line
    and raises [ValueError], the step [int(0/100)] of its progress
    [range] being zero, and the script run on an empty input file ends
    with that exception before the reporter is called.  The edge mapping
    is empty and no result line is printed. *)
Theorem compare_empty_store_raises :
  compare [] initial_globals
  = (inl ValueError, mk_globals [] [] [lit "0 entries, 1 comparisons"])
  /\ main [] initial_globals
     = (inl ValueError,
        mk_globals [] []
          [lit "reading file places_with_translit.txt...";
           lit "0 entries, 1 comparisons"]).
Proof. split; reflexivity. Qed.

(** C1 (the code departs from the claim).  On the store of the two
    lemmas [Babil] and [Babilu], which meet the edge criterion, [compare]
    raises [ValueError] before its loops, as on every store of fewer than
    a hundred lemmas: no candidate list is built, and [Babilu] is not a
    candidate of [Babil]. *)
Theorem compare_Babil_Babilu_raises :
  let store := [(lit "Babil", (8%Z, [lit "ba-bil"]));
                (lit "Babilu", (8%Z, [lit "ba-bi-lu"]))] in
  edge_criterion (lit "Babil") (lit "Babilu")
  /\ fst (compare store initial_globals) = inl ValueError
  /\ ~ In (lit "Babilu")
          (candidates (dictionary (snd (compare store initial_globals)))
                      (lit "Babil")).
Proof.
  cbv zeta. split; [|split].
  - unfold edge_criterion. vm_compute. split; repeat constructor.
  - reflexivity.
  - vm_compute. tauto.
Qed.

(* ------------------------------------------------------------------ *)
(** ** Dictionaries *)
(* ------------------------------------------------------------------ *)

Section Dict.

Context {V : Type}.

Lemma str_eqb_sym a b : str_eqb a b = str_eqb b a.
Proof.
  destruct (str_eqb a b) eqn:E.
  - apply str_eqb_eq in E. subst. symmetry. apply str_eqb_refl.
  - destruct (str_eqb b a) eqn:E'; [|reflexivity].
    apply str_eqb_eq in E'. subst. rewrite str_eqb_refl in E. discriminate.
Qed.

Lemma str_eqb_neq a b : str_eqb a b = false <-> a <> b.
Proof.
  split.
  - intros E ->. rewrite str_eqb_refl in E. discriminate.
  - intro H. destruct (str_eqb a b) eqn:E; [|reflexivity].
    apply str_eqb_eq in E. contradiction.
Qed.

Lemma str_in_In x l : str_in x l = true <-> In x l.
Proof.
  unfold str_in. rewrite existsb_exists. split.
  - intros [y [Hy E]]. apply str_eqb_eq in E. now subst.
  - intro H. exists x. split; [exact H|apply str_eqb_refl].
Qed.

Lemma dict_mem_false (d : dict V) k :
  dict_mem k d = false -> dict_get d k = None.
Proof.
  unfold dict_mem, str_in, dict_keys.
  induction d as [|[k' v] d IH]; simpl; [reflexivity|].
  rewrite (str_eqb_sym k k'). destruct (str_eqb k' k); simpl;
    [discriminate|exact IH].
Qed.

Lemma dict_mem_true (d : dict V) k :
  dict_mem k d = true -> exists v, dict_get d k = Some v.
Proof.
  unfold dict_mem, str_in, dict_keys.
  induction d as [|[k' v] d IH]; simpl; [discriminate|].
  rewrite (str_eqb_sym k k'). destruct (str_eqb k' k); simpl;
    [eauto|exact IH].
Qed.

Lemma dict_get_set_same (d : dict V) k v :
  dict_get (dict_set d k v) k = Some v.
Proof.
  induction d as [|[k' v'] d IH]; simpl.
  - rewrite str_eqb_refl. reflexivity.
  - destruct (str_eqb k' k) eqn:E; simpl; rewrite E; [reflexivity|exact IH].
Qed.

Lemma dict_get_set_other (d : dict V) k v k' :
  k <> k' -> dict_get (dict_set d k v) k' = dict_get d k'.
Proof.
  intro H. induction d as [|[k0 v0] d IH]; simpl.
  - apply str_eqb_neq in H. rewrite H. reflexivity.
  - destruct (str_eqb k0 k) eqn:E; simpl.
    + apply str_eqb_eq in E. subst k0.
      apply str_eqb_neq in H. rewrite H. reflexivity.
    + rewrite IH. reflexivity.
Qed.

(** Assignment keeps the keys distinct. *)
Lemma dict_set_keys (d : dict V) k v :
  dict_keys (dict_set d k v)
  = if str_in k (dict_keys d) then dict_keys d else dict_keys d ++ [k].
Proof.
  unfold dict_keys, str_in. induction d as [|[k' v'] d IH]; simpl;
    [reflexivity|].
  rewrite (str_eqb_sym k k'). destruct (str_eqb k' k) eqn:E; simpl;
    [reflexivity|].
  rewrite IH. destruct (existsb (str_eqb k) (map fst d)); reflexivity.
Qed.

Lemma dict_set_NoDup (d : dict V) k v :
  NoDup (dict_keys d) -> NoDup (dict_keys (dict_set d k v)).
Proof.
  intro H. rewrite dict_set_keys.
  destruct (str_in k (dict_keys d)) eqn:E; [exact H|].
  apply NoDup_app; [exact H|repeat constructor; simpl; tauto|].
  intros x Hx [<-|[]]. apply str_in_In in Hx. congruence.
Qed.

End Dict.

(* ------------------------------------------------------------------ *)
(** ** The loops of the clustering pass *)
(* ------------------------------------------------------------------ *)

Section Clustering.

Lemma candidates_add_edge d w1 w2 w :
  candidates (add_edge d w1 w2) w
  = candidates d w ++ (if str_eqb w1 w then [w2] else []).
Proof.
  unfold candidates, add_edge. destruct (str_eqb w1 w) eqn:E.
  - apply str_eqb_eq in E. subst w.
    destruct (dict_get d w1); rewrite dict_get_set_same; reflexivity.
  - apply str_eqb_neq in E.
    destruct (dict_get d w1); rewrite (dict_get_set_other _ _ E);
      rewrite app_nil_r; reflexivity.
Qed.

(** One pair: the edge is recorded exactly when the pair passes the
    test; nothing is raised. *)
Lemma compare_pair_run w1 w2 g :
  compare_pair w1 w2 g
  = (inr tt,
     mk_globals
       (if is_candidate w1 w2 then add_edge (dictionary g) w1 w2
        else dictionary g)
       (data g) (stdout g)).
Proof.
  unfold compare_pair, is_candidate, add_edge. cbv zeta.
  destruct (3 <? _); [destruct g; reflexivity|].
  destruct (score_strings w1 w2 <=? _); [|destruct g; reflexivity].
  unfold bind at 1, get_dictionary.
  destruct (dict_mem w1 (dictionary g)) eqn:E; simpl.
  - destruct (dict_mem_true _ _ E) as [v Hv].
    unfold bind, dict_item. rewrite Hv. reflexivity.
  - rewrite (dict_mem_false _ _ E). reflexivity.
Qed.

Lemma compare_pairs_run w1 ws :
  forall g, exists d',
    for_each ws (compare_pair w1) g
    = (inr tt, mk_globals d' (data g) (stdout g))
    /\ forall w, candidates d' w
                 = candidates (dictionary g) w
                   ++ (if str_eqb w1 w then filter (is_candidate w1) ws
                       else []).
Proof.
  induction ws as [|w2 ws IH]; intro g.
  - exists (dictionary g). split; [destruct g; reflexivity|].
    intro w. destruct (str_eqb w1 w); rewrite app_nil_r; reflexivity.
  - simpl for_each. unfold bind. rewrite compare_pair_run.
    match goal with
    | |- context [for_each ws _ ?g1] => destruct (IH g1) as [d' [Hrun Hc]]
    end.
    exists d'. split; [exact Hrun|].
    intro w. rewrite Hc. simpl dictionary. simpl filter.
    destruct (is_candidate w1 w2).
    + rewrite candidates_add_edge, <- app_assoc.
      destruct (str_eqb w1 w); reflexivity.
    + reflexivity.
Qed.

(** One row: the edges of [w1] are appended to its candidate list. *)
Lemma compare_row_run keys m w1 g :
  In w1 keys ->
  exists d' out,
    compare_row keys m w1 g = (inr tt, mk_globals d' (data g) out)
    /\ forall w, candidates d' w
                 = candidates (dictionary g) w
                   ++ (if str_eqb w1 w then edges_of keys w1 else []).
Proof.
  intro Hin. unfold compare_row, edges_of.
  assert (Hi : exists i, index keys w1 = Some i).
  { clear -Hin. induction keys as [|y keys IH]; [contradiction|]. simpl.
    destruct (str_eqb y w1) eqn:E; [eauto|].
    apply str_eqb_neq in E. destruct Hin as [->|Hin]; [congruence|].
    destruct (IH Hin) as [i ->]. simpl. eauto. }
  destruct Hi as [i Hi]. rewrite Hi. unfold bind at 1. simpl lift_opt.
  unfold ret at 1. cbv beta iota. unfold bind at 1.
  set (pr := if range_contains i m then _ else _).
  assert (Hp : exists out, pr g = (inr tt, mk_globals (dictionary g) (data g) out)).
  { subst pr. destruct (range_contains i m).
    - eexists. reflexivity.
    - exists (stdout g). destruct g. reflexivity. }
  destruct Hp as [out Hp]. rewrite Hp.
  destruct (compare_pairs_run w1 (skipn (i + 1) keys)
              (mk_globals (dictionary g) (data g) out)) as [d' [Hrun Hc]].
  exists d', out. split; [exact Hrun|exact Hc].
Qed.

Lemma compare_rows_run keys m ws :
  (forall w, In w ws -> In w keys) ->
  forall g, exists d' out,
    for_each ws (compare_row keys m) g
    = (inr tt, mk_globals d' (data g) out)
    /\ forall w, candidates d' w
                 = candidates (dictionary g) w
                   ++ flat_map (fun w1 => if str_eqb w1 w
                                          then edges_of keys w1 else [])
                               ws.
Proof.
  induction ws as [|w1 ws IH]; intros Hsub g.
  - exists (dictionary g), (stdout g). split; [destruct g; reflexivity|].
    intro w. simpl. rewrite app_nil_r. reflexivity.
  - simpl for_each. unfold bind.
    destruct (@compare_row_run keys m w1 g (Hsub w1 (or_introl eq_refl)))
      as [d1 [out1 [Hrow Hc1]]].
    rewrite Hrow.
    destruct (IH (fun w H => Hsub w (or_intror H))
                 (mk_globals d1 (data g) out1)) as [d' [out [Hrun Hc]]].
    exists d', out. split; [exact Hrun|].
    intro w. rewrite Hc. simpl dictionary. rewrite Hc1.
    simpl flat_map. rewrite <- app_assoc. reflexivity.
Qed.

Lemma flat_map_single {A} (F : str -> list A) l w :
  NoDup l -> In w l ->
  flat_map (fun w1 => if str_eqb w1 w then F w1 else []) l = F w.
Proof.
  induction 1 as [|y l Hy Hnd IH]; [contradiction|].
  intros [->|Hin]; simpl.
  - rewrite str_eqb_refl.
    rewrite <- (app_nil_r (F w)) at 2. f_equal.
    clear IH Hnd. induction l as [|z l IHl]; [reflexivity|]. simpl.
    destruct (str_eqb z w) eqn:E.
    + apply str_eqb_eq in E. subst. exfalso. apply Hy. now left.
    + apply IHl. intro H. apply Hy. now right.
  - destruct (str_eqb y w) eqn:E.
    + apply str_eqb_eq in E. subst. contradiction.
    + simpl. apply IH, Hin.
Qed.

Lemma index_nth_error l i w :
  NoDup l -> nth_error l i = Some w -> index l w = Some i.
Proof.
  intro H. revert i. induction H as [|y l Hy _ IH]; intros [|i]; simpl;
    try discriminate.
  - intros [= ->]. rewrite str_eqb_refl. reflexivity.
  - intro Hn. destruct (str_eqb y w) eqn:E.
    + apply str_eqb_eq in E. subst. exfalso. apply Hy.
      eapply nth_error_In, Hn.
    + rewrite (IH _ Hn). reflexivity.
Qed.

Lemma is_candidate_criterion w1 w2 :
  is_candidate w1 w2 = true <-> edge_criterion w1 w2.
Proof.
  unfold is_candidate, edge_criterion, sorted. cbv zeta. simpl fold_right.
  destruct (Nat.leb_spec (length w1) (length w2)); simpl nth;
    destruct (Nat.ltb_spec 3 (length w2 - length w1));
    destruct (Nat.ltb_spec 3 (length w1 - length w2));
    rewrite ?Nat.leb_le; split; intros; try discriminate; try lia;
    try tauto.
Qed.

(** On a store of at least a hundred distinct keys [compare] returns,
    and the candidate list of every key holds exactly the later keys
    that meet the edge criterion. *)
Lemma compare_edges (dict_data : dict record) (g : globals) :
  NoDup (dict_keys dict_data) ->
  100 <= length (dict_keys dict_data) ->
  dictionary g = [] ->
  exists g',
    compare dict_data g = (inr tt, g')
    /\ data g' = data g
    /\ forall i j w1 w2,
         nth_error (dict_keys dict_data) i = Some w1 ->
         nth_error (dict_keys dict_data) j = Some w2 ->
         i < j ->
         (In w2 (candidates (dictionary g') w1) <-> edge_criterion w1 w2).
Proof.
  intros Hnd Hlen Hempty. unfold compare. cbv zeta.
  set (keys := dict_keys dict_data) in *.
  unfold bind at 1. unfold print at 1. cbv beta iota.
  unfold bind at 1. unfold range_.
  assert (Hstep : length keys / 100 <> 0).
  { intro H0. apply Nat.div_small_iff in H0; lia. }
  apply Nat.eqb_neq in Hstep. rewrite Hstep. unfold ret at 1.
  cbv beta iota.
  match goal with
  | |- context [for_each keys ?body ?g1] =>
      destruct (@compare_rows_run keys
                  {| start := 0; stop := length keys;
                     step := length keys / 100 |}
                  keys (fun w H => H) g1) as [d' [out [Hrun Hc]]]
  end.
  eexists. split; [exact Hrun|]. split; [reflexivity|].
  intros i j w1 w2 Hi Hj Hij. simpl dictionary.
  rewrite Hc. simpl dictionary. rewrite Hempty.
  change (candidates [] w1) with (@nil str). simpl app.
  rewrite (@flat_map_single _ (edges_of keys) keys w1 Hnd
             (nth_error_In _ _ Hi)).
  unfold edges_of. rewrite (@index_nth_error keys i w1 Hnd Hi).
  rewrite filter_In, is_candidate_criterion.
  split; [tauto|]. intro Hcrit. split; [|exact Hcrit].
  assert (Hsplit : nth_error (skipn (i + 1) keys) (j - (i + 1)) = Some w2).
  { rewrite nth_error_skipn. replace (i + 1 + (j - (i + 1))) with j by lia.
    exact Hj. }
  eapply nth_error_In, Hsplit.
Qed.

End Clustering.

Lemma nodupb_NoDup l : nodupb l = true -> NoDup l.
Proof.
  induction l as [|x r IH]; simpl; [constructor|].
  intro H. apply andb_prop in H. destruct H as [H1 H2].
  constructor; [|apply IH, H2].
  intro Hin. apply str_in_In in Hin. rewrite Hin in H1. discriminate.
Qed.

(** The hypotheses of [compare_edges] are met by [store_100], on which
    the edge from [Babil] to [Babilu] is recorded. *)
Example compare_store_100 :
  exists g',
    compare store_100 initial_globals = (inr tt, g')
    /\ In (lit "Babilu") (candidates (dictionary g') (lit "Babil")).
Proof.
  destruct (@compare_edges store_100 initial_globals) as [g' [Hrun [_ He]]].
  - apply nodupb_NoDup. vm_compute. reflexivity.
  - vm_compute. repeat constructor.
  - reflexivity.
  - exists g'. split; [exact Hrun|].
    apply (He 0 1 (lit "Babil") (lit "Babilu")); try reflexivity.
    + repeat constructor.
    + apply is_candidate_criterion. reflexivity.
Qed.

(** The loop of [count_comparisons] stops by its own test: fuel beyond
    [d - i] is not used. *)
Lemma count_comparisons_fuel fuel d :
  forall i j,
    d - i <= fuel ->
    count_comparisons_loop fuel d i j
    = count_comparisons_loop (d - i) d i j.
Proof.
  induction fuel as [|fuel IH]; intros i j H.
  - replace (d - i) with 0 by lia. reflexivity.
  - simpl. destruct (Nat.ltb_spec i d) as [Hlt|Hge].
    + rewrite IH by lia.
      replace (d - i) with (S (d - (i + 1))) by lia. simpl.
      apply Nat.ltb_lt in Hlt. rewrite Hlt. reflexivity.
    + replace (d - i) with 0 by lia. reflexivity.
Qed.

(* ------------------------------------------------------------------ *)
(** ** The overlap annotator *)
(* ------------------------------------------------------------------ *)

Section Annotator.

Lemma dict_set_same_value {V} (d : dict V) k v :
  dict_get d k = Some v -> dict_set d k v = d.
Proof.
  induction d as [|[k' v'] d IH]; simpl; [discriminate|].
  destruct (str_eqb k' k) eqn:E.
  - intros [= ->]. reflexivity.
  - intro H. rewrite (IH H). reflexivity.
Qed.

Lemma dict_set_set {V} (d : dict V) k v1 v2 :
  dict_set (dict_set d k v1) k v2 = dict_set d k v2.
Proof.
  induction d as [|[k' v'] d IH]; simpl.
  - rewrite str_eqb_refl. reflexivity.
  - destruct (str_eqb k' k) eqn:E; simpl; rewrite E; [reflexivity|].
    rewrite IH. reflexivity.
Qed.

Lemma dict_set_new {V} (d : dict V) k v :
  dict_get d k = None -> dict_set d k v = d ++ [(k, v)].
Proof.
  induction d as [|[k' v'] d IH]; simpl; [reflexivity|].
  destruct (str_eqb k' k); [discriminate|].
  intro H. rewrite (IH H). reflexivity.
Qed.

Lemma stars_snoc n : stars n ++ lit "*" = stars (S n).
Proof.
  unfold stars. induction n as [|n IH]; [reflexivity|].
  simpl. rewrite IH. reflexivity.
Qed.

(** The inner loop, run on at least one target spelling, leaves under [s]
    the label it found there extended by one asterisk per match. *)
Lemma compare_xlits_inner_run s s_xlits t_xlits :
  t_xlits <> [] ->
  forall s_dict g,
    compare_xlits_inner s s_xlits t_xlits s_dict g
    = (inr (dict_set s_dict s
              (label s_dict s
               ++ stars (length
                    (filter (fun t => str_in (f_xlit t)
                                        (map f_xlit s_xlits))
                            t_xlits)))),
       g).
Proof.
  unfold compare_xlits_inner.
  set (body := fun (s_dict : dict str) (t : str) => _).
  assert (Hstep : forall t s_dict g,
             body s_dict t g
             = (inr (dict_set s_dict s
                       (label s_dict s
                        ++ stars (if str_in (f_xlit t) (map f_xlit s_xlits)
                                  then 1 else 0))), g)).
  { intros t s_dict g. subst body. cbv beta. unfold label.
    destruct (str_in (f_xlit t) (map f_xlit s_xlits));
      destruct (dict_mem s s_dict) eqn:E; simpl.
    - destruct (dict_mem_true _ _ E) as [v Hv].
      unfold bind, dict_item. rewrite Hv. reflexivity.
    - rewrite (dict_mem_false _ _ E). reflexivity.
    - destruct (dict_mem_true _ _ E) as [v Hv]. rewrite Hv, app_nil_r.
      rewrite (dict_set_same_value _ _ Hv). reflexivity.
    - rewrite (dict_mem_false _ _ E). reflexivity. }
  induction t_xlits as [|t ts IH]; intro Hne; [contradiction|].
  intros s_dict g. simpl fold_m. unfold bind. rewrite Hstep.
  destruct ts as [|t' ts].
  - simpl. destruct (str_in (f_xlit t) (map f_xlit s_xlits)); reflexivity.
  - rewrite IH by discriminate. f_equal. f_equal.
    rewrite dict_set_set. f_equal. unfold label at 1.
    rewrite dict_get_set_same, <- app_assoc. f_equal.
    simpl filter at 2.
    destruct (str_in (f_xlit t) (map f_xlit s_xlits)); simpl stars at 1.
    + simpl length. change (0x2A%N :: stars ?n) with (stars (S n)).
      unfold stars. simpl. reflexivity.
    + reflexivity.
Qed.

(** The loop over the suggestions builds one label per suggestion, in
    order, when the suggestions are distinct lemmas of the store. *)
Lemma compare_xlits_outer_run (g : globals) t_xlits rest :
  t_xlits <> [] ->
  forall done,
    NoDup (done ++ rest) ->
    (forall s, In s rest -> dict_get (data g) s <> None) ->
    fold_m rest
      (map (fun s => (s, stars (star_count (data g) t_xlits s))) done)
      (fun s_dict s =>
         bind get_data (fun d =>
         bind (dict_item d s) (fun s_rec =>
         compare_xlits_inner s (snd s_rec) t_xlits s_dict))) g
    = (inr (map (fun s => (s, stars (star_count (data g) t_xlits s)))
                (done ++ rest)), g).
Proof.
  intro Hne. induction rest as [|s rest IH]; intros done Hnd Hin.
  - rewrite app_nil_r. reflexivity.
  - simpl fold_m. unfold bind at 1. unfold bind at 1. unfold get_data.
    cbv beta iota. unfold bind at 1. unfold dict_item.
    destruct (dict_get (data g) s) as [s_rec|] eqn:Hs;
      [|exfalso; apply (Hin s (or_introl eq_refl)); exact Hs].
    simpl lift_opt. unfold ret at 1. cbv beta iota.
    rewrite compare_xlits_inner_run by exact Hne.
    set (F := fun s0 => (s0, stars (star_count (data g) t_xlits s0))).
    assert (Hnone : dict_get (map F done) s = None).
    { apply NoDup_remove_2 in Hnd.
      assert (Hd : ~ In s done) by (intro H; apply Hnd, in_or_app; now left).
      clear -Hd. induction done as [|y done IHd]; [reflexivity|]. simpl.
      destruct (str_eqb y s) eqn:E.
      - apply str_eqb_eq in E. subst. exfalso. apply Hd. now left.
      - apply IHd. intro H. apply Hd. now right. }
    unfold label. rewrite Hnone. simpl app.
    rewrite (dict_set_new _ _ _ Hnone).
    specialize (IH (done ++ [s])).
    rewrite <- app_assoc in IH. simpl app in IH.
    rewrite map_app in IH. simpl map in IH.
    assert (Hc : length (filter (fun t => str_in (f_xlit t)
                                          (map f_xlit (snd s_rec)))
                                t_xlits)
                 = star_count (data g) t_xlits s)
      by (unfold star_count, spellings; rewrite Hs; reflexivity).
    rewrite Hc.
    exact (IH Hnd (fun s0 H0 => Hin s0 (or_intror H0))).
Qed.

Lemma bind_run {A B} (m : M A) (k : A -> M B) g a g' :
  m g = (inr a, g') -> bind m k g = k a g'.
Proof. intro H. unfold bind. rewrite H. reflexivity. Qed.

Lemma map_m_cons_run {A B} (f : A -> M B) x r g y ys :
  f x g = (inr y, g) -> map_m r f g = (inr ys, g) ->
  map_m (x :: r) f g = (inr (y :: ys), g).
Proof.
  intros H1 H2. simpl. unfold bind. rewrite H1, H2. reflexivity.
Qed.

Lemma labels_run_items (s_dict : dict str) (g : globals) l :
  (forall kv, In kv l -> dict_get s_dict (fst kv) = Some (snd kv)) ->
  map_m (map fst l)
        (fun x => bind (dict_item s_dict x) (fun v => ret (x ++ v))) g
  = (inr (map (fun kv => fst kv ++ snd kv) l), g).
Proof.
  intro Hall. induction l as [|kv l IH]; [reflexivity|].
  simpl map. apply map_m_cons_run.
  - unfold bind, dict_item. rewrite (Hall kv (or_introl eq_refl)).
    reflexivity.
  - apply IH. intros kv' H'. apply Hall. now right.
Qed.

Lemma labels_run (s_dict : dict str) (g : globals) :
  NoDup (dict_keys s_dict) ->
  map_m (dict_keys s_dict)
        (fun x => bind (dict_item s_dict x) (fun v => ret (x ++ v))) g
  = (inr (map (fun kv => fst kv ++ snd kv) s_dict), g).
Proof.
  intro Hnd. apply labels_run_items.
  clear g. induction s_dict as [|[k v] d IH]; [contradiction|].
  simpl in Hnd. inversion Hnd as [|? ? Hk Hd]. subst.
  intros kv [<-|Hin]; simpl.
  - rewrite str_eqb_refl. reflexivity.
  - destruct (str_eqb k (fst kv)) eqn:E.
    + apply str_eqb_eq in E. exfalso. apply Hk. rewrite E.
      apply in_map, Hin.
    + apply IH; assumption.
Qed.

(** The annotator on a target that has spellings: every suggestion is
    labelled, with as many asterisks as target spellings match one of its
    own, none included. *)
Lemma compare_xlits_labels (g : globals) target freq t_xlits suggestions :
  dict_get (data g) target = Some (freq, t_xlits) ->
  t_xlits <> [] ->
  NoDup suggestions ->
  (forall s, In s suggestions -> dict_get (data g) s <> None) ->
  compare_xlits target suggestions g
  = (inr (map (fun s => s ++ stars (star_count (data g) t_xlits s))
              suggestions), g).
Proof.
  intros Ht Hne Hnd Hin. unfold compare_xlits.
  erewrite bind_run by reflexivity.
  erewrite bind_run by (unfold dict_item; rewrite Ht; reflexivity).
  cbv zeta. simpl snd.
  erewrite bind_run
    by exact (@compare_xlits_outer_run g t_xlits suggestions Hne [] Hnd Hin).
  simpl app. rewrite labels_run.
  - rewrite map_map. reflexivity.
  - unfold dict_keys. rewrite map_map. simpl. rewrite map_id. exact Hnd.
Qed.

End Annotator.

(** C7 (the code departs from the claim).  A suggestion is entered in
    [s_dict] inside the loop over the target's spellings, so for a target
    without spellings, as every lemma of a store loaded in the plain list
    format is, no suggestion is entered: on the store of the lemmas [Aba]
    and [Aia] read from a plain list, [compare_xlits] returns the empty
    list for the target [Aba] and the suggestion [Aia], and the reporter
    prints the line of [Aba] without a candidate. *)
Theorem compare_xlits_drops_candidates :
  let contents := lit "Aba" ++ [0x0A%N] ++ lit "Aia" ++ [0x0A%N] in
  let store := [(lit "Aba", (0%Z, [])); (lit "Aia", (0%Z, []))] in
  fst (read_file (lit "lemmas.txt") contents (lit "list") initial_globals)
  = inr store
  /\ compare_xlits (lit "Aba") [lit "Aia"] (mk_globals [] store [])
     = (inr [], mk_globals [] store [])
  /\ print_results true (mk_globals [(lit "Aba", [lit "Aia"])] store [])
     = (inr tt,
        mk_globals [(lit "Aba", [lit "Aia"])] store
          [lit "Aba (0)" ++ tab ++ tab ++ tab]).
Proof. cbv zeta. repeat split. Qed.

(* ------------------------------------------------------------------ *)
(** ** The loader *)
(* ------------------------------------------------------------------ *)

Section Loader.

(** Substituting nothing for a class of characters filters them out. *)
Lemma re_sub_class (cs : list char) (s : str) :
  re_sub (map (fun c => [c]) cs) [] s
  = filter (fun c => negb (existsb (N.eqb c) cs)) s.
Proof.
  unfold re_sub. induction s as [|c t IH]; [reflexivity|]. simpl.
  assert (H : first_match (map (fun c0 => [c0]) cs) (c :: t)
              = if existsb (N.eqb c) cs then Some 0 else None).
  { clear IH. induction cs as [|x cs IHc]; [reflexivity|]. simpl.
    unfold startswith. simpl firstn. rewrite (N.eqb_sym c x).
    destruct (N.eqb_spec x c) as [->|Hn].
    - rewrite str_eqb_refl. reflexivity.
    - replace (str_eqb [c] [x]) with false
        by (symmetry; apply str_eqb_neq; congruence).
      exact IHc. }
  rewrite H. destruct (existsb (N.eqb c) cs); simpl; rewrite IH;
    reflexivity.
Qed.

Lemma digit_cases (d : char) :
  is_digit d = true ->
  In d [0x30; 0x31; 0x32; 0x33; 0x34; 0x35; 0x36; 0x37; 0x38; 0x39]%N.
Proof.
  unfold is_digit, between. intro H. apply andb_prop in H.
  destruct H as [H1 H2]. apply N.leb_le in H1, H2.
  change [0x30; 0x31; 0x32; 0x33; 0x34; 0x35; 0x36; 0x37; 0x38; 0x39]%N
    with (map N.of_nat (seq 48 10)).
  rewrite <- (N2Nat.id d). apply in_map, in_seq. lia.
Qed.

Lemma key_char_class (c : char) :
  negb (existsb (N.eqb c)
          [0x30; 0x31; 0x32; 0x33; 0x34; 0x35; 0x36; 0x37;
           0x38; 0x39; 0x20]%N)
  = key_char c.
Proof.
  unfold key_char. destruct (is_digit c) eqn:D.
  - apply digit_cases in D. simpl in D.
    repeat destruct D as [<-|D]; try reflexivity. contradiction.
  - simpl. unfold is_digit, between in D.
    repeat match goal with
    | |- context [(c =? ?k)%N] => destruct (N.eqb_spec c k) as [->|?]
    end; try reflexivity; try discriminate D.
Qed.

Lemma re_sub_digits_and_space (s : str) :
  re_sub digits_and_space [] s = filter key_char s.
Proof.
  unfold digits_and_space. rewrite re_sub_class.
  apply filter_ext. intro c. apply key_char_class.
Qed.

Lemma int_digit (d : char) : is_digit d = true -> int_ [d] = Some (digit_val d).
Proof.
  intro D. apply digit_cases in D. simpl in D.
  repeat destruct D as [<-|D]; try reflexivity. contradiction.
Qed.

Lemma drop_to_newline_none (s : str) : ~ In 0x0A%N s -> drop_to_newline s = [].
Proof.
  induction s as [|c t IH]; [reflexivity|]. simpl. intro H.
  destruct (N.eqb_spec c 0x0A) as [->|_]; [exfalso; apply H; now left|].
  apply IH. tauto.
Qed.

Lemma split_from_other (c : char) (t : str) :
  c <> 0x09%N ->
  split_from tab 0 (c :: t)
  = (c :: fst (split_from tab 0 t), snd (split_from tab 0 t)).
Proof.
  intro H. simpl. unfold startswith. simpl.
  destruct (split_from tab 0 t).
  match goal with
  | |- context [str_eqb ?a tab] => destruct (str_eqb a tab) eqn:E
  end; [|reflexivity].
  apply str_eqb_eq in E. unfold tab in E. congruence.
Qed.

Lemma split_from_tab (t : str) :
  split_from tab 0 (0x09%N :: t)
  = ([], fst (split_from tab 0 t) :: snd (split_from tab 0 t)).
Proof.
  simpl. unfold startswith. simpl.
  destruct (split_from tab 0 t). reflexivity.
Qed.

(** A field without a tab is cut off at the tab that follows it. *)
Lemma split_from_field (f rest : str) :
  ~ In 0x09%N f ->
  split_from tab 0 (f ++ tab ++ rest)
  = (f, fst (split_from tab 0 rest) :: snd (split_from tab 0 rest)).
Proof.
  induction f as [|c f IH]; intro H.
  - apply split_from_tab.
  - simpl app. rewrite split_from_other by (intros ->; apply H; now left).
    change (f ++ 0x09%N :: rest) with (f ++ tab ++ rest).
    rewrite IH by (intro Hin; apply H; now right). reflexivity.
Qed.

Lemma split_from_last (f : str) :
  ~ In 0x09%N f -> split_from tab 0 f = (f, []).
Proof.
  induction f as [|c f IH]; intro H; [reflexivity|].
  rewrite split_from_other by (intros ->; apply H; now left).
  rewrite IH by (intro Hin; apply H; now right). reflexivity.
Qed.

Lemma split_two_fields (f0 f1 tail : str) :
  ~ In 0x09%N f0 -> ~ In 0x09%N f1 ->
  tail = [] \/ (exists t, tail = tab ++ t) ->
  exists more, split tab (f0 ++ tab ++ f1 ++ tail) = f0 :: f1 :: more.
Proof.
  intros H0 H1 Ht. unfold split. rewrite split_from_field by exact H0.
  destruct Ht as [->|[t ->]].
  - rewrite app_nil_r, split_from_last by exact H1. simpl. eauto.
  - rewrite split_from_field by exact H1. simpl. eauto.
Qed.

Lemma lstrip_In (s : str) c : In c (lstrip s) -> In c s.
Proof.
  induction s as [|x s IH]; simpl; [tauto|].
  destruct (isspace x); [intro H; right; apply IH, H|tauto].
Qed.

Lemma strip_In (s : str) c : In c (strip s) -> In c s.
Proof.
  unfold strip, rstrip. intro H. apply in_rev in H.
  apply lstrip_In in H. apply in_rev in H. apply lstrip_In, H.
Qed.

(** No line of [splitlines] holds a line feed. *)
Lemma splitlines_from_no_linefeed (s : str) :
  forall after_cr l,
    In l (splitlines_from after_cr s) -> ~ In 0x0A%N l.
Proof.
  induction s as [|c t IH]; intros after_cr l; simpl; [tauto|].
  destruct ((c =? 0x0A)%N && after_cr); [apply IH|].
  destruct (c =? 0x0D)%N.
  { intros [<-|H]; [simpl; tauto|eapply IH, H]. }
  destruct (is_linebreak c) eqn:Hb.
  { intros [<-|H]; [simpl; tauto|eapply IH, H]. }
  assert (Hc : c <> 0x0A%N) by (intros ->; discriminate Hb).
  specialize (IH false).
  destruct (splitlines_from false t) as [|l0 r]; simpl.
  - intros [<-|[]]. simpl. intuition congruence.
  - intros [<-|H].
    + simpl. intros [E|H0]; [congruence|].
      exact (IH l0 (or_introl eq_refl) H0).
    + apply IH. now right.
Qed.

Lemma splitlines_no_linefeed (s l : str) :
  In l (splitlines s) -> ~ In 0x0A%N (strip l).
Proof.
  intros H Hin. apply strip_In in Hin.
  exact (splitlines_from_no_linefeed _ _ _ H Hin).
Qed.

End Loader.

(** The frequency that the loader stores is the first digit of the line:
    the lazy quantifier of the pattern stops after one digit. *)
Example read_file_freq_first_digit :
  fst (read_file_freq_line
         (lit "     11 Asdudu" ++ tab ++ lit "[{URU}as-du-di, {KUR}as-du-di]")
         initial_globals)
  = inr (lit "Asdudu", (1%Z, [lit "{URU}as-du-di"; lit "{KUR}as-du-di"])).
Proof. reflexivity. Qed.

(** C2, as the claim states it, fails on a line of three tab-separated
    fields: the loader takes the spellings from the second field, not
    from the third. *)
Lemma read_file_third_field :
  ~ load_follows_spec
      (lit "7 Asdudu" ++ tab ++ lit "[x]" ++ tab ++ lit "[as-du-di, as-du-du]").
Proof.
  intro H.
  specialize (H (lit "Asdudu", (7%Z, [lit "as-du-di"; lit "as-du-du"]))
                eq_refl).
  discriminate H.
Qed.

(** C2 (amended).  For every line of the input whose stripped text is a
    field [f0] that starts with an ASCII digit, a tab, a field [f1], and
    then nothing or a tab and more text, the loader returns a record
    whose key is [f0] without its ASCII digits and spaces and whose
    spellings are [f1] without its first and last characters, split on
    [", "]. *)
Theorem read_file_freq_line_record (contents l f0 f1 tail : str)
    (d : char) (r : str) (g : globals) :
  In l (splitlines contents) ->
  strip l = f0 ++ tab ++ f1 ++ tail ->
  f0 = d :: r -> is_digit d = true ->
  ~ In 0x09%N f0 -> ~ In 0x09%N f1 ->
  tail = [] \/ (exists t, tail = tab ++ t) ->
  exists freq,
    read_file_freq_line l g
    = (inr (filter key_char f0, (freq, split (lit ", ") (slice_1_m1 f1))),
       g).
Proof.
  intros Hline Hl Hf0 Hd H0 H1 Ht.
  pose proof (splitlines_no_linefeed _ _ Hline) as Hnl.
  unfold read_file_freq_line. cbv zeta.
  destruct (@split_two_fields f0 f1 tail H0 H1 Ht) as [more Hsplit].
  rewrite <- Hl in Hsplit. rewrite Hsplit.
  assert (Hint : int_ (re_sub_first_digit (strip l)) = Some (digit_val d)).
  { rewrite Hl in Hnl |- *. subst f0.
    change ((d :: r) ++ tab ++ f1 ++ tail)
      with (d :: (r ++ tab ++ f1 ++ tail)) in Hnl |- *.
    destruct (r ++ tab ++ f1 ++ tail) as [|c rest] eqn:E.
    - exfalso. destruct r; discriminate E.
    - rewrite ?E in Hnl. simpl re_sub_first_digit. rewrite Hd.
      destruct (N.eqb_spec c 0x0A) as [->|_].
      + exfalso. apply Hnl. simpl. right. left. reflexivity.
      + simpl. rewrite drop_to_newline_none.
        * apply int_digit, Hd.
        * intro Hin. apply Hnl. simpl. tauto. }
  exists (digit_val d).
  erewrite bind_run by (rewrite Hint; reflexivity).
  erewrite bind_run by reflexivity.
  erewrite bind_run by reflexivity.
  rewrite re_sub_digits_and_space. reflexivity.
Qed.

Lemma read_file_freq_line_record_witness :
  exists freq,
    read_file_freq_line
      (lit "      1 Asaniu" ++ tab ++ lit "[{KUR}a-sa-ni-u, {KUR}a-sa-ni]")
      initial_globals
    = (inr (lit "Asaniu",
            (freq, [lit "{KUR}a-sa-ni-u"; lit "{KUR}a-sa-ni"])),
       initial_globals).
Proof.
  apply (@read_file_freq_line_record
           (lit "      1 Asaniu" ++ tab
            ++ lit "[{KUR}a-sa-ni-u, {KUR}a-sa-ni]" ++ [0x0A%N])
           (lit "      1 Asaniu" ++ tab
            ++ lit "[{KUR}a-sa-ni-u, {KUR}a-sa-ni]")
           (lit "1 Asaniu") (lit "[{KUR}a-sa-ni-u, {KUR}a-sa-ni]") []
           0x31%N (lit " Asaniu") initial_globals).
  - left. reflexivity.
  - reflexivity.
  - reflexivity.
  - reflexivity.
  - simpl. intuition discriminate.
  - simpl. intuition discriminate.
  - now left.
Defined.

(* ------------------------------------------------------------------ *)
(** ** The keys of a loaded store are distinct *)
(* ------------------------------------------------------------------ *)

Lemma fold_m_invariant {A S} (P : S -> Prop) (l : list A)
    (body : S -> A -> M S) :
  (forall s x g s' g', P s -> body s x g = (inr s', g') -> P s') ->
  forall s g s' g', P s -> fold_m l s body g = (inr s', g') -> P s'.
Proof.
  intro Hbody. induction l as [|x l IH]; intros s g s' g' Hs; simpl.
  - unfold ret. intros [= <- _]. exact Hs.
  - unfold bind. destruct (body s x g) as [[e|s1] g1] eqn:E;
      [discriminate|].
    apply IH. eapply Hbody; eauto.
Qed.

(** Whatever the format, [read_file] returns a store whose keys are
    pairwise distinct, as the keys of a [dict] are. *)
Lemma read_file_NoDup fname contents format_ g d g' :
  read_file fname contents format_ g = (inr d, g') ->
  NoDup (dict_keys d).
Proof.
  unfold read_file. unfold bind at 1. unfold print at 1. cbv beta iota.
  destruct (str_eqb format_ (lit "freq")).
  - apply (fold_m_invariant (fun s : dict record => NoDup (dict_keys s)));
      [|constructor].
    intros s x g0 s' g1 Hs. unfold bind.
    destruct (read_file_freq_line x g0) as [[e|[lemma r]] g2];
      [discriminate|].
    unfold ret. intros [= <- _]. apply dict_set_NoDup, Hs.
  - apply (fold_m_invariant (fun s : dict record => NoDup (dict_keys s)));
      [|constructor].
    intros s x g0 s' g1 Hs. unfold ret. intros [= <- _].
    apply dict_set_NoDup, Hs.
Qed.

(* ------------------------------------------------------------------ *)
(** ** The script as a whole *)
(* ------------------------------------------------------------------ *)

(** Once loaded, the store stays as [read_file] returned it until the
    script ends, by a return or by an exception. *)
Lemma main_store_fixed contents g d g1 :
  read_file (lit "places_with_translit.txt") contents (lit "freq") g
  = (inr d, g1) ->
  data (snd (main contents g)) = d.
Proof.
  intro Hload. unfold main.
  erewrite bind_run by exact Hload.
  erewrite bind_run by reflexivity.
  erewrite bind_run by reflexivity.
  simpl data.
  match goal with
  | |- data (snd (bind ?m ?k ?g0)) = _ =>
      assert (H : preserves same_data (bind m k))
  end.
  { apply preserves_bind.
    - exact same_data_trans.
    - apply compare_same_data.
    - intros _. apply print_results_same_data. }
  rewrite (H _). reflexivity.
Qed.

(* ================================================================== *)
(** * Further properties of the code *)
(* ================================================================== *)

(* ------------------------------------------------------------------ *)
(** ** The scorer as a distance *)
(* ------------------------------------------------------------------ *)

Section ScorerMetric.

Lemma edits_trans n m a b c :
  edits n a b -> edits m b c -> edits (n + m) a c.
Proof.
  induction 1 as [a|n a a' b H1 _ IH]; intro H; [exact H|].
  simpl. econstructor; [exact H1|apply IH, H].
Qed.

Lemma lev_triangle a b c : lev a c <= lev a b + lev b c.
Proof.
  apply lev_lower_bound.
  eapply edits_trans; apply edits_lev.
Qed.

Lemma edit1_length a b :
  edit1 a b -> length a <= S (length b) /\ length b <= S (length a).
Proof.
  intros [x c y|x c y|x c d y]; rewrite !length_app; simpl; lia.
Qed.

Lemma edits_length n a b :
  edits n a b -> length a <= length b + n /\ length b <= length a + n.
Proof.
  induction 1 as [a|n a a' b H1 _ IH]; [lia|].
  apply edit1_length in H1. lia.
Qed.

Lemma lev_length_lower a b :
  (length a - length b) + (length b - length a) <= lev a b.
Proof.
  pose proof (edits_length (edits_lev a b)). lia.
Qed.

Lemma lev_length_upper a b : lev a b <= Nat.max (length a) (length b).
Proof.
  revert b. induction a as [|x a IHa]; intro b.
  - rewrite lev_nil_l. simpl. lia.
  - destruct b as [|y b].
    + rewrite lev_nil_r. simpl. lia.
    + rewrite lev_cons. unfold min3. specialize (IHa b).
      pose proof (int_of_bool_le1 (negb (x =? y)%N)). simpl length. lia.
Qed.

Lemma lev_zero a b : lev a b = 0 -> a = b.
Proof.
  intro H. pose proof (edits_lev a b) as E. rewrite H in E.
  inversion E. reflexivity.
Qed.

Lemma hamming_cons x a y b :
  hamming (x :: a) (y :: b)
  = int_of_bool (negb (x =? y)%N) + hamming a b.
Proof. reflexivity. Qed.

Lemma lev_le_hamming a :
  forall b, length a = length b -> lev a b <= hamming a b.
Proof.
  induction a as [|x a IH]; intros [|y b] H; try discriminate H.
  - reflexivity.
  - rewrite lev_cons, hamming_cons. unfold min3.
    injection H as H. specialize (IH b H). lia.
Qed.

Lemma hamming_refl a : hamming a a = 0.
Proof.
  induction a as [|x a IH]; [reflexivity|].
  rewrite hamming_cons, IH, N.eqb_refl. reflexivity.
Qed.

Lemma hamming_length a :
  forall b, hamming a b <= Nat.min (length a) (length b).
Proof.
  induction a as [|x a IH]; intros [|y b];
    try (unfold hamming; simpl; lia).
  rewrite hamming_cons. specialize (IH b).
  pose proof (int_of_bool_le1 (negb (x =? y)%N)). simpl length. lia.
Qed.

Lemma length_filter_map_S (f : nat -> bool) l :
  length (filter f (map S l)) = length (filter (fun i => f (S i)) l).
Proof.
  induction l as [|i l IH]; [reflexivity|]. simpl.
  destruct (f (S i)); simpl; rewrite IH; reflexivity.
Qed.

(** [hamming] counts the positions, up to the shorter length, at which
    the two strings differ. *)
Lemma hamming_positions a :
  forall b,
    hamming a b
    = length (filter (fun i => negb (nth i a 0 =? nth i b 0)%N)
                     (seq 0 (Nat.min (length a) (length b)))).
Proof.
  induction a as [|x a IH]; intros [|y b]; try reflexivity.
  rewrite hamming_cons, IH. simpl length. simpl Nat.min.
  simpl seq. rewrite <- seq_shift. simpl filter.
  destruct (negb (x =? y)%N); simpl; rewrite length_filter_map_S;
    reflexivity.
Qed.

End ScorerMetric.

(** X1. [levenshtein] satisfies the triangle inequality: going through a
    third string never costs less than going directly. *)
Theorem levenshtein_triangle (s1 s2 s3 : str) :
  levenshtein s1 s3 <= levenshtein s1 s2 + levenshtein s2 s3.
Proof. rewrite !levenshtein_lev. apply lev_triangle. Qed.

(** X2. [levenshtein] is zero exactly on equal strings. *)
Theorem levenshtein_zero_iff (s1 s2 : str) :
  levenshtein s1 s2 = 0 <-> s1 = s2.
Proof.
  rewrite levenshtein_lev. split; [apply lev_zero|].
  intros ->. apply lev_refl.
Qed.

(** X3. [levenshtein] lies between the difference of the two lengths and
    the greater length. *)
Theorem levenshtein_length_bounds (s1 s2 : str) :
  (length s1 - length s2) + (length s2 - length s1) <= levenshtein s1 s2
  /\ levenshtein s1 s2 <= Nat.max (length s1) (length s2).
Proof.
  rewrite levenshtein_lev. split;
    [apply lev_length_lower|apply lev_length_upper].
Qed.

(** X4. On strings of equal length the Hamming distance is at least the
    Levenshtein distance, and at most the length: the Hamming branch of
    the scorer never scores a pair lower than the edit distance would. *)
Theorem levenshtein_le_hamming (s1 s2 : str) :
  length s1 = length s2 ->
  levenshtein s1 s2 <= hamming s1 s2 /\ hamming s1 s2 <= length s1.
Proof.
  intro H. rewrite levenshtein_lev. split; [apply lev_le_hamming, H|].
  pose proof (hamming_length s1 s2). lia.
Qed.

Lemma levenshtein_le_hamming_witness :
  length (lit "abcd") = length (lit "bcda")
  /\ levenshtein (lit "abcd") (lit "bcda")
     <= hamming (lit "abcd") (lit "bcda")
  /\ hamming (lit "abcd") (lit "bcda") <= length (lit "abcd").
Proof.
  split; [reflexivity|].
  apply (@levenshtein_le_hamming (lit "abcd") (lit "bcda")).
  reflexivity.
Defined.

(** X5. Two strings with the same lower case score zero, whatever their
    lengths; in particular every string scores zero against itself and
    against its own lower case. *)
Theorem score_strings_same_lower (a b : str) :
  lower a = lower b -> score_strings a b = 0.
Proof.
  intro H. unfold score_strings. rewrite H.
  destruct (length a =? length b).
  - apply hamming_refl.
  - rewrite levenshtein_lev. apply lev_refl.
Qed.

Lemma score_strings_same_lower_witness :
  lower (lit "BABIL") = lower (lit "Babil")
  /\ score_strings (lit "BABIL") (lit "Babil") = 0.
Proof.
  split; [reflexivity|].
  apply (@score_strings_same_lower (lit "BABIL") (lit "Babil")).
  reflexivity.
Defined.

(** X6. For two strings of equal length the score is the number of
    positions, up to the shorter lowercased string, at which the
    lowercased strings differ. *)
Theorem score_strings_hamming_positions (a b : str) :
  length a = length b ->
  score_strings a b
  = length (filter (fun i => negb (nth i (lower a) 0
                                   =? nth i (lower b) 0)%N)
                   (seq 0 (Nat.min (length (lower a))
                                   (length (lower b))))).
Proof.
  intro H. unfold score_strings. apply Nat.eqb_eq in H. rewrite H.
  apply hamming_positions.
Qed.

Lemma score_strings_hamming_positions_witness :
  length (lit "Babilu") = length (lit "Bubila")
  /\ score_strings (lit "Babilu") (lit "Bubila") = 2.
Proof.
  split; [reflexivity|].
  rewrite (@score_strings_hamming_positions (lit "Babilu") (lit "Bubila")
             eq_refl).
  reflexivity.
Defined.

(* ------------------------------------------------------------------ *)
(** ** The pair test of the clusterer *)
(* ------------------------------------------------------------------ *)

Section PairTest.

Lemma lower_char_length (c : char) :
  c <> 0x130%N -> length (lower_char c) = 1.
Proof.
  intro H. unfold lower_char.
  repeat match goal with
  | |- context [if ?b then _ else _] => destruct b eqn:?
  end; try reflexivity.
  exfalso. apply H. apply N.eqb_eq. assumption.
Qed.

(** Only U+0130 changes the length of a string under [lower]. *)
Lemma lower_length (s : str) :
  ~ In 0x130%N s -> length (lower s) = length s.
Proof.
  unfold lower. induction s as [|c s IH]; intro H; [reflexivity|].
  simpl. rewrite length_app, lower_char_length, IH; simpl in *;
    intuition congruence.
Qed.

Lemma score_strings_comm a b : score_strings a b = score_strings b a.
Proof.
  unfold score_strings. rewrite (Nat.eqb_sym (length b) (length a)).
  destruct (length a =? length b); [apply hamming_sym|].
  rewrite !levenshtein_lev. apply lev_sym.
Qed.

Lemma is_candidate_unfold w1 w2 :
  is_candidate w1 w2
  = if 3 <? (length w1 - length w2) + (length w2 - length w1) then false
    else score_strings w1 w2 <=? (if 8 <=? length w1 then 2 else 1).
Proof.
  unfold is_candidate, sorted. cbv zeta. simpl fold_right.
  destruct (Nat.leb_spec (length w1) (length w2)); simpl nth.
  - replace (length w2 - length w1)
      with (length w1 - length w2 + (length w2 - length w1)) at 1 by lia.
    reflexivity.
  - replace (length w1 - length w2)
      with (length w1 - length w2 + (length w2 - length w1)) at 1 by lia.
    reflexivity.
Qed.

End PairTest.

(** X7. The length gate of [compare] rejects no pair that the threshold
    would accept: for two lemmas free of U+0130, the one code point that
    [lower] lengthens, the pair is recorded exactly when its score is
    within the threshold of [w1], whatever the difference of lengths. *)
Theorem compare_pair_gate_redundant (w1 w2 : str) (g : globals) :
  ~ In 0x130%N w1 -> ~ In 0x130%N w2 ->
  compare_pair w1 w2 g
  = (inr tt,
     mk_globals
       (if score_strings w1 w2 <=? (if 8 <=? length w1 then 2 else 1)
        then add_edge (dictionary g) w1 w2
        else dictionary g)
       (data g) (stdout g)).
Proof.
  intros H1 H2. rewrite compare_pair_run, is_candidate_unfold.
  destruct (Nat.ltb_spec 3 ((length w1 - length w2)
                            + (length w2 - length w1))) as [Hgate|_];
    [|reflexivity].
  assert (Hs : 3 < score_strings w1 w2).
  { unfold score_strings.
    destruct (Nat.eqb_spec (length w1) (length w2)) as [E|_]; [lia|].
    rewrite levenshtein_lev.
    pose proof (lev_length_lower (lower w1) (lower w2)) as L.
    rewrite !lower_length in L by assumption. lia. }
  replace (score_strings w1 w2 <=? (if 8 <=? length w1 then 2 else 1))
    with false; [reflexivity|].
  symmetry. apply Nat.leb_gt. destruct (8 <=? length w1); lia.
Qed.

Lemma compare_pair_gate_redundant_witness :
  ~ In 0x130%N (lit "Babil") /\ ~ In 0x130%N (lit "Babilonia")
  /\ compare_pair (lit "Babil") (lit "Babilonia") initial_globals
     = (inr tt, initial_globals).
Proof.
  assert (H1 : ~ In 0x130%N (lit "Babil"))
    by (simpl; intuition discriminate).
  assert (H2 : ~ In 0x130%N (lit "Babilonia"))
    by (simpl; intuition discriminate).
  split; [exact H1|]. split; [exact H2|].
  rewrite (@compare_pair_gate_redundant (lit "Babil") (lit "Babilonia")
             initial_globals H1 H2).
  reflexivity.
Defined.

(** X8. The pair test is symmetric whenever the two lemmas lie on the
    same side of the threshold length 8; only across that length can the
    order of two lemmas in the store decide whether their edge is
    recorded. *)
Theorem is_candidate_sym_same_side (w1 w2 : str) :
  (8 <=? length w1) = (8 <=? length w2) ->
  is_candidate w1 w2 = is_candidate w2 w1.
Proof.
  intro H. rewrite !is_candidate_unfold, H, (score_strings_comm w2 w1).
  rewrite (Nat.add_comm (length w2 - length w1)). reflexivity.
Qed.

Lemma is_candidate_sym_same_side_witness :
  (8 <=? length (lit "Babil")) = (8 <=? length (lit "Babilu"))
  /\ is_candidate (lit "Babil") (lit "Babilu")
     = is_candidate (lit "Babilu") (lit "Babil").
Proof.
  split; [reflexivity|].
  apply (@is_candidate_sym_same_side (lit "Babil") (lit "Babilu")).
  reflexivity.
Defined.

(** Across the length 8 the test depends on the order: a lemma of eight
    letters accepts a neighbour at score 2 that does not accept it. *)
Example is_candidate_asymmetric :
  is_candidate (lit "Babiluna") (lit "Babilu") = true
  /\ is_candidate (lit "Babilu") (lit "Babiluna") = false.
Proof. split; reflexivity. Qed.

(* ------------------------------------------------------------------ *)
(** ** The printed number of comparisons *)
(* ------------------------------------------------------------------ *)

Lemma count_comparisons_loop_closed fuel d :
  forall i j,
    1 <= i -> i <= d -> d - i <= fuel -> 2 * j = i * (i + 1) ->
    2 * count_comparisons_loop fuel d i j = d * (d + 1).
Proof.
  induction fuel as [|fuel IH]; intros i j H1 Hi Hf Hj.
  - assert (i = d) by lia. subst. simpl. lia.
  - simpl. destruct (Nat.ltb_spec i d) as [Hlt|Hge].
    + apply IH; lia.
    + assert (i = d) by lia. subst. lia.
Qed.

(** X9. [count_comparisons d] is [d (d + 1) / 2] for a positive [d], and
    1 for [d = 0]: the number that [compare] prints counts every lemma
    against itself too, beyond the [d (d - 1) / 2] pairs of its loops. *)
Theorem count_comparisons_closed (d : nat) :
  2 * count_comparisons d = if d =? 0 then 2 else d * (d + 1).
Proof.
  destruct d as [|d]; [reflexivity|].
  unfold count_comparisons. simpl Nat.eqb.
  apply count_comparisons_loop_closed; lia.
Qed.

(* ------------------------------------------------------------------ *)
(** ** The edge mapping that [compare] builds *)
(* ------------------------------------------------------------------ *)

Section EdgeMapping.

Lemma flat_map_none {A} (F : str -> list A) l w :
  ~ In w l ->
  flat_map (fun w1 => if str_eqb w1 w then F w1 else []) l = [].
Proof.
  induction l as [|y l IH]; intro H; [reflexivity|]. simpl.
  destruct (str_eqb y w) eqn:E.
  - apply str_eqb_eq in E. subst. exfalso. apply H. now left.
  - apply IH. intro Hin. apply H. now right.
Qed.

Lemma index_absent l w : ~ In w l -> index l w = None.
Proof.
  induction l as [|y l IH]; intro H; [reflexivity|]. simpl.
  destruct (str_eqb y w) eqn:E.
  - apply str_eqb_eq in E. subst. exfalso. apply H. now left.
  - rewrite IH; [reflexivity|]. intro Hin. apply H. now right.
Qed.

(** On a store of at least a hundred distinct keys [compare] returns,
    and extends the candidate list of every string by its edges. *)
Lemma compare_candidates (dict_data : dict record) (g : globals) :
  NoDup (dict_keys dict_data) ->
  100 <= length (dict_keys dict_data) ->
  exists g',
    compare dict_data g = (inr tt, g')
    /\ data g' = data g
    /\ forall w, candidates (dictionary g') w
                 = candidates (dictionary g) w
                   ++ edges_of (dict_keys dict_data) w.
Proof.
  intros Hnd Hlen. unfold compare. cbv zeta.
  set (keys := dict_keys dict_data) in *.
  unfold bind at 1. unfold print at 1. cbv beta iota.
  unfold bind at 1. unfold range_.
  assert (Hstep : length keys / 100 <> 0).
  { intro H0. apply Nat.div_small_iff in H0; lia. }
  apply Nat.eqb_neq in Hstep. rewrite Hstep. unfold ret at 1.
  cbv beta iota.
  match goal with
  | |- context [for_each keys ?body ?g1] =>
      destruct (@compare_rows_run keys
                  {| start := 0; stop := length keys;
                     step := length keys / 100 |}
                  keys (fun w H => H) g1) as [d' [out [Hrun Hc]]]
  end.
  eexists. split; [exact Hrun|]. split; [reflexivity|].
  intro w. simpl dictionary. rewrite Hc. simpl dictionary. f_equal.
  destruct (in_dec (list_eq_dec N.eq_dec) w keys) as [Hin|Hout].
  - apply (@flat_map_single _ (edges_of keys) keys w Hnd Hin).
  - rewrite flat_map_none by exact Hout.
    unfold edges_of. rewrite index_absent by exact Hout. reflexivity.
Qed.

Lemma edges_of_position keys i w :
  NoDup keys -> nth_error keys i = Some w ->
  edges_of keys w = filter (is_candidate w) (skipn (i + 1) keys).
Proof.
  intros Hnd Hi. unfold edges_of.
  rewrite (@index_nth_error keys i w Hnd Hi). reflexivity.
Qed.

Lemma In_skipn_position (keys : list str) i j w :
  NoDup keys -> nth_error keys j = Some w ->
  In w (skipn i keys) <-> i <= j.
Proof.
  intros Hnd Hj. split.
  - intro Hin. apply In_nth_error in Hin. destruct Hin as [k Hk].
    rewrite nth_error_skipn in Hk.
    assert (Hlt : j < length keys)
      by (apply nth_error_Some; congruence).
    rewrite NoDup_nth_error in Hnd.
    assert (j = i + k) by (apply Hnd; [exact Hlt|congruence]).
    lia.
  - intro Hle. apply (nth_error_In _ (j - i)).
    rewrite nth_error_skipn. replace (i + (j - i)) with j by lia.
    exact Hj.
Qed.

End EdgeMapping.

(** X10. On a store of at least a hundred distinct keys [compare]
    returns without touching the store, and appends to what the edge
    mapping held for the key at position [i] the later keys that pass the
    pair test, in the order of the store; for a string that is no key
    the mapping is as it was.  So a second run of [compare] on the same
    edge mapping records every edge twice. *)
Theorem compare_appends_edges (dict_data : dict record) (g : globals) :
  NoDup (dict_keys dict_data) ->
  100 <= length (dict_keys dict_data) ->
  exists g',
    compare dict_data g = (inr tt, g')
    /\ data g' = data g
    /\ (forall i w,
          nth_error (dict_keys dict_data) i = Some w ->
          candidates (dictionary g') w
          = candidates (dictionary g) w
            ++ filter (is_candidate w)
                      (skipn (i + 1) (dict_keys dict_data)))
    /\ (forall w,
          ~ In w (dict_keys dict_data) ->
          candidates (dictionary g') w = candidates (dictionary g) w).
Proof.
  intros Hnd Hlen.
  destruct (@compare_candidates dict_data g Hnd Hlen) as [g' [Hrun [Hdata Hc]]].
  exists g'. split; [exact Hrun|]. split; [exact Hdata|]. split.
  - intros i w Hi. rewrite Hc.
    rewrite (@edges_of_position _ i w Hnd Hi). reflexivity.
  - intros w Hout. rewrite Hc. unfold edges_of.
    rewrite index_absent by exact Hout. apply app_nil_r.
Qed.

Lemma compare_appends_edges_witness :
  exists g',
    compare store_100 initial_globals = (inr tt, g')
    /\ candidates (dictionary g') (lit "Babil") = [lit "Babilu"].
Proof.
  destruct (@compare_appends_edges store_100 initial_globals)
    as [g' [Hrun [_ [Hc _]]]].
  - apply nodupb_NoDup. vm_compute. reflexivity.
  - vm_compute. repeat constructor.
  - exists g'. split; [exact Hrun|].
    rewrite (Hc 0 (lit "Babil") eq_refl). vm_compute. reflexivity.
Defined.

(** X11. Started on the empty edge mapping with a store of at least a
    hundred distinct keys, [compare] records [w2] under [w1] exactly when
    [w1] stands before [w2] in the store and the pair meets the edge
    criterion: no lemma is a candidate of itself or of a later lemma, and
    no candidate list holds a lemma twice. *)
Theorem compare_edges_directed (dict_data : dict record) (g : globals) :
  NoDup (dict_keys dict_data) ->
  100 <= length (dict_keys dict_data) ->
  dictionary g = [] ->
  exists g',
    compare dict_data g = (inr tt, g')
    /\ (forall i j w1 w2,
          nth_error (dict_keys dict_data) i = Some w1 ->
          nth_error (dict_keys dict_data) j = Some w2 ->
          (In w2 (candidates (dictionary g') w1)
           <-> i < j /\ edge_criterion w1 w2))
    /\ (forall w, NoDup (candidates (dictionary g') w)).
Proof.
  intros Hnd Hlen Hempty.
  destruct (@compare_candidates dict_data g Hnd Hlen) as [g' [Hrun [_ Hc]]].
  exists g'. split; [exact Hrun|].
  assert (Hc' : forall w, candidates (dictionary g') w
                          = edges_of (dict_keys dict_data) w).
  { intro w. rewrite Hc, Hempty. reflexivity. }
  split.
  - intros i j w1 w2 Hi Hj. rewrite Hc'.
    rewrite (@edges_of_position _ i w1 Hnd Hi).
    rewrite filter_In, is_candidate_criterion.
    rewrite (@In_skipn_position _ (i + 1) j w2 Hnd Hj).
    split; intros [H1 H2]; (split; [lia|exact H2]).
  - intro w. rewrite Hc'. unfold edges_of.
    destruct (index (dict_keys dict_data) w) as [i|]; [|constructor].
    apply NoDup_filter.
    rewrite <- (firstn_skipn (i + 1) (dict_keys dict_data)) in Hnd.
    apply NoDup_app_remove_l in Hnd. exact Hnd.
Qed.

Lemma compare_edges_directed_witness :
  exists g',
    compare store_100 initial_globals = (inr tt, g')
    /\ In (lit "Babilu") (candidates (dictionary g') (lit "Babil"))
    /\ ~ In (lit "Babil") (candidates (dictionary g') (lit "Babilu")).
Proof.
  destruct (@compare_edges_directed store_100 initial_globals)
    as [g' [Hrun [He _]]].
  - apply nodupb_NoDup. vm_compute. reflexivity.
  - vm_compute. repeat constructor.
  - reflexivity.
  - exists g'. split; [exact Hrun|]. split.
    + apply (He 0 1 (lit "Babil") (lit "Babilu") eq_refl eq_refl).
      split; [lia|]. apply is_candidate_criterion. reflexivity.
    + intro H.
      apply (He 1 0 (lit "Babilu") (lit "Babil") eq_refl eq_refl) in H.
      lia.
Defined.

(* ------------------------------------------------------------------ *)
(** ** Stripping and integer literals *)
(* ------------------------------------------------------------------ *)

Section Strip.

Lemma lstrip_decomp (s : str) :
  exists p, s = p ++ lstrip s /\ Forall (fun c => isspace c = true) p.
Proof.
  induction s as [|c s [p [Hs Hp]]].
  - exists []. split; [reflexivity|constructor].
  - simpl. destruct (isspace c) eqn:E.
    + exists (c :: p). split; [simpl; f_equal; exact Hs|].
      constructor; assumption.
    + exists []. split; [reflexivity|constructor].
Qed.

Lemma lstrip_head (s : str) c t : lstrip s = c :: t -> isspace c = false.
Proof.
  induction s as [|x s IH]; simpl; [discriminate|].
  destruct (isspace x) eqn:E; [exact IH|].
  intros [= <- _]. exact E.
Qed.

Lemma lstrip_fixed (c : char) (t : str) :
  isspace c = false -> lstrip (c :: t) = c :: t.
Proof. intro H. simpl. rewrite H. reflexivity. Qed.

Lemma lstrip_idem (s : str) : lstrip (lstrip s) = lstrip s.
Proof.
  destruct (lstrip s) as [|c t] eqn:E; [reflexivity|].
  apply lstrip_fixed. eapply lstrip_head, E.
Qed.

Lemma rstrip_decomp (s : str) :
  exists q, s = rstrip s ++ q /\ Forall (fun c => isspace c = true) q.
Proof.
  unfold rstrip. destruct (lstrip_decomp (rev s)) as [p [Hs Hp]].
  exists (rev p). split.
  - rewrite <- (rev_involutive s), Hs at 1. apply rev_app_distr.
  - apply Forall_rev, Hp.
Qed.

(** The stripped text starts with a character that is no white space. *)
Lemma strip_head (s : str) c t : strip s = c :: t -> isspace c = false.
Proof.
  unfold strip. intro H.
  destruct (rstrip_decomp (lstrip s)) as [q [Hq _]].
  rewrite H in Hq. simpl in Hq. eapply lstrip_head, Hq.
Qed.

Lemma rstrip_idem (s : str) : rstrip (rstrip s) = rstrip s.
Proof. unfold rstrip. rewrite rev_involutive, lstrip_idem. reflexivity. Qed.

Lemma strip_idem (s : str) : strip (strip s) = strip s.
Proof.
  assert (H : lstrip (strip s) = strip s).
  { destruct (strip s) as [|c t] eqn:E; [reflexivity|].
    apply lstrip_fixed. eapply strip_head, E. }
  unfold strip at 1. rewrite H. unfold strip. apply rstrip_idem.
Qed.

(** Stripping a text that starts with a character [d] that is no white
    space keeps [d] and a prefix of what follows it. *)
Lemma strip_cons_prefix (d : char) (t : str) :
  isspace d = false ->
  exists t' q, strip (d :: t) = d :: t' /\ t = t' ++ q.
Proof.
  intro Hd. unfold strip. rewrite (@lstrip_fixed d t Hd).
  destruct (rstrip_decomp (d :: t)) as [q [Hq Hsp]].
  destruct (rstrip (d :: t)) as [|d' t'].
  - simpl in Hq. subst q. inversion Hsp. congruence.
  - simpl in Hq. injection Hq as <- Ht. exists t', q. split; auto.
Qed.

Lemma int_digits_chars (s : str) :
  forall acc b z,
    int_digits acc b s = Some z ->
    Forall (fun c => is_digit c = true \/ c = 0x5F%N) s.
Proof.
  induction s as [|c s IH]; intros acc b z; simpl; [constructor|].
  destruct (is_digit c) eqn:D.
  - intro H. constructor; [now left|eapply IH, H].
  - destruct (N.eqb_spec c 0x5F) as [->|_]; simpl; [|discriminate].
    destruct b; [|discriminate].
    intro H. constructor; [now right|eapply IH, H].
Qed.

(** A stripped text that [int] accepts holds no tab. *)
Lemma int_no_tab (s : str) z :
  strip s = s -> int_ s = Some z -> ~ In 0x09%N s.
Proof.
  intros Hs H. unfold int_ in H. rewrite Hs in H.
  assert (Hd : forall t acc b z',
             int_digits acc b t = Some z' -> ~ In 0x09%N t).
  { intros t acc b z' Ht Hin. apply int_digits_chars in Ht.
    rewrite Forall_forall in Ht. destruct (Ht _ Hin) as [D|D];
      discriminate D. }
  destruct s as [|c t]; [simpl; tauto|].
  destruct (N.eqb_spec c 0x2B) as [->|N1].
  { intros [E|Hin]; [discriminate E|]. eapply Hd; eauto. }
  destruct (N.eqb_spec c 0x2D) as [->|N2].
  { destruct (int_digits 0 false t) eqn:E; [|discriminate].
    intros [E'|Hin]; [discriminate E'|]. eapply Hd; eauto. }
  assert (H' : int_digits 0 false (c :: t) = Some z).
  { clear -H N1 N2.
    destruct c as [|p]; [exact H|].
    do 6 (try destruct p as [p|p|]; try exact H); congruence. }
  eapply Hd, H'.
Qed.

(** After a leading digit, [int] accepts only the end of the text or
    white space from a line feed on: its value is that of the digit. *)
Lemma int_first_digit (d : char) (rest : str) z :
  is_digit d = true ->
  int_ (d :: drop_to_newline rest) = Some z -> z = digit_val d.
Proof.
  intros Hd H.
  assert (Hsp : isspace d = false)
    by (apply digit_cases in Hd; simpl in Hd;
        repeat destruct Hd as [<-|Hd]; try reflexivity; contradiction).
  destruct (@strip_cons_prefix d (drop_to_newline rest) Hsp)
    as [t' [q [Hs Ht]]].
  unfold int_ in H. rewrite Hs in H.
  assert (H' : int_digits 0 false (d :: t') = Some z).
  { clear -H Hd. apply digit_cases in Hd. simpl in Hd.
    repeat destruct Hd as [<-|Hd]; try exact H. contradiction. }
  simpl in H'. rewrite Hd in H'.
  destruct t' as [|c t''].
  - simpl in H'. injection H' as <-. lia.
  - exfalso.
    assert (Hc : c = 0x0A%N).
    { clear -Ht. induction rest as [|x rest IH]; simpl in Ht;
        [discriminate|].
      destruct (N.eqb_spec x 0x0A) as [->|_]; [congruence|exact (IH Ht)]. }
    subst c. simpl in H'. discriminate H'.
Qed.

End Strip.

(* ------------------------------------------------------------------ *)
(** ** What the loader stores *)
(* ------------------------------------------------------------------ *)

Section LoaderInvariants.

Lemma split_no_tab (s : str) : ~ In 0x09%N s -> split tab s = [s].
Proof. intro H. unfold split. rewrite split_from_last by exact H. reflexivity. Qed.

Lemma split_nonempty sep (s : str) : split sep s <> [].
Proof. unfold split. destruct (split_from sep 0 s). discriminate. Qed.

Lemma filter_key_char (s : str) :
  Forall (fun c => key_char c = true) (filter key_char s).
Proof. apply Forall_forall. intros c H. apply filter_In in H. tauto. Qed.

(** A line that loads starts, once stripped, with an ASCII digit and
    holds a tab; its frequency is the value of that digit. *)
Lemma read_file_freq_line_inv (l : str) (g g' : globals) lemma freq xlit :
  read_file_freq_line l g = (inr (lemma, (freq, xlit)), g') ->
  g' = g
  /\ (exists d rest,
        strip l = d :: rest /\ is_digit d = true /\ In 0x09%N rest
        /\ freq = digit_val d)
  /\ Forall (fun c => key_char c = true) lemma
  /\ xlit <> [].
Proof.
  unfold read_file_freq_line. cbv zeta.
  unfold bind, lift_opt, ret, raise.
  destruct (int_ (re_sub_first_digit (strip l))) as [z|] eqn:Hint;
    [|discriminate].
  destruct (nth_error (split tab (strip l)) 0) as [f0|] eqn:H0;
    [|discriminate].
  destruct (nth_error (split tab (strip l)) 1) as [f1|] eqn:H1;
    [|discriminate].
  intros [= <- <- <- <-].
  split; [reflexivity|]. split.
  2:{ split; [rewrite re_sub_digits_and_space; apply filter_key_char|].
      apply split_nonempty. }
  assert (Htab : In 0x09%N (strip l)).
  { destruct (in_dec N.eq_dec 0x09%N (strip l)) as [H|H]; [exact H|].
    rewrite split_no_tab in H1 by exact H. discriminate H1. }
  pose proof (strip_idem l) as Hidem.
  destruct (strip l) as [|d [|c rest]] eqn:El.
  - contradiction.
  - exfalso. destruct Htab as [E|[]]. subst d.
    pose proof (@strip_head l _ _ El) as Hs. discriminate Hs.
  - simpl re_sub_first_digit in Hint.
    destruct (is_digit d && negb (c =? 0x0A)%N) eqn:Hm.
    + apply andb_prop in Hm. destruct Hm as [Hd _].
      exists d, (c :: rest). split; [reflexivity|]. split; [exact Hd|].
      split.
      * destruct Htab as [E|Hin]; [subst d; discriminate Hd|exact Hin].
      * eapply int_first_digit; eauto.
    + exfalso. exact (@int_no_tab _ _ Hidem Hint Htab).
Qed.

Lemma dict_get_In {V} (d : dict V) k v :
  dict_get d k = Some v -> In (k, v) d.
Proof.
  induction d as [|[k' v'] d IH]; simpl; [discriminate|].
  destruct (str_eqb k' k) eqn:E.
  - apply str_eqb_eq in E. intros [= ->]. left. congruence.
  - intro H. right. apply IH, H.
Qed.

Lemma dict_set_Forall {V} (Q : str * V -> Prop) (d : dict V) k v :
  Forall Q d -> Q (k, v) -> Forall Q (dict_set d k v).
Proof.
  intros Hd Hq. induction Hd as [|[k' v'] d Hk Hd IH]; simpl.
  - constructor; [exact Hq|constructor].
  - destruct (str_eqb k' k) eqn:E.
    + apply str_eqb_eq in E. subst k'. constructor; assumption.
    + constructor; assumption.
Qed.

(** The records of a store loaded in the frequency format. *)
Lemma read_file_freq_records fname contents g d g' :
  read_file fname contents (lit "freq") g = (inr d, g') ->
  Forall (fun kv : str * record =>
            Forall (fun c => key_char c = true) (fst kv)
            /\ (0 <= fst (snd kv) <= 9)%Z
            /\ snd (snd kv) <> [])
         d.
Proof.
  unfold read_file. unfold bind at 1. unfold print at 1. cbv beta iota.
  change (str_eqb (lit "freq") (lit "freq")) with true. cbv iota.
  apply (fold_m_invariant
           (fun s : dict record =>
              Forall (fun kv : str * record =>
                        Forall (fun c => key_char c = true) (fst kv)
                        /\ (0 <= fst (snd kv) <= 9)%Z
                        /\ snd (snd kv) <> []) s));
    [|constructor].
  intros s x g0 s' g1 Hs. unfold bind.
  destruct (read_file_freq_line x g0) as [[e|[lemma [freq xlit]]] g2] eqn:E;
    [discriminate|].
  unfold ret. intros [= <- _].
  apply read_file_freq_line_inv in E.
  destruct E as [_ [[dg [rest [_ [Hd [_ ->]]]]] [Hk Hx]]].
  apply dict_set_Forall; [exact Hs|]. simpl. split; [exact Hk|].
  split; [|exact Hx].
  apply digit_cases in Hd. simpl in Hd.
  repeat destruct Hd as [<-|Hd]; try (vm_compute; split; discriminate).
  contradiction.
Qed.

Lemma fold_m_keys_length {A V} (l : list A)
    (body : dict V -> A -> M (dict V)) :
  (forall s x g s' g',
     body s x g = (inr s', g') ->
     length (dict_keys s') <= S (length (dict_keys s))) ->
  forall s g s' g',
    fold_m l s body g = (inr s', g') ->
    length (dict_keys s') <= length (dict_keys s) + length l.
Proof.
  intro Hbody. induction l as [|x l IH]; intros s g s' g'; simpl.
  - unfold ret. intros [= <- _]. lia.
  - unfold bind. destruct (body s x g) as [[e|s1] g1] eqn:E;
      [discriminate|].
    intro H. apply IH in H. apply Hbody in E. lia.
Qed.

Lemma dict_set_keys_length {V} (d : dict V) k v :
  length (dict_keys (dict_set d k v)) <= S (length (dict_keys d)).
Proof.
  rewrite dict_set_keys. destruct (str_in k (dict_keys d));
    [lia|rewrite length_app; simpl; lia].
Qed.

(** A store has no more keys than the input has lines. *)
Lemma read_file_keys_length fname contents format_ g d g' :
  read_file fname contents format_ g = (inr d, g') ->
  length (dict_keys d) <= length (splitlines contents).
Proof.
  unfold read_file. unfold bind at 1. unfold print at 1. cbv beta iota.
  intro H.
  assert (Hgoal : length (dict_keys d)
                  <= length (dict_keys (@nil (str * record)))
                     + length (splitlines contents)); [|exact Hgoal].
  destruct (str_eqb format_ (lit "freq")).
  - eapply fold_m_keys_length; [|exact H].
    intros s x g0 s' g1. unfold bind.
    destruct (read_file_freq_line x g0) as [[e|[lemma r]] g2];
      [discriminate|].
    unfold ret. intros [= <- _]. apply dict_set_keys_length.
  - eapply fold_m_keys_length; [|exact H].
    intros s x g0 s' g1. unfold ret. intros [= <- _].
    apply dict_set_keys_length.
Qed.






(** The loader writes the output only. *)
Lemma read_file_same_dictionary fname contents format_ :
  preserves (fun a b => dictionary b = dictionary a)
            (read_file fname contents format_).
Proof.
  assert (Hr : forall a : globals, dictionary a = dictionary a)
    by reflexivity.
  assert (Ht : forall a b c : globals,
             dictionary b = dictionary a ->
             dictionary c = dictionary b ->
             dictionary c = dictionary a) by (intros; congruence).
  assert (Hp : forall line,
             preserves (fun a b => dictionary b = dictionary a)
                       (print line)) by (intros line a; reflexivity).
  unfold read_file, read_file_freq_line. cbv zeta.
  repeat first [frame_step | apply Hp].
Qed.

End LoaderInvariants.



(** X13. Every store that [read_file] returns in the frequency format
    has distinct keys free of ASCII digits and spaces, and every record
    of it has a frequency between 0 and 9 and at least one spelling. *)
Theorem read_file_freq_store (fname contents : str) (g g' : globals)
    (d : dict record) :
  read_file fname contents (lit "freq") g = (inr d, g') ->
  NoDup (dict_keys d)
  /\ forall k freq xlit,
       dict_get d k = Some (freq, xlit) ->
       Forall (fun c => key_char c = true) k
       /\ (0 <= freq <= 9)%Z
       /\ xlit <> [].
Proof.
  intro H. split; [eapply read_file_NoDup, H|].
  intros k freq xlit Hk. apply dict_get_In in Hk.
  pose proof (@read_file_freq_records _ _ _ _ _ H) as F.
  rewrite Forall_forall in F. exact (F _ Hk).
Qed.

Lemma read_file_freq_store_witness :
  NoDup (dict_keys [(lit "Asdudu", (1%Z, [lit "as-du-di"]))])
  /\ forall k freq xlit,
       dict_get [(lit "Asdudu", (1%Z, [lit "as-du-di"]))] k
       = Some (freq, xlit) ->
       Forall (fun c => key_char c = true) k
       /\ (0 <= freq <= 9)%Z
       /\ xlit <> [].
Proof.
  apply (@read_file_freq_store
           (lit "f.txt")
           (lit "  11 Asdudu" ++ tab ++ lit "[as-du-di]" ++ [0x0A%N])
           initial_globals
           (mk_globals [] [] [lit "reading file f.txt..."])
           [(lit "Asdudu", (1%Z, [lit "as-du-di"]))]).
  reflexivity.
Defined.



(** X15. The script cannot complete on fewer than a hundred lines of
    input: either the load raises, or [compare] does, and in either case
    the edge mapping is left as it was. *)
Theorem main_fails_below_100_lines (contents : str) (g : globals) :
  length (splitlines contents) < 100 ->
  exists e g',
    main contents g = (inl e, g') /\ dictionary g' = dictionary g.
Proof.
  intro Hlen. unfold main. unfold bind at 1.
  pose proof (read_file_same_dictionary
                (lit "places_with_translit.txt") contents (lit "freq") g)
    as Hd.
  destruct (read_file (lit "places_with_translit.txt") contents
              (lit "freq") g) as [[e|d] g1] eqn:Hload; simpl in Hd.
  - exists e, g1. split; [reflexivity|exact Hd].
  - pose proof (@read_file_keys_length _ _ _ _ _ _ Hload) as Hk.
    erewrite bind_run by reflexivity.
    erewrite bind_run by reflexivity.
    unfold bind at 1. rewrite compare_small_store by (simpl; lia).
    eexists _, _. split; [reflexivity|]. simpl. exact Hd.
Qed.

Lemma main_fails_below_100_lines_witness :
  exists e g',
    main (lit "1 Babil" ++ tab ++ lit "[ba-bil]") initial_globals
    = (inl e, g')
    /\ dictionary g' = [].
Proof.
  apply (@main_fails_below_100_lines
           (lit "1 Babil" ++ tab ++ lit "[ba-bil]") initial_globals).
  vm_compute. repeat constructor.
Defined.

(* ------------------------------------------------------------------ *)
(** ** The normaliser, character by character *)
(* ------------------------------------------------------------------ *)

Section Charwise.

Lemma first_match_singles (cs : list char) (c : char) (t : str) :
  first_match (map (fun c0 => [c0]) cs) (c :: t)
  = if existsb (N.eqb c) cs then Some 0 else None.
Proof.
  induction cs as [|x cs IH]; [reflexivity|]. simpl.
  unfold startswith. simpl firstn. rewrite (N.eqb_sym c x).
  destruct (N.eqb_spec x c) as [->|Hn].
  - rewrite str_eqb_refl. reflexivity.
  - replace (str_eqb [c] [x]) with false
      by (symmetry; apply str_eqb_neq; congruence).
    exact IH.
Qed.

Lemma first_match_dead (dead alts : list str) (s : str) :
  (forall p, In p dead -> exists d, In d p /\ ~ In d s) ->
  first_match (dead ++ alts) s = first_match alts s.
Proof.
  induction dead as [|p dead IH]; intro H; [reflexivity|]. simpl.
  assert (Hrest : first_match (dead ++ alts) s = first_match alts s)
    by (apply IH; intros q Hq; apply H; now right).
  destruct p as [|x p']; [exact Hrest|].
  destruct (startswith (x :: p') s) eqn:E; [|exact Hrest].
  destruct (H (x :: p') (or_introl eq_refl)) as [d [Hd Hn]].
  exfalso. apply Hn. eapply startswith_In; eauto.
Qed.

(** Alternatives that cannot occur in [s] aside, a substitution of
    one-character alternatives maps each character on its own. *)
Lemma re_sub_charwise (dead : list str) (cs : list char) (repl s : str) :
  (forall p, In p dead -> exists d, In d p /\ ~ In d s) ->
  re_sub (dead ++ map (fun c => [c]) cs) repl s
  = flat_map (fun c => if existsb (N.eqb c) cs then repl else [c]) s.
Proof.
  unfold re_sub. induction s as [|c t IH]; intro H; [reflexivity|].
  simpl. rewrite first_match_dead by exact H. rewrite first_match_singles.
  assert (Ht : forall p, In p dead -> exists d, In d p /\ ~ In d t).
  { intros p Hp. destruct (H p Hp) as [d [Hd Hn]].
    exists d. split; [exact Hd|]. intro Hin. apply Hn. now right. }
  destruct (existsb (N.eqb c) cs); simpl; rewrite (IH Ht); reflexivity.
Qed.

Lemma flat_map_flat_map {A B C} (f : A -> list B) (h : B -> list C) l :
  flat_map h (flat_map f l) = flat_map (fun x => flat_map h (f x)) l.
Proof.
  induction l as [|x l IH]; [reflexivity|].
  simpl. rewrite flat_map_app, IH. reflexivity.
Qed.

Lemma lower_fixed_no_upper (s : str) (c : char) :
  Forall lower_fixed s -> (0x41 <= c <= 0x5A)%N -> ~ In c s.
Proof.
  intros Hs Hc Hin. rewrite Forall_forall in Hs.
  specialize (Hs c Hin). unfold lower_fixed, lower_char, between in Hs.
  replace (0x41 <=? c)%N with true in Hs
    by (symmetry; apply N.leb_le; lia).
  replace (c <=? 0x5A)%N with true in Hs
    by (symmetry; apply N.leb_le; lia).
  simpl in Hs. injection Hs as Hs. lia.
Qed.

Lemma normalise_char_steps (d : char) :
  flat_map (fun c => if existsb (N.eqb c) [eng] then lit "g" else [c])
    (flat_map (fun c => if existsb (N.eqb c) [0x28; 0x29]%N then []
                        else [c])
       (flat_map (fun c => if existsb (N.eqb c) [0x2E%N] then lit "-"
                           else [c])
          (if existsb (N.eqb d) subscript_digits then [] else [d])))
  = normalise_char d.
Proof.
  unfold normalise_char.
  destruct (existsb (N.eqb d) subscript_digits); [reflexivity|].
  simpl flat_map at 3. simpl existsb.
  destruct (N.eqb_spec d 0x2E) as [->|N1]; [reflexivity|].
  simpl. destruct (N.eqb_spec d 0x28) as [->|N2]; [reflexivity|].
  destruct (N.eqb_spec d 0x29) as [->|N3]; [reflexivity|].
  simpl. destruct (d =? eng)%N; reflexivity.
Qed.

Lemma flat_map_step {A B} (f : A -> list B) x l :
  flat_map f (x :: l) = f x ++ flat_map f l.
Proof. reflexivity. Qed.

Lemma normalise_pipeline (l : str) :
  flat_map (fun c => if existsb (N.eqb c) [eng] then lit "g" else [c])
    (flat_map (fun c => if existsb (N.eqb c) [0x28; 0x29]%N then []
                        else [c])
       (flat_map (fun c => if existsb (N.eqb c) [0x2E%N] then lit "-"
                           else [c])
          (flat_map (fun c => if existsb (N.eqb c) subscript_digits
                              then [] else [c]) l)))
  = flat_map normalise_char l.
Proof.
  induction l as [|d l IH]; [reflexivity|].
  rewrite !flat_map_step, !flat_map_app.
  f_equal; [apply normalise_char_steps|exact IH].
Qed.

(** [f_xlit] works on the lowercased text one character at a time; the
    three marker alternatives of its first pattern never apply. *)
Lemma f_xlit_charwise (x : str) :
  f_xlit x = flat_map normalise_char (lower x).
Proof.
  unfold f_xlit. cbv zeta.
  pose proof (lower_Forall_fixed x) as Hfix.
  assert (S1 : re_sub determinatives_and_subscripts [] (lower x)
               = flat_map (fun c => if existsb (N.eqb c) subscript_digits
                                    then [] else [c]) (lower x)).
  { change determinatives_and_subscripts
      with ([lit "{URU}"; lit "{KUR}"; lit "{KI}"]
            ++ map (fun c => [c]) subscript_digits).
    apply re_sub_charwise. intros p Hp. simpl in Hp.
    destruct Hp as [<-|[<-|[<-|[]]]].
    - exists 0x55%N. split; [simpl; tauto|].
      apply lower_fixed_no_upper; [exact Hfix|lia].
    - exists 0x4B%N. split; [simpl; tauto|].
      apply lower_fixed_no_upper; [exact Hfix|lia].
    - exists 0x4B%N. split; [simpl; tauto|].
      apply lower_fixed_no_upper; [exact Hfix|lia]. }
  rewrite S1.
  rewrite lower_of_fixed.
  2:{ apply Forall_forall. intros c Hc. apply in_flat_map in Hc.
      destruct Hc as [c0 [Hc0 Hc]]. rewrite Forall_forall in Hfix.
      destruct (existsb (N.eqb c0) subscript_digits); [contradiction|].
      destruct Hc as [<-|[]]. apply Hfix, Hc0. }
  change [lit "."] with ([] ++ map (fun c => [c]) [0x2E%N]).
  rewrite re_sub_charwise by (intros p []).
  change [lit "("; lit ")"] with ([] ++ map (fun c => [c]) [0x28; 0x29]%N).
  rewrite re_sub_charwise by (intros p []).
  change [[eng]] with ([] ++ map (fun c => [c]) [eng]).
  rewrite re_sub_charwise by (intros p []).
  apply normalise_pipeline.
Qed.

End Charwise.

(** X16. [f_xlit] removes no determinative marker and works one
    character at a time: its result is the lowercased text with every
    subscript digit and parenthesis dropped, every full stop turned into
    a hyphen and every eng into [g]. *)
Theorem f_xlit_by_character (x : str) :
  f_xlit x = flat_map normalise_char (lower x).
Proof. apply f_xlit_charwise. Qed.


(** X18. A normalised spelling holds no ASCII capital, no subscript
    digit, no full stop, no parenthesis and no eng. *)
Theorem f_xlit_alphabet (x : str) (c : char) :
  In c (f_xlit x) ->
  ~ (0x41 <= c <= 0x5A)%N
  /\ ~ (0x2080 <= c <= 0x2089)%N
  /\ c <> 0x2E%N /\ c <> 0x28%N /\ c <> 0x29%N /\ c <> eng.
Proof.
  intro Hin. pose proof (f_xlit_normal x) as Hn.
  rewrite Forall_forall in Hn. destruct (Hn c Hin) as [Hf [Hs Hp]].
  split.
  { intro Hc.
    apply (@lower_fixed_no_upper [c] c); [|exact Hc|now left].
    constructor; [exact Hf|constructor]. }
  split.
  { intro Hc. apply Hs. right. right. right.
    assert (Hl : In c (map (fun n => (0x2080 + N.of_nat n)%N) (seq 0 10))).
    { replace c with (0x2080 + N.of_nat (N.to_nat (c - 0x2080)))%N by lia.
      apply (in_map (fun n => (0x2080 + N.of_nat n)%N)), in_seq. lia. }
    simpl in Hl. simpl.
    repeat destruct Hl as [<-|Hl]; try tauto. }
  repeat split; intros ->; apply Hp; simpl; tauto.
Qed.

Lemma f_xlit_alphabet_witness :
  ~ (0x41 <= 0x61 <= 0x5A)%N
  /\ ~ (0x2080 <= 0x61 <= 0x2089)%N
  /\ 0x61%N <> 0x2E%N /\ 0x61%N <> 0x28%N /\ 0x61%N <> 0x29%N
  /\ 0x61%N <> eng.
Proof.
  apply (@f_xlit_alphabet (lit "A.(B)") 0x61%N).
  vm_compute. tauto.
Defined.

(* ------------------------------------------------------------------ *)
(** ** The annotator on every store *)
(* ------------------------------------------------------------------ *)

Section AnnotatorCases.

Lemma bind_raise {A B} (m : M A) (k : A -> M B) g e g' :
  m g = (inl e, g') -> bind m k g = (inl e, g').
Proof. intro H. unfold bind. rewrite H. reflexivity. Qed.

(** The inner loop never raises and writes nothing. *)
Lemma compare_xlits_inner_total s s_xlits t_xlits s_dict g :
  exists s_dict',
    compare_xlits_inner s s_xlits t_xlits s_dict g = (inr s_dict', g).
Proof.
  destruct t_xlits as [|t ts].
  - exists s_dict. reflexivity.
  - eexists. apply compare_xlits_inner_run. discriminate.
Qed.

(** Without target spellings the loop over the suggestions enters
    nothing. *)
Lemma compare_xlits_outer_empty (g : globals) rest :
  (forall s, In s rest -> dict_get (data g) s <> None) ->
  forall s_dict : dict str,
    fold_m rest s_dict
      (fun s_dict s =>
         bind get_data (fun d =>
         bind (dict_item d s) (fun s_rec =>
         compare_xlits_inner s (snd s_rec) [] s_dict))) g
    = (inr s_dict, g).
Proof.
  induction rest as [|s rest IH]; intros Hin s_dict; [reflexivity|].
  simpl fold_m.
  destruct (dict_get (data g) s) as [s_rec|] eqn:Hs;
    [|exfalso; apply (Hin s (or_introl eq_refl)); exact Hs].
  erewrite bind_run.
  2:{ erewrite bind_run by reflexivity.
      erewrite bind_run by (unfold dict_item; rewrite Hs; reflexivity).
      reflexivity. }
  apply IH. intros s0 H0. apply Hin. now right.
Qed.

(** The loop over the suggestions raises [KeyError] at the first
    suggestion that is no lemma of the store. *)
Lemma compare_xlits_outer_missing (g : globals) t_xlits rest :
  (exists s, In s rest /\ dict_get (data g) s = None) ->
  forall s_dict : dict str,
    fold_m rest s_dict
      (fun s_dict s =>
         bind get_data (fun d =>
         bind (dict_item d s) (fun s_rec =>
         compare_xlits_inner s (snd s_rec) t_xlits s_dict))) g
    = (inl KeyError, g).
Proof.
  induction rest as [|s rest IH]; intros [s0 [Hin Hs0]] s_dict;
    [contradiction|].
  simpl fold_m.
  destruct (dict_get (data g) s) as [s_rec|] eqn:Hs.
  - destruct (compare_xlits_inner_total s (snd s_rec) t_xlits s_dict g)
      as [s_dict' Hinner].
    erewrite bind_run.
    2:{ erewrite bind_run by reflexivity.
        erewrite bind_run by (unfold dict_item; rewrite Hs; reflexivity).
        exact Hinner. }
    apply IH. exists s0. split; [|exact Hs0].
    destruct Hin as [->|Hin]; [congruence|exact Hin].
  - apply bind_raise.
    erewrite bind_run by reflexivity.
    apply bind_raise. unfold dict_item. rewrite Hs. reflexivity.
Qed.

(** The annotator on a target of the store and distinct suggestions of
    the store. *)
Lemma compare_xlits_run (g : globals) target freq t_xlits suggestions :
  dict_get (data g) target = Some (freq, t_xlits) ->
  NoDup suggestions ->
  (forall s, In s suggestions -> dict_get (data g) s <> None) ->
  compare_xlits target suggestions g
  = (inr (star_labels (data g) t_xlits suggestions), g).
Proof.
  intros Ht Hnd Hin. destruct t_xlits as [|t ts].
  - unfold compare_xlits.
    erewrite bind_run by reflexivity.
    erewrite bind_run by (unfold dict_item; rewrite Ht; reflexivity).
    cbv zeta. simpl snd.
    erewrite bind_run by exact (@compare_xlits_outer_empty g suggestions
                                  Hin []).
    reflexivity.
  - unfold star_labels.
    apply (@compare_xlits_labels g target freq (t :: ts) suggestions Ht);
      [discriminate|exact Hnd|exact Hin].
Qed.

End AnnotatorCases.

(** X19. For a target of the store and distinct suggestions of the
    store, [compare_xlits] writes nothing and returns: nothing at all
    when the target has no spelling; otherwise one label per suggestion,
    in the order of the suggestions, the suggestion followed by one
    asterisk for each target spelling whose normal form is the normal
    form of one of its own spellings. *)
Theorem compare_xlits_output (g : globals) (target : str) (freq : Z)
    (t_xlits suggestions : list str) :
  dict_get (data g) target = Some (freq, t_xlits) ->
  NoDup suggestions ->
  (forall s, In s suggestions -> dict_get (data g) s <> None) ->
  compare_xlits target suggestions g
  = (inr (match t_xlits with
          | [] => []
          | _ :: _ =>
              map (fun s => s ++ stars (star_count (data g) t_xlits s))
                  suggestions
          end), g).
Proof. apply compare_xlits_run. Qed.

Lemma compare_xlits_output_witness :
  compare_xlits (lit "Babil") [lit "Babilu"; lit "Bubil"]
    (mk_globals [] store_3 [])
  = (inr [lit "Babilu*"; lit "Bubil"], mk_globals [] store_3 []).
Proof.
  rewrite (@compare_xlits_output (mk_globals [] store_3 []) (lit "Babil")
             1%Z [lit "a-b"; lit "c-d"] [lit "Babilu"; lit "Bubil"]
             eq_refl).
  - reflexivity.
  - apply nodupb_NoDup. reflexivity.
  - intros s [<-|[<-|[]]]; discriminate.
Defined.

(** X20. [compare_xlits] raises [KeyError], having written nothing, when
    the target is no lemma of the store, and also when the target is one
    and some suggestion is not. *)
Theorem compare_xlits_missing (g : globals) (target : str)
    (suggestions : list str) :
  dict_get (data g) target = None
  \/ (exists s, In s suggestions /\ dict_get (data g) s = None) ->
  compare_xlits target suggestions g = (inl KeyError, g).
Proof.
  intro H. unfold compare_xlits.
  erewrite bind_run by reflexivity.
  destruct (dict_get (data g) target) as [t_rec|] eqn:Ht.
  - destruct H as [H|H]; [discriminate|].
    erewrite bind_run by (unfold dict_item; rewrite Ht; reflexivity).
    cbv zeta. apply bind_raise.
    apply compare_xlits_outer_missing, H.
  - apply bind_raise. unfold dict_item. rewrite Ht. reflexivity.
Qed.

Lemma compare_xlits_missing_witness :
  compare_xlits (lit "Babil") [lit "Babilu"]
    (mk_globals [] [(lit "Babil", (1%Z, [lit "ba-bil"]))] [])
  = (inl KeyError,
     mk_globals [] [(lit "Babil", (1%Z, [lit "ba-bil"]))] []).
Proof.
  apply compare_xlits_missing. right.
  exists (lit "Babilu"). split; [now left|reflexivity].
Defined.

(** X21. On a store loaded in the frequency format the annotator drops
    no candidate: for a target and distinct suggestions among its keys,
    [compare_xlits] returns exactly one label per suggestion. *)
Theorem compare_xlits_on_loaded_store (fname contents : str)
    (g0 g1 g : globals) (target : str) (suggestions : list str) :
  read_file fname contents (lit "freq") g0 = (inr (data g), g1) ->
  In target (dict_keys (data g)) ->
  NoDup suggestions ->
  (forall s, In s suggestions -> In s (dict_keys (data g))) ->
  exists labels,
    compare_xlits target suggestions g = (inr labels, g)
    /\ length labels = length suggestions
    /\ forall i s, nth_error suggestions i = Some s ->
         exists n, nth_error labels i = Some (s ++ stars n).
Proof.
  intros Hload Ht Hnd Hin.
  assert (Hkey : forall k, In k (dict_keys (data g)) ->
                           exists r, dict_get (data g) k = Some r).
  { intros k Hk. apply dict_mem_true. apply str_in_In, Hk. }
  destruct (Hkey target Ht) as [[freq t_xlits] Hrec].
  pose proof (@read_file_freq_records _ _ _ _ _ Hload) as F.
  rewrite Forall_forall in F.
  destruct (F _ (@dict_get_In _ _ _ _ Hrec)) as [_ [_ Hne]]. simpl in Hne.
  eexists. split.
  - apply (@compare_xlits_labels g target freq t_xlits suggestions
             Hrec Hne Hnd).
    intros s Hs. destruct (Hkey s (Hin s Hs)) as [r Hr]. congruence.
  - split; [apply length_map|].
    intros i s Hi. eexists.
    apply (map_nth_error
             (fun s0 => s0 ++ stars (star_count (data g) t_xlits s0))
             _ _ Hi).
Qed.

Lemma compare_xlits_on_loaded_store_witness :
  exists labels,
    compare_xlits (lit "Babil") [lit "Babilu"]
      (mk_globals []
         [(lit "Babil", (1%Z, [lit "ba-bil"]));
          (lit "Babilu", (2%Z, [lit "ba-bi-lu"]))] [])
    = (inr labels,
       mk_globals []
         [(lit "Babil", (1%Z, [lit "ba-bil"]));
          (lit "Babilu", (2%Z, [lit "ba-bi-lu"]))] [])
    /\ length labels = 1.
Proof.
  destruct (@compare_xlits_on_loaded_store
              (lit "f.txt")
              (lit "1 Babil" ++ tab ++ lit "[ba-bil]" ++ [0x0A%N]
               ++ lit "2 Babilu" ++ tab ++ lit "[ba-bi-lu]")
              initial_globals
              (mk_globals [] [] [lit "reading file f.txt..."])
              (mk_globals []
                 [(lit "Babil", (1%Z, [lit "ba-bil"]));
                  (lit "Babilu", (2%Z, [lit "ba-bi-lu"]))] [])
              (lit "Babil") [lit "Babilu"])
    as [labels [Hrun [Hlen _]]].
  - reflexivity.
  - now left.
  - apply nodupb_NoDup. reflexivity.
  - intros s [<-|[]]. right. now left.
  - exists labels. split; [exact Hrun|exact Hlen].
Defined.

(* ------------------------------------------------------------------ *)
(** ** The reporter *)
(* ------------------------------------------------------------------ *)

Section Reporter.

Lemma label_marks_filter (l : str) :
  re_sub label_marks [] l = filter (fun c => negb (is_mark c)) l.
Proof. unfold label_marks. apply re_sub_class. Qed.

Lemma filter_mark_free (s : str) :
  mark_free s -> filter (fun c => negb (is_mark c)) s = s.
Proof.
  induction 1 as [|c s Hc _ IH]; [reflexivity|].
  simpl. rewrite Hc. simpl. rewrite IH. reflexivity.
Qed.

Lemma filter_stars n : filter (fun c => negb (is_mark c)) (stars n) = [].
Proof. induction n as [|n IH]; [reflexivity|exact IH]. Qed.

(** Removing the marks from a starred label gives the lemma back, when
    the name of the lemma holds no mark. *)
Lemma label_key_starred (s : str) n :
  mark_free s -> re_sub label_marks [] (s ++ stars n) = s.
Proof.
  intro H. rewrite label_marks_filter, filter_app.
  rewrite (filter_mark_free H), filter_stars. apply app_nil_r.
Qed.

Lemma label_key_plain (s : str) :
  mark_free s -> re_sub label_marks [] s = s.
Proof.
  intro H. rewrite label_marks_filter. apply filter_mark_free, H.
Qed.

Lemma get_freq_run (g : globals) (labels : list str) :
  (forall l, In l labels ->
             dict_get (data g) (re_sub label_marks [] l) <> None) ->
  get_freq labels true g = (inr (map (with_freq (data g)) labels), g).
Proof.
  unfold get_freq. induction labels as [|l labels IH]; intro H;
    [reflexivity|].
  simpl map. apply map_m_cons_run.
  - erewrite bind_run by reflexivity.
    destruct (dict_get (data g) (re_sub label_marks [] l)) as [r|] eqn:E;
      [|exfalso; exact (H l (or_introl eq_refl) E)].
    erewrite bind_run by (unfold dict_item; rewrite E; reflexivity).
    unfold with_freq. rewrite E. reflexivity.
  - apply IH. intros l0 H0. apply H. now right.
Qed.

Lemma get_freq_missing (g : globals) (labels : list str) :
  (exists l, In l labels
             /\ dict_get (data g) (re_sub label_marks [] l) = None) ->
  get_freq labels true g = (inl KeyError, g).
Proof.
  unfold get_freq. induction labels as [|l labels IH];
    intros [l0 [Hin H0]]; [contradiction|].
  simpl map_m.
  destruct (dict_get (data g) (re_sub label_marks [] l)) as [r|] eqn:E.
  - erewrite bind_run.
    2:{ erewrite bind_run by reflexivity.
        erewrite bind_run by (unfold dict_item; rewrite E; reflexivity).
        reflexivity. }
    apply bind_raise. apply IH. exists l0. split; [|exact H0].
    destruct Hin as [->|Hin]; [congruence|exact Hin].
  - apply bind_raise. erewrite bind_run by reflexivity.
    apply bind_raise. unfold dict_item. rewrite E. reflexivity.
Qed.

Lemma filter_underscore (v : list str) :
  (if str_in (lit "_") v
   then filter (fun x => negb (str_eqb x (lit "_"))) v
   else v)
  = filter (fun x => negb (str_eqb x (lit "_"))) v.
Proof.
  destruct (str_in (lit "_") v) eqn:E; [reflexivity|].
  induction v as [|x v IH]; [reflexivity|].
  unfold str_in in E. simpl in E. apply orb_false_elim in E.
  destruct E as [E1 E2]. simpl.
  rewrite (str_eqb_sym x (lit "_")), E1. simpl. f_equal. apply IH, E2.
Qed.

Lemma for_each_print (ks : list str) (body : str -> M unit)
    (line : str -> str) d store :
  (forall k out,
     In k ks ->
     body k (mk_globals d store out)
     = (inr tt, mk_globals d store (out ++ [line k]))) ->
  forall out,
    for_each ks body (mk_globals d store out)
    = (inr tt, mk_globals d store (out ++ map line ks)).
Proof.
  induction ks as [|k ks IH]; intros H out.
  - simpl. rewrite app_nil_r. reflexivity.
  - simpl for_each. erewrite bind_run by (apply H; now left).
    rewrite IH by (intros k0 out0 H0; apply H; now right).
    simpl map. rewrite <- app_assoc. reflexivity.
Qed.

Lemma output_only_refl g : output_only g g.
Proof.
  repeat split. exists []. symmetry. apply app_nil_r.
Qed.

Lemma output_only_trans a b c :
  output_only a b -> output_only b c -> output_only a c.
Proof.
  intros [H1 [H2 [o1 H3]]] [H4 [H5 [o2 H6]]]. repeat split;
    try congruence.
  exists (o1 ++ o2). rewrite H6, H3. symmetry. apply app_assoc.
Qed.

Lemma output_only_print line : preserves output_only (print line).
Proof. intro g. repeat split. exists [line]. reflexivity. Qed.

Lemma preserves_eq_output_only {A} (m : M A) :
  preserves eq m -> preserves output_only m.
Proof. intros H g. rewrite <- (H g). apply output_only_refl. Qed.

End Reporter.

(** X22. For a lemma of the store whose name holds none of the
    characters that [get_freq] removes (en dash, asterisk, space,
    question mark, square brackets, ASCII digits), the label of the lemma
    with any number of asterisks is given the frequency of that lemma:
    removing the marks from the label leads back to the lemma. *)
Theorem get_freq_starred_label (g : globals) (s : str) (n : nat)
    (freq : Z) (xlit : list str) :
  mark_free s ->
  dict_get (data g) s = Some (freq, xlit) ->
  get_freq [s ++ stars n] true g
  = (inr [s ++ stars n ++ lit " (" ++ str_of_Z freq ++ lit ")"], g).
Proof.
  intros Hs Hrec. rewrite get_freq_run.
  - simpl map. unfold with_freq. rewrite (label_key_starred n Hs), Hrec.
    rewrite <- app_assoc. reflexivity.
  - intros l [<-|[]]. rewrite (label_key_starred n Hs), Hrec. discriminate.
Qed.

Lemma get_freq_starred_label_witness :
  get_freq [lit "Babilu**"] true (mk_globals [] store_3 [])
  = (inr [lit "Babilu** (2)"], mk_globals [] store_3 []).
Proof.
  apply (@get_freq_starred_label (mk_globals [] store_3 []) (lit "Babilu")
           2 2%Z [lit "A-B"]).
  - repeat constructor.
  - reflexivity.
Defined.

(** X23. [get_freq] looks a label up under its text without the marks:
    when that text is no lemma of the store, as for a lemma whose own
    name ends with a question mark, it raises [KeyError] and writes
    nothing. *)
Theorem get_freq_key_error (g : globals) (labels : list str) :
  (exists l, In l labels
             /\ dict_get (data g) (re_sub label_marks [] l) = None) ->
  get_freq labels true g = (inl KeyError, g).
Proof. apply get_freq_missing. Qed.

Lemma get_freq_key_error_witness :
  get_freq [lit "Aba?"] true
    (mk_globals [] [(lit "Aba?", (4%Z, [lit "a-ba"]))] [])
  = (inl KeyError, mk_globals [] [(lit "Aba?", (4%Z, [lit "a-ba"]))] []).
Proof.
  apply get_freq_key_error.
  exists (lit "Aba?"). split; [now left|reflexivity].
Defined.

(** X24. [print_results] writes neither the store nor the edge mapping:
    whether it returns or raises, it has only added lines to the
    output. *)
Theorem print_results_output_only (show_freqs : bool) (g : globals) :
  dictionary (snd (print_results show_freqs g)) = dictionary g
  /\ data (snd (print_results show_freqs g)) = data g
  /\ exists out,
       stdout (snd (print_results show_freqs g)) = stdout g ++ out.
Proof.
  assert (H : preserves output_only (print_results show_freqs)).
  { pose proof output_only_refl as Hr.
    pose proof output_only_trans as Ht.
    unfold print_results. cbv zeta.
    repeat first [frame_step | apply output_only_print
                 | apply preserves_eq_output_only, compare_xlits_readonly
                 | apply preserves_eq_output_only, get_freq_readonly]. }
  exact (H g).
Qed.

(** X25. When every key of the edge mapping and every candidate under it
    is a lemma of the store with a name free of marks, and no candidate
    list holds a lemma twice, [print_results] returns having printed one
    line per key, in the order of the keys: the key with its frequency,
    three tabs, and the labels of its candidates (the candidate named
    [_] left out) with their stars and frequencies, without repetition,
    in code point order, joined by [" | "]. *)
Theorem print_results_lines (g : globals) :
  (forall k, In k (dict_keys (dictionary g)) ->
     mark_free k
     /\ dict_get (data g) k <> None
     /\ NoDup (candidates (dictionary g) k)
     /\ forall s, In s (candidates (dictionary g) k) ->
          mark_free s /\ dict_get (data g) s <> None) ->
  print_results true g
  = (inr tt,
     mk_globals (dictionary g) (data g)
       (stdout g
        ++ map (fun k => report_line (data g) k
                           (candidates (dictionary g) k))
               (dict_keys (dictionary g)))).
Proof.
  destruct g as [d store out0]. simpl dictionary. simpl data.
  simpl stdout. intro H.
  unfold print_results. erewrite bind_run by reflexivity.
  apply for_each_print. intros k out Hk.
  destruct (H k Hk) as [Hmk [Hin [Hnd Hc]]].
  destruct (dict_get store k) as [[freq t_xlits]|] eqn:Hrec;
    [clear Hin|contradiction].
  assert (Hv : dict_get d k = Some (candidates d k)).
  { unfold candidates.
    destruct (dict_mem_true d k) as [v Hv];
      [apply str_in_In, Hk|]. rewrite Hv. reflexivity. }
  set (v := candidates d k) in *.
  set (results := filter (fun x => negb (str_eqb x (lit "_"))) v).
  assert (Hres : forall s, In s results ->
                           mark_free s /\ dict_get store s <> None).
  { intros s Hs. apply filter_In in Hs. apply Hc, Hs. }
  erewrite bind_run by reflexivity.
  erewrite bind_run
    by (unfold dict_item; simpl dictionary; rewrite Hv; reflexivity).
  cbv zeta. rewrite filter_underscore. fold results.
  erewrite bind_run.
  2:{ apply (@compare_xlits_run (mk_globals d store out) k freq t_xlits
               results Hrec).
      - apply NoDup_filter, Hnd.
      - intros s Hs. apply Hres, Hs. }
  erewrite bind_run.
  2:{ apply get_freq_run. intros l [<-|[]]. simpl data.
      rewrite (label_key_plain Hmk), Hrec. discriminate. }
  erewrite bind_run by reflexivity.
  erewrite bind_run.
  2:{ apply get_freq_run. intros l Hl. simpl data in *.
      unfold star_labels in Hl. destruct t_xlits as [|t ts];
        [contradiction|].
      apply in_map_iff in Hl. destruct Hl as [s [<- Hs]].
      destruct (Hres s Hs) as [Hms Hss].
      rewrite (label_key_starred _ Hms). exact Hss. }
  unfold print, report_line. simpl dictionary. simpl data. simpl stdout.
  fold v. fold results. unfold spellings. rewrite Hrec. reflexivity.
Qed.

Lemma print_results_lines_witness :
  print_results true (mk_globals edges_3 store_3 [])
  = (inr tt,
     mk_globals edges_3 store_3
       [lit "Babil (1)" ++ tab ++ tab ++ tab
        ++ lit "Babilu* (2) | Bubil (3)"]).
Proof.
  rewrite (@print_results_lines (mk_globals edges_3 store_3 [])).
  - reflexivity.
  - intros k [<-|[]]. split; [repeat constructor|].
    split; [discriminate|]. split; [apply nodupb_NoDup; reflexivity|].
    intros s [<-|[<-|[]]]; (split; [repeat constructor|discriminate]).
Defined.

(* ------------------------------------------------------------------ *)
(** ** The transitive merge *)
(* ------------------------------------------------------------------ *)

Section MergeBasics.

Lemma heap_set_length h a l : length (heap_set h a l) = length h.
Proof.
  revert a. induction h as [|x h IH]; intros [|a]; simpl; try reflexivity.
  rewrite IH. reflexivity.
Qed.

Lemma heap_set_same h a l :
  a < length h -> nth a (heap_set h a l) [] = l.
Proof.
  revert a. induction h as [|x h IH]; intros [|a]; simpl; try lia.
  - reflexivity.
  - intro H. apply IH. lia.
Qed.

Lemma heap_set_other h a b l :
  a <> b -> nth b (heap_set h a l) [] = nth b h [].
Proof.
  revert a b. induction h as [|x h IH]; intros [|a] [|b] H; simpl;
    try reflexivity; try congruence.
  apply IH. congruence.
Qed.

Lemma dict_get_keys {V} (d : dict V) k v :
  dict_get d k = Some v -> In k (dict_keys d).
Proof.
  intro H. apply dict_get_In in H. unfold dict_keys.
  change k with (fst (k, v)). apply in_map, H.
Qed.

Lemma dict_keys_get {V} (d : dict V) k :
  In k (dict_keys d) -> exists v, dict_get d k = Some v.
Proof. intro H. apply dict_mem_true, str_in_In, H. Qed.

Lemma dict_set_present_keys {V} (d : dict V) k v :
  In k (dict_keys d) -> dict_keys (dict_set d k v) = dict_keys d.
Proof.
  intro H. rewrite dict_set_keys.
  apply str_in_In in H. rewrite H. reflexivity.
Qed.

Lemma nth_error_inj (ks : list str) i j (k : str) :
  NoDup ks -> nth_error ks i = Some k -> nth_error ks j = Some k -> i = j.
Proof.
  intros Hnd Hi Hj. apply (proj1 (NoDup_nth_error ks) Hnd).
  - apply nth_error_Some. congruence.
  - congruence.
Qed.

Lemma weight_app a b : weight (a ++ b) = weight a + weight b.
Proof. unfold weight. rewrite map_app, list_sum_app. reflexivity. Qed.

Lemma weight_le l : weight l <= 2 * length l.
Proof.
  unfold weight. induction l as [|x l IH]; simpl; [lia|].
  unfold item_weight at 1. destruct (str_eqb x tomb); lia.
Qed.

Lemma skipn_nth_error {A} (l : list A) i x :
  nth_error l i = Some x -> skipn i l = x :: skipn (S i) l.
Proof.
  revert i. induction l as [|y l IH]; intros [|i]; simpl; try discriminate.
  - intros [= ->]. reflexivity.
  - intro H. rewrite (IH i H). reflexivity.
Qed.

Lemma list_sum_map_ext {A} (f g : A -> nat) l :
  (forall k, In k l -> g k = f k) ->
  list_sum (map g l) = list_sum (map f l).
Proof.
  induction l as [|x l IH]; intro H; simpl; [reflexivity|].
  rewrite IH by (intros k Hk; apply H; now right).
  rewrite (H x) by now left. reflexivity.
Qed.

Lemma list_sum_map_one (f g : str -> nat) (l : list str) (v : str) :
  NoDup l -> In v l ->
  (forall k, In k l -> k <> v -> g k = f k) ->
  g v = 0 ->
  list_sum (map g l) + f v = list_sum (map f l).
Proof.
  intros Hnd. induction Hnd as [|x l Hx Hnd IH]; intros Hin Hext Hv;
    [contradiction|].
  simpl. destruct Hin as [->|Hin].
  - rewrite Hv. rewrite (@list_sum_map_ext _ f g l); [lia|].
    intros k Hk. apply Hext; [now right|]. intros ->. contradiction.
  - rewrite (Hext x) by (try (now left); intros ->; contradiction).
    rewrite <- IH; [lia|exact Hin| |exact Hv].
    intros k Hk. apply Hext. now right.
Qed.

Lemma NoDup_skipn {A} (l : list A) n : NoDup l -> NoDup (skipn n l).
Proof.
  intro H. rewrite <- (firstn_skipn n l) in H.
  apply NoDup_app_remove_l in H. exact H.
Qed.

Lemma load_from_keys a d : dict_keys (load_from a d) = dict_keys d.
Proof.
  revert a. induction d as [|[k l] d IH]; intro a; simpl;
    [reflexivity|].
  f_equal. apply IH.
Qed.

Lemma load_from_get a d k v :
  dict_get (load_from a d) k = Some v ->
  exists q l,
    v = VRef (a + q) /\ nth_error d q = Some (k, l)
    /\ dict_get d k = Some l.
Proof.
  revert a. induction d as [|[k' l'] d IH]; intro a; simpl;
    [discriminate|].
  destruct (str_eqb k' k) eqn:E.
  - intros [= <-]. apply str_eqb_eq in E. subst k'.
    exists 0, l'. rewrite Nat.add_0_r. repeat split.
  - intro H. destruct (IH _ H) as [q [l [Hv [Hq Hl]]]].
    exists (S q), l. rewrite Nat.add_succ_r. repeat split; assumption.
Qed.

Lemma candidates_map_keys (d : dict (list str)) :
  NoDup (dict_keys d) -> map (candidates d) (dict_keys d) = map snd d.
Proof.
  induction d as [|[k l] d IH]; intro H; [reflexivity|].
  simpl in H. inversion H as [|? ? Hk Hd]; subst. simpl. f_equal.
  - unfold candidates. simpl. rewrite str_eqb_refl. reflexivity.
  - rewrite <- (IH Hd). apply map_ext_in. intros k' Hk'.
    unfold candidates. simpl.
    destruct (str_eqb k k') eqn:E; [|reflexivity].
    apply str_eqb_eq in E. subst. contradiction.
Qed.

Lemma list_sum_weight_le (ls : list (list str)) :
  list_sum (map weight ls) <= 2 * length (concat ls).
Proof.
  induction ls as [|l ls IH]; simpl; [lia|].
  rewrite length_app. pose proof (weight_le l). lia.
Qed.

End MergeBasics.

Section MergeRun.

Variable d : dict (list str).
Hypothesis Hnd : NoDup (dict_keys d).
Hypothesis Htomb : ~ In tomb (dict_keys d).

Let ks : list str := dict_keys d.

(** One merge, as the heap and the entries see it. *)
Lemma merge_step_views p st (key val : str) y :
  merge_inv d p st ->
  nth_error ks p = Some key ->
  dict_get (entries st) key = Some (VRef p) ->
  key <> val ->
  dict_get (entries st) val = Some y ->
  exists st',
    merge_step key val st = inr st'
    /\ dict_keys (entries st') = ks
    /\ length (heap st') = length ks
    /\ (forall k a, dict_get (entries st') k = Some (VRef a) ->
                    nth_error ks a = Some k)
    /\ (forall k s, dict_get (entries st') k = Some (VStr s) -> s = tomb)
    /\ dict_get (entries st') key = Some (VRef p)
    /\ nth p (heap st') [] = nth p (heap st) [] ++ iter_items (heap st) y
    /\ view st' val = Some (inr tomb)
    /\ (forall k, k <> key -> k <> val -> view st' k = view st k).
Proof.
  intros Hinv Hp Hkey Hne Hval.
  destruct Hinv as [Hkeys Hheap Hsep Htb _ _ _ _ _ _].
  fold ks in Hkeys, Hheap, Hsep.
  assert (Hplt : p < length (heap st)).
  { rewrite Hheap. apply nth_error_Some. congruence. }
  unfold merge_step. rewrite Hkey, Hval.
  eexists. split; [reflexivity|]. simpl entries. simpl heap.
  assert (Hget : forall k,
             dict_get (dict_set (dict_set (entries st) key (VRef p))
                                val (VStr (lit "_"))) k
             = if str_eqb k val then Some (VStr tomb)
               else dict_get (entries st) k).
  { intro k. destruct (str_eqb k val) eqn:E.
    - apply str_eqb_eq in E. subst k. apply dict_get_set_same.
    - apply str_eqb_neq in E.
      rewrite dict_get_set_other by congruence.
      destruct (str_eqb k key) eqn:E2.
      + apply str_eqb_eq in E2. subst k.
        rewrite dict_get_set_same. symmetry. exact Hkey.
      + apply str_eqb_neq in E2. apply dict_get_set_other. congruence. }
  repeat split.
  - rewrite !dict_set_present_keys; [exact Hkeys| |].
    + apply (dict_get_keys _ _ Hkey).
    + rewrite dict_set_present_keys by apply (dict_get_keys _ _ Hkey).
      apply (dict_get_keys _ _ Hval).
  - rewrite heap_set_length. exact Hheap.
  - intros k a. rewrite Hget. destruct (str_eqb k val); [discriminate|].
    apply Hsep.
  - intros k s. rewrite Hget. destruct (str_eqb k val).
    + intros [= <-]. reflexivity.
    + apply Htb.
  - rewrite Hget. apply str_eqb_neq in Hne. rewrite Hne. exact Hkey.
  - apply heap_set_same, Hplt.
  - unfold view. simpl entries. rewrite Hget, str_eqb_refl. reflexivity.
  - intros k Hk1 Hk2. unfold view. simpl entries. simpl heap.
    rewrite Hget. apply str_eqb_neq in Hk2. rewrite Hk2.
    destruct (dict_get (entries st) k) as [[a|s]|] eqn:E; try reflexivity.
    rewrite heap_set_other; [reflexivity|].
    intros ->. apply Hk1. apply Hsep in E. congruence.
Qed.


(** One merge keeps the invariant, and pays for what it appends. *)
Lemma merge_step_inv p st (key val : str) :
  merge_inv d p st ->
  nth_error ks p = Some key ->
  dict_get (entries st) key = Some (VRef p) ->
  In val (nth p (heap st) []) ->
  In val ks ->
  exists st' extra,
    merge_step key val st = inr st'
    /\ merge_inv d p st'
    /\ dict_get (entries st') key = Some (VRef p)
    /\ nth p (heap st') [] = nth p (heap st) [] ++ extra
    /\ weight extra + tail_weight ks (S p) st'
       <= tail_weight ks (S p) st + 1
    /\ view st' val = Some (inr tomb)
    /\ (forall k, view st k = Some (inr tomb) ->
                  view st' k = Some (inr tomb)).
Proof.
  intros Hinv Hp Hkey Hin Hval.
  destruct (Hinv) as [Ik Ih Isep Itb Ipre Ifwd Isrc Iabs Icov Icl].
  set (cur := nth p (heap st) []) in *.
  assert (Hvkey : view st key = Some (inl cur)).
  { unfold view. rewrite Hkey. reflexivity. }
  destruct (In_nth_error _ _ Hval) as [q Hq].
  assert (Hpq : p < q)
    by exact (Ifwd _ _ _ _ _ Hp Hvkey Hin Hq).
  assert (Hne : key <> val).
  { intros ->. pose proof (nth_error_inj _ _ Hnd Hp Hq). lia. }
  assert (Hval' : In val (dict_keys (entries st)))
    by (rewrite Ik; exact Hval).
  destruct (dict_keys_get _ _ Hval') as [y Hy].
  destruct (merge_step_views Hinv Hp Hkey Hne Hy)
    as [st' [Hstep [Hkeys' [Hheap' [Hsep' [Htb' [Hkey' [Hcur'
        [Hvval' Hother]]]]]]]]].
  fold cur in Hcur'.
  set (its := iter_items (heap st) y) in *.
  assert (Hvkey' : view st' key = Some (inl (cur ++ its))).
  { unfold view. rewrite Hkey', Hcur'. reflexivity. }
  (* what [val] held *)
  assert (Hy_cases :
            (view st val = Some (inl its)
             /\ key_weight st val = weight its)
            \/ (view st val = Some (inr tomb) /\ its = [tomb]
                /\ key_weight st val = 0)).
  { unfold key_weight, view. rewrite Hy. destruct y as [a|s].
    - left. split; reflexivity.
    - right. pose proof (Itb _ _ Hy) as E. subst s.
      repeat split. }
  (* the views after the merge *)
  assert (V1 : forall k l,
             view st' k = Some (inl l) ->
             (k = key /\ l = cur ++ its)
             \/ (k <> key /\ k <> val /\ view st k = Some (inl l))).
  { intros k l Hk. destruct (list_eq_dec N.eq_dec k key) as [->|Hk1].
    - left. split; [reflexivity|congruence].
    - destruct (list_eq_dec N.eq_dec k val) as [->|Hk2]; [congruence|].
      right. rewrite <- (Hother k Hk1 Hk2). auto. }
  assert (V2 : forall k,
             view st' k = Some (inr tomb) ->
             k = val
             \/ (k <> key /\ k <> val /\ view st k = Some (inr tomb))).
  { intros k Hk. destruct (list_eq_dec N.eq_dec k val) as [->|Hk2];
      [now left|].
    destruct (list_eq_dec N.eq_dec k key) as [->|Hk1]; [congruence|].
    right. rewrite <- (Hother k Hk1 Hk2). auto. }
  assert (P1 : forall r l,
             view st r = Some (inl l) -> r <> val ->
             exists l', view st' r = Some (inl l') /\ incl l l').
  { intros r l Hr Hrv. destruct (list_eq_dec N.eq_dec r key) as [->|Hr1].
    - exists (cur ++ its). split; [exact Hvkey'|].
      assert (l = cur) by congruence. subst l. apply incl_appl, incl_refl.
    - exists l. split; [|apply incl_refl].
      rewrite (Hother r Hr1 Hrv). exact Hr. }
  assert (P2 : forall k, view st k = Some (inr tomb) ->
                         view st' k = Some (inr tomb)).
  { intros k Hk. destruct (list_eq_dec N.eq_dec k val) as [->|Hk2];
      [exact Hvval'|].
    destruct (list_eq_dec N.eq_dec k key) as [->|Hk1]; [congruence|].
    rewrite (Hother k Hk1 Hk2). exact Hk. }
  assert (Hits_src : forall w, In w its ->
             w = tomb \/ exists j, In w (candidates d j)).
  { intros w Hw. destruct Hy_cases as [[Hl _]|[_ [E _]]].
    - exact (Isrc _ _ _ Hl Hw).
    - rewrite E in Hw. destruct Hw as [<-|[]]. now left. }
  assert (Hits_fwd : forall w j, In w its -> nth_error ks j = Some w ->
                                 q < j).
  { intros w j Hw Hj. destruct Hy_cases as [[Hl _]|[_ [E _]]].
    - exact (Ifwd _ _ _ _ _ Hq Hl Hw Hj).
    - rewrite E in Hw. destruct Hw as [<-|[]].
      exfalso. apply Htomb. apply (nth_error_In _ _ Hj). }
  exists st', its. split; [exact Hstep|]. split; [|split; [exact Hkey'|
    split; [exact Hcur'|split; [|split; [exact Hvval'|exact P2]]]]].
  - constructor.
    + exact Hkeys'.
    + exact Hheap'.
    + exact Hsep'.
    + exact Htb'.
    + intros k l Hk. destruct (V1 _ _ Hk) as [[-> ->]|[_ [_ Hold]]].
      * destruct (Ipre _ _ Hvkey) as [e He]. exists (e ++ its).
        rewrite He. symmetry. apply app_assoc.
      * exact (Ipre _ _ Hold).
    + intros q0 k l w j Hq0 Hk Hw Hj.
      destruct (V1 _ _ Hk) as [[-> ->]|[_ [_ Hold]]].
      * assert (q0 = p) by exact (nth_error_inj _ _ Hnd Hq0 Hp). subst q0.
        apply in_app_or in Hw. destruct Hw as [Hw|Hw].
        -- exact (Ifwd _ _ _ _ _ Hp Hvkey Hw Hj).
        -- pose proof (Hits_fwd _ _ Hw Hj). lia.
      * exact (Ifwd _ _ _ _ _ Hq0 Hold Hw Hj).
    + intros k l w Hk Hw.
      destruct (V1 _ _ Hk) as [[-> ->]|[_ [_ Hold]]].
      * apply in_app_or in Hw. destruct Hw as [Hw|Hw].
        -- exact (Isrc _ _ _ Hvkey Hw).
        -- exact (Hits_src _ Hw).
      * exact (Isrc _ _ _ Hold Hw).
    + intros k Hk. destruct (V2 _ Hk) as [->|[_ [_ Hold]]].
      * destruct (Isrc _ _ _ Hvkey Hin) as [E|H]; [|exact H].
        exfalso. apply Htomb. rewrite <- E. exact Hval.
      * exact (Iabs _ Hold).
    + intros k Hk.
      assert (Hold_cov : view st k = Some (inr tomb) ->
                exists q0 r l,
                  q0 <= p /\ nth_error (dict_keys d) q0 = Some r
                  /\ view st' r = Some (inl l)
                  /\ incl (candidates d k) l).
      { intro Hold.
        destruct (Icov _ Hold) as [q0 [r [l [Hq0 [Hr [Hl Hi]]]]]].
        assert (Hrv : r <> val).
        { intros ->. pose proof (nth_error_inj _ _ Hnd Hr Hq). lia. }
        destruct (P1 _ _ Hl Hrv) as [l' [Hl' Hi']].
        exists q0, r, l'. repeat split; try assumption.
        intros x Hx. apply Hi', Hi, Hx. }
      destruct (V2 _ Hk) as [->|[_ [_ Hold]]]; [|exact (Hold_cov Hold)].
      destruct Hy_cases as [[Hl _]|[Hl _]]; [|exact (Hold_cov Hl)].
      exists p, key, (cur ++ its). repeat split; try assumption; [lia|].
      destruct (Ipre _ _ Hl) as [e He]. rewrite He.
      apply incl_appr, incl_appl, incl_refl.
    + intros q0 r l w Hq0 Hr Hl Hw Hwk.
      destruct (V1 _ _ Hl) as [[-> _]|[_ [_ Hold]]].
      * pose proof (nth_error_inj _ _ Hnd Hr Hp). lia.
      * apply P2. exact (Icl _ _ _ _ Hq0 Hr Hold Hw Hwk).
  - (* the measure *)
    unfold tail_weight.
    assert (Hin_tail : In val (skipn (S p) ks))
      by (apply (proj2 (@In_skipn_position ks (S p) q val Hnd Hq)); lia).
    assert (Hkey_tail : forall k, In k (skipn (S p) ks) -> k <> key).
    { intros k Hk ->.
      apply (proj1 (@In_skipn_position ks (S p) p key Hnd Hp)) in Hk. lia. }
    rewrite <- (@list_sum_map_one (key_weight st) (key_weight st')
                  (skipn (S p) ks) val).
    + destruct Hy_cases as [[_ E]|[_ [E1 E2]]].
      * rewrite E. lia.
      * rewrite E1, E2. simpl. lia.
    + apply NoDup_skipn, Hnd.
    + exact Hin_tail.
    + intros k Hk Hkv. unfold key_weight.
      rewrite (Hother k (Hkey_tail k Hk) Hkv). reflexivity.
    + unfold key_weight. rewrite Hvval'. reflexivity.
Qed.


(** The key at position [p] is done once every key in its list is a
    tombstone. *)
Lemma merge_inv_next p st (key : str) :
  merge_inv d p st ->
  nth_error ks p = Some key ->
  (forall l w, view st key = Some (inl l) -> In w l -> In w ks ->
               view st w = Some (inr tomb)) ->
  merge_inv d (S p) st.
Proof.
  intros Hinv Hp Hcl.
  destruct Hinv as [Ik Ih Isep Itb Ipre Ifwd Isrc Iabs Icov Icl].
  constructor; try assumption.
  - intros k Hk. destruct (Icov k Hk) as [q [r [l [Hq H]]]].
    exists q, r, l. split; [lia|exact H].
  - intros q r l w Hq Hr Hl Hw Hwk.
    destruct (Nat.eq_dec q p) as [->|Hne].
    + assert (r = key) by (fold ks in Hr; congruence). subst r.
      exact (Hcl l w Hl Hw Hwk).
    + apply (Icl q r l w); try assumption. lia.
Qed.

(** The inner loop over the list of the key at position [p]. *)
Lemma merge_values_run p (key : str) :
  nth_error ks p = Some key ->
  forall fuel st i,
    merge_inv d p st ->
    dict_get (entries st) key = Some (VRef p) ->
    (forall i' w, i' < i ->
       nth_error (nth p (heap st) []) i' = Some w ->
       In w ks -> view st w = Some (inr tomb)) ->
    weight (skipn i (nth p (heap st) [])) + tail_weight ks (S p) st
      < fuel ->
    exists st',
      merge_values fuel key (VRef p) i st = (Returned, st')
      /\ merge_inv d (S p) st'
      /\ tail_weight ks (S p) st'
         <= weight (skipn i (nth p (heap st) []))
            + tail_weight ks (S p) st.
Proof.
  intro Hp. induction fuel as [|fuel IH]; intros st i Hinv Hkey Hdone Hfuel;
    [lia|].
  simpl merge_values.
  set (cur := nth p (heap st) []) in *.
  assert (Hvkey : view st key = Some (inl cur)).
  { unfold view. rewrite Hkey. reflexivity. }
  destruct (nth_error cur i) as [val|] eqn:Hval.
  - rewrite (skipn_nth_error _ _ Hval) in *.
    change (weight (val :: skipn (S i) cur))
      with (item_weight val + weight (skipn (S i) cur)) in *.
    assert (Hlen : S i <= length cur).
    { apply Nat.le_succ_l. apply nth_error_Some. congruence. }
    rewrite Nat.add_1_r.
    destruct (dict_mem val (entries st)) eqn:Hmem.
    + assert (Hvk : In val ks).
      { apply str_in_In in Hmem. rewrite (inv_keys Hinv) in Hmem.
        exact Hmem. }
      assert (Hw2 : item_weight val = 2).
      { unfold item_weight. destruct (str_eqb val tomb) eqn:E;
          [|reflexivity].
        apply str_eqb_eq in E. subst val. contradiction. }
      destruct (@merge_step_inv p st key val Hinv Hp Hkey
                  (nth_error_In _ _ Hval) Hvk)
        as [st' [extra [Hstep [Hinv' [Hkey' [Hcur' [Hm [Hvt Hpers]]]]]]]].
      fold cur in Hcur'. rewrite Hstep.
      destruct (IH st' (S i) Hinv' Hkey') as [st'' [Hrun [Hinv'' Hm'']]].
      * rewrite Hcur'. intros i' w Hi' Hw Hwk.
        rewrite nth_error_app1 in Hw by lia.
        destruct (Nat.eq_dec i' i) as [->|Hne].
        -- assert (w = val) by congruence. subst w. exact Hvt.
        -- apply Hpers. apply (Hdone i' w); try assumption. lia.
      * rewrite Hcur', skipn_app, weight_app.
        replace (S i - length cur) with 0 by lia.
        change (skipn 0 extra) with extra. lia.
      * exists st''. split; [exact Hrun|]. split; [exact Hinv''|].
        rewrite Hcur', skipn_app, weight_app in Hm''.
        replace (S i - length cur) with 0 in Hm'' by lia.
        change (skipn 0 extra) with extra in Hm''. lia.
    + assert (Hvk : ~ In val ks).
      { intro H. unfold ks in H. rewrite <- (inv_keys Hinv) in H.
        apply str_in_In in H. unfold dict_mem in Hmem. congruence. }
      assert (Hw1 : 1 <= item_weight val).
      { unfold item_weight. destruct (str_eqb val tomb); lia. }
      destruct (IH st (S i) Hinv Hkey) as [st'' [Hrun [Hinv'' Hm'']]].
      * fold cur. intros i' w Hi' Hw Hwk.
        destruct (Nat.eq_dec i' i) as [->|Hne].
        -- assert (w = val) by congruence. subst w. contradiction.
        -- apply (Hdone i' w); try assumption. lia.
      * fold cur. lia.
      * exists st''. split; [exact Hrun|]. split; [exact Hinv''|].
        fold cur in Hm''. lia.
  - exists st. split; [reflexivity|]. split; [|lia].
    apply (@merge_inv_next p st key Hinv Hp).
    intros l w Hl Hw Hwk.
    assert (l = cur) by congruence. subst l.
    destruct (In_nth_error _ _ Hw) as [i' Hi'].
    apply (Hdone i' w); try assumption.
    apply nth_error_None in Hval.
    assert (i' < length cur) by (apply nth_error_Some; congruence). lia.
Qed.

(** The outer loop, from the position [p] on. *)
Lemma merge_keys_run fuel :
  forall rest p st,
    skipn p ks = rest ->
    merge_inv d p st ->
    tail_weight ks p st + 2 <= fuel ->
    exists st' p',
      merge_keys fuel rest st = (Returned, st')
      /\ length ks <= p'
      /\ merge_inv d p' st'.
Proof.
  induction rest as [|key rest IH]; intros p st Hrest Hinv Hfuel.
  - exists st, p. split; [reflexivity|]. split; [|exact Hinv].
    pose proof (length_skipn p ks) as H. rewrite Hrest in H. simpl in H.
    lia.
  - assert (Hp : nth_error ks p = Some key).
    { pose proof (nth_error_skipn p ks 0) as H.
      rewrite Hrest, Nat.add_0_r in H. simpl in H. congruence. }
    assert (Hrest' : skipn (S p) ks = rest).
    { rewrite (skipn_nth_error _ _ Hp) in Hrest. congruence. }
    assert (Htail : tail_weight ks p st
                    = key_weight st key + tail_weight ks (S p) st).
    { unfold tail_weight. rewrite (skipn_nth_error _ _ Hp). reflexivity. }
    assert (Hk : In key (dict_keys (entries st))).
    { rewrite (inv_keys Hinv). apply (nth_error_In _ _ Hp). }
    destruct (dict_keys_get _ _ Hk) as [v Hv].
    simpl merge_keys. rewrite Hv. destruct v as [a|s].
    + assert (a = p).
      { apply (nth_error_inj _ _ Hnd (inv_sep Hinv _ Hv) Hp). }
      subst a.
      destruct (@merge_values_run p key Hp fuel st 0 Hinv Hv)
        as [st' [Hrun [Hinv' Hm]]].
      * intros i' w Hi'. lia.
      * simpl skipn. unfold key_weight, view in Htail.
        rewrite Hv in Htail. lia.
      * rewrite Hrun. apply (IH (S p) st' Hrest' Hinv').
        simpl skipn in Hm. unfold key_weight, view in Htail.
        rewrite Hv in Htail. lia.
    + pose proof (inv_tomb Hinv _ Hv) as E. subst s.
      assert (Hnk : dict_mem tomb (entries st) = false).
      { unfold dict_mem. destruct (str_in tomb (dict_keys (entries st)))
          eqn:E; [|reflexivity].
        apply str_in_In in E. rewrite (inv_keys Hinv) in E.
        contradiction. }
      destruct fuel as [|[|fuel]]; try lia.
      assert (Hrun : merge_values (S (S fuel)) key (VStr tomb) 0 st
                     = (Returned, st)).
      { simpl. change (dict_mem [95%N] (entries st))
          with (dict_mem tomb (entries st)).
        rewrite Hnk. reflexivity. }
      rewrite Hrun. apply (IH (S p) st Hrest').
      * apply (@merge_inv_next p st key Hinv Hp).
        intros l w Hl. unfold view in Hl. rewrite Hv in Hl. discriminate.
      * lia.
Qed.


(** What a freshly loaded edge mapping holds. *)
Lemma load_edges_view (k : str) x :
  view (load_edges d) k = Some x -> x = inl (candidates d k).
Proof.
  unfold view. simpl entries. simpl heap.
  destruct (dict_get (load_from 0 d) k) as [v|] eqn:E; [|discriminate].
  destruct (load_from_get _ _ _ E) as [q [l [-> [Hq Hl]]]]. simpl.
  intros [= <-]. f_equal. unfold candidates. rewrite Hl.
  apply nth_error_nth.
  change l with (snd (k, l)). apply map_nth_error, Hq.
Qed.

Lemma load_edges_inv : forward d -> merge_inv d 0 (load_edges d).
Proof.
  intro Hfwd. constructor.
  - apply load_from_keys.
  - simpl. unfold dict_keys. rewrite !length_map. reflexivity.
  - intros k a E. simpl in E.
    destruct (load_from_get _ _ _ E) as [q [l [Hv [Hq _]]]].
    injection Hv as ->. simpl. unfold dict_keys.
    change k with (fst (k, l)). apply map_nth_error, Hq.
  - intros k s E. simpl in E.
    destruct (load_from_get _ _ _ E) as [q [l [Hv _]]]. discriminate.
  - intros k l Hk. apply load_edges_view in Hk. injection Hk as ->.
    exists []. symmetry. apply app_nil_r.
  - intros q k l w j Hq Hk Hw Hj. apply load_edges_view in Hk.
    injection Hk as ->. exact (Hfwd q j k w Hq Hj Hw).
  - intros k l w Hk Hw. apply load_edges_view in Hk. injection Hk as ->.
    right. exists k. exact Hw.
  - intros k Hk. apply load_edges_view in Hk. discriminate.
  - intros k Hk. apply load_edges_view in Hk. discriminate.
  - intros q r l w Hq. lia.
Qed.

Lemma load_edges_weight :
  tail_weight ks 0 (load_edges d) <= 2 * length (concat (map snd d)).
Proof.
  unfold tail_weight. simpl skipn.
  rewrite (@list_sum_map_ext _ (fun k => weight (candidates d k))).
  - rewrite <- (map_map (candidates d) weight).
    unfold ks. rewrite (@candidates_map_keys d Hnd).
    apply list_sum_weight_le.
  - intros k Hk. unfold key_weight.
    destruct (view (load_edges d) k) as [x|] eqn:E.
    + rewrite (load_edges_view _ E). reflexivity.
    + exfalso. unfold view in E.
      assert (Hk' : In k (dict_keys (entries (load_edges d))))
        by (simpl; rewrite load_from_keys; exact Hk).
      destruct (dict_keys_get _ _ Hk') as [v Hv]. rewrite Hv in E.
      destruct v; discriminate.
Qed.

(** The run of [merge_entries] on a forward edge mapping. *)
Lemma merge_entries_run fuel :
  forward d ->
  2 * length (concat (map snd d)) + 2 <= fuel ->
  exists st' p',
    merge_entries fuel (load_edges d) = (Returned, st')
    /\ length ks <= p'
    /\ merge_inv d p' st'.
Proof.
  intros Hfwd Hfuel. unfold merge_entries. simpl entries.
  rewrite load_from_keys.
  apply (@merge_keys_run fuel (dict_keys d) 0 (load_edges d)).
  - reflexivity.
  - apply load_edges_inv, Hfwd.
  - pose proof load_edges_weight. lia.
Qed.

(** What the invariant says once every key is done. *)
Lemma merge_inv_absorbed p st (k : str) :
  length ks <= p -> merge_inv d p st ->
  In k ks -> (exists j, In k (candidates d j)) ->
  view st k = Some (inr tomb).
Proof.
  intros Hp Hinv Hk [j Hj].
  destruct Hinv as [Ik Ih Isep Itb Ipre Ifwd Isrc Iabs Icov Icl].
  assert (Hlist : forall q r l, nth_error ks q = Some r ->
             view st r = Some (inl l) -> In k l ->
             view st k = Some (inr tomb)).
  { intros q r l Hq Hr Hl. apply (Icl q r l k); try assumption.
    assert (q < length ks) by (apply nth_error_Some; congruence). lia. }
  assert (Hjk : In j ks).
  { unfold candidates in Hj. destruct (dict_get d j) as [l|] eqn:E;
      [|contradiction]. apply (dict_get_keys _ _ E). }
  destruct (In_nth_error _ _ Hjk) as [q Hq].
  assert (Hjk' : In j (dict_keys (entries st))) by (rewrite Ik; exact Hjk).
  destruct (dict_keys_get _ _ Hjk') as [v Hv].
  destruct v as [a|s].
  - assert (Hvj : view st j = Some (inl (nth a (heap st) []))).
    { unfold view. rewrite Hv. reflexivity. }
    destruct (Ipre _ _ Hvj) as [e He].
    apply (Hlist q j _ Hq Hvj). rewrite He. apply in_or_app. now left.
  - pose proof (Itb _ _ Hv) as E. subst s.
    assert (Hvj : view st j = Some (inr tomb)).
    { unfold view. rewrite Hv. reflexivity. }
    destruct (Icov _ Hvj) as [q0 [r [l [_ [Hr [Hl Hi]]]]]].
    apply (Hlist q0 r l Hr Hl). apply Hi, Hj.
Qed.

Lemma merge_inv_root p st (k : str) :
  merge_inv d p st ->
  In k ks -> (forall j, ~ In k (candidates d j)) ->
  exists extra, view st k = Some (inl (candidates d k ++ extra)).
Proof.
  intros Hinv Hk Hroot.
  destruct Hinv as [Ik Ih Isep Itb Ipre Ifwd Isrc Iabs Icov Icl].
  assert (Hk' : In k (dict_keys (entries st))) by (rewrite Ik; exact Hk).
  destruct (dict_keys_get _ _ Hk') as [v Hv].
  destruct v as [a|s].
  - assert (Hvk : view st k = Some (inl (nth a (heap st) []))).
    { unfold view. rewrite Hv. reflexivity. }
    destruct (Ipre _ _ Hvk) as [e He]. exists e. rewrite <- He. exact Hvk.
  - pose proof (Itb _ _ Hv) as E. subst s.
    assert (Hvk : view st k = Some (inr tomb)).
    { unfold view. rewrite Hv. reflexivity. }
    destruct (Iabs _ Hvk) as [j Hj]. exfalso. exact (Hroot j Hj).
Qed.

Lemma merge_inv_kept p st (j w : str) :
  merge_inv d p st ->
  In w (candidates d j) ->
  exists r l, view st r = Some (inl l) /\ In w l.
Proof.
  intros Hinv Hw.
  destruct Hinv as [Ik Ih Isep Itb Ipre Ifwd Isrc Iabs Icov Icl].
  assert (Hjk : In j ks).
  { unfold candidates in Hw. destruct (dict_get d j) as [l|] eqn:E;
      [|contradiction]. apply (dict_get_keys _ _ E). }
  assert (Hjk' : In j (dict_keys (entries st))) by (rewrite Ik; exact Hjk).
  destruct (dict_keys_get _ _ Hjk') as [v Hv].
  destruct v as [a|s].
  - assert (Hvj : view st j = Some (inl (nth a (heap st) []))).
    { unfold view. rewrite Hv. reflexivity. }
    destruct (Ipre _ _ Hvj) as [e He].
    exists j, (nth a (heap st) []). split; [exact Hvj|].
    rewrite He. apply in_or_app. now left.
  - pose proof (Itb _ _ Hv) as E. subst s.
    assert (Hvj : view st j = Some (inr tomb)).
    { unfold view. rewrite Hv. reflexivity. }
    destruct (Icov _ Hvj) as [q0 [r [l [_ [_ [Hl Hi]]]]]].
    exists r, l. split; [exact Hl|]. apply Hi, Hw.
Qed.

End MergeRun.

Section MergeFrame.

Lemma merge_step_keys key val st st' :
  merge_step key val st = inr st' ->
  dict_keys (entries st') = dict_keys (entries st)
  /\ length (heap st') = length (heap st).
Proof.
  unfold merge_step.
  destruct (dict_get (entries st) key) as [x|] eqn:Hx; [|discriminate].
  destruct (dict_get (entries st) val) as [y|] eqn:Hy; [|discriminate].
  assert (Hk : forall v w,
             dict_keys (dict_set (dict_set (entries st) key v) val w)
             = dict_keys (entries st)).
  { intros v w. rewrite !dict_set_present_keys; [reflexivity| |].
    - apply (dict_get_keys _ _ Hx).
    - rewrite dict_set_present_keys by apply (dict_get_keys _ _ Hx).
      apply (dict_get_keys _ _ Hy). }
  destruct x as [a|s].
  - intros [= <-]. simpl. split; [apply Hk|apply heap_set_length].
  - destruct y as [b|t]; [discriminate|].
    intros [= <-]. simpl. split; [apply Hk|reflexivity].
Qed.

Lemma merge_values_keys fuel key obj :
  forall i st,
    dict_keys (entries (snd (merge_values fuel key obj i st)))
    = dict_keys (entries st)
    /\ length (heap (snd (merge_values fuel key obj i st)))
       = length (heap st).
Proof.
  induction fuel as [|fuel IH]; intros i st; simpl; [split; reflexivity|].
  destruct (nth_error (iter_items (heap st) obj) i) as [val|];
    [|split; reflexivity].
  destruct (dict_mem val (entries st)); [|apply IH].
  destruct (merge_step key val st) as [e|st'] eqn:E; [split; reflexivity|].
  destruct (merge_step_keys _ _ _ E) as [H1 H2].
  destruct (IH (i + 1) st') as [H3 H4]. split; congruence.
Qed.

Lemma merge_keys_keys fuel keys :
  forall st,
    dict_keys (entries (snd (merge_keys fuel keys st)))
    = dict_keys (entries st)
    /\ length (heap (snd (merge_keys fuel keys st))) = length (heap st).
Proof.
  induction keys as [|key keys IH]; intro st; simpl; [split; reflexivity|].
  destruct (dict_get (entries st) key) as [obj|]; [|split; reflexivity].
  pose proof (merge_values_keys fuel key obj 0 st) as H.
  destruct (merge_values fuel key obj 0 st) as [[| | |] st'];
    simpl in H; try exact H.
  destruct (IH st') as [H1 H2]. destruct H as [H3 H4]. split; congruence.
Qed.

End MergeFrame.

Lemma forwardb_forward (d : dict (list str)) :
  NoDup (dict_keys d) -> forwardb d = true -> forward d.
Proof.
  intros Hnd H p q w1 w2 Hp Hq Hin. unfold forwardb in H.
  rewrite forallb_forall in H.
  specialize (H w1 (nth_error_In _ _ Hp)).
  rewrite (@index_nth_error _ p w1 Hnd Hp) in H.
  rewrite forallb_forall in H. specialize (H w2 Hin).
  rewrite (@index_nth_error _ q w2 Hnd Hq) in H.
  apply Nat.ltb_lt, H.
Qed.

(** X26. On an edge mapping with distinct keys whose candidates, where
    they are keys themselves, stand after their key, and in which no
    lemma is named [_], [merge_entries] returns (every inner loop within
    twice the number of candidates, plus two, turns), keeps the keys, and
    leaves the tombstone ['_'] under exactly the keys that were a
    candidate of some key; every other key keeps its own candidates at
    the head of its list. *)
Theorem merge_entries_absorbs (d : dict (list str)) (fuel : nat) :
  NoDup (dict_keys d) ->
  ~ In tomb (dict_keys d) ->
  forward d ->
  2 * length (concat (map snd d)) + 2 <= fuel ->
  exists st',
    merge_entries fuel (load_edges d) = (Returned, st')
    /\ dict_keys (entries st') = dict_keys d
    /\ forall k,
         In k (dict_keys d) ->
         ((exists j, In k (candidates d j)) ->
          view st' k = Some (inr tomb))
         /\ ((forall j, ~ In k (candidates d j)) ->
             exists extra,
               view st' k = Some (inl (candidates d k ++ extra))).
Proof.
  intros Hnd Htomb Hfwd Hfuel.
  destruct (@merge_entries_run d Hnd Htomb fuel Hfwd Hfuel)
    as [st' [p' [Hrun [Hp' Hinv]]]].
  exists st'. split; [exact Hrun|]. split; [exact (inv_keys Hinv)|].
  intros k Hk. split.
  - intro Hj. eapply merge_inv_absorbed; eassumption.
  - intro Hj. eapply merge_inv_root; eassumption.
Qed.

Lemma merge_entries_absorbs_witness :
  exists st',
    merge_entries 8 (load_edges edges_chain) = (Returned, st')
    /\ view st' (lit "Babilu") = Some (inr tomb)
    /\ exists extra,
         view st' (lit "Babil")
         = Some (inl ([lit "Babilu"; lit "Bubil"] ++ extra)).
Proof.
  assert (Hnd : NoDup (dict_keys edges_chain))
    by (apply nodupb_NoDup; reflexivity).
  destruct (@merge_entries_absorbs edges_chain 8 Hnd)
    as [st' [Hrun [_ H]]].
  - simpl. intros [E|[E|[]]]; discriminate.
  - apply (@forwardb_forward edges_chain Hnd). reflexivity.
  - simpl. lia.
  - exists st'. split; [exact Hrun|]. split.
    + apply (H (lit "Babilu")); [simpl; tauto|].
      exists (lit "Babil"). simpl. tauto.
    + apply (H (lit "Babil")); [simpl; tauto|].
      intros j Hj. unfold candidates in Hj. simpl in Hj.
      destruct (str_eqb _ j); [|destruct (str_eqb _ j)];
        simpl in Hj; intuition discriminate.
Defined.

(** X27. Under the same conditions the merge loses no candidate and
    invents none: every candidate of the mapping is, after the run, in
    the list of some key that was not absorbed, and every item of such a
    list is a candidate of the mapping or the tombstone. *)
Theorem merge_entries_keeps_candidates (d : dict (list str))
    (fuel : nat) :
  NoDup (dict_keys d) ->
  ~ In tomb (dict_keys d) ->
  forward d ->
  2 * length (concat (map snd d)) + 2 <= fuel ->
  exists st',
    merge_entries fuel (load_edges d) = (Returned, st')
    /\ (forall j w,
          In w (candidates d j) ->
          exists r l, view st' r = Some (inl l) /\ In w l)
    /\ (forall r l w,
          view st' r = Some (inl l) -> In w l ->
          w = tomb \/ exists j, In w (candidates d j)).
Proof.
  intros Hnd Htomb Hfwd Hfuel.
  destruct (@merge_entries_run d Hnd Htomb fuel Hfwd Hfuel)
    as [st' [p' [Hrun [Hp' Hinv]]]].
  exists st'. split; [exact Hrun|]. split.
  - intros j w Hw. eapply merge_inv_kept; eassumption.
  - destruct Hinv as [_ _ _ _ _ _ Isrc _ _ _]. exact Isrc.
Qed.

Lemma merge_entries_keeps_candidates_witness :
  exists st' r l,
    merge_entries 8 (load_edges edges_chain) = (Returned, st')
    /\ view st' r = Some (inl l) /\ In (lit "Babitu") l.
Proof.
  assert (Hnd : NoDup (dict_keys edges_chain))
    by (apply nodupb_NoDup; reflexivity).
  destruct (@merge_entries_keeps_candidates edges_chain 8 Hnd)
    as [st' [Hrun [H _]]].
  - simpl. intros [E|[E|[]]]; discriminate.
  - apply (@forwardb_forward edges_chain Hnd). reflexivity.
  - simpl. lia.
  - destruct (H (lit "Babilu") (lit "Babitu")) as [r [l Hr]];
      [simpl; tauto|].
    exists st', r, l. split; [exact Hrun|exact Hr].
Defined.

(** X28. Whatever the mapping holds, lists shared between keys
    included, and however the run ends, [merge_entries] neither adds nor
    removes a key, and allocates no list: an absorbed lemma stays in the
    mapping as a key. *)
Theorem merge_entries_keeps_keys (fuel : nat) (st : merge_state) :
  dict_keys (entries (snd (merge_entries fuel st)))
  = dict_keys (entries st)
  /\ length (heap (snd (merge_entries fuel st))) = length (heap st).
Proof. unfold merge_entries. apply merge_keys_keys. Qed.

(* ------------------------------------------------------------------ *)
(** ** The keys of the edge mapping, and the merge after [compare] *)
(* ------------------------------------------------------------------ *)

Section CompareKeys.

Lemma add_edge_keys (d : dict (list str)) (w1 w2 : str) :
  dict_keys (add_edge d w1 w2)
  = dict_keys d ++ (if dict_mem w1 d then [] else [w1]).
Proof.
  unfold add_edge. destruct (dict_get d w1) as [v|] eqn:E.
  - pose proof (dict_get_keys _ _ E) as Hin.
    rewrite dict_set_present_keys by exact Hin.
    unfold dict_mem. apply str_in_In in Hin. rewrite Hin.
    symmetry. apply app_nil_r.
  - rewrite dict_set_new by exact E. unfold dict_keys at 1.
    rewrite map_app. simpl.
    destruct (dict_mem w1 d) eqn:M; [|reflexivity].
    destruct (dict_mem_true _ _ M) as [v Hv]. congruence.
Qed.

Lemma add_edge_mem (d : dict (list str)) (w1 w2 : str) :
  dict_mem w1 (add_edge d w1 w2) = true.
Proof.
  unfold dict_mem. apply str_in_In. rewrite add_edge_keys.
  apply in_or_app. destruct (dict_mem w1 d) eqn:M.
  - left. apply str_in_In, M.
  - right. now left.
Qed.

Lemma compare_pairs_keys (w1 : str) (ws : list str) :
  forall g,
    dict_keys (dictionary (snd (for_each ws (compare_pair w1) g)))
    = dict_keys (dictionary g)
      ++ (if dict_mem w1 (dictionary g) then []
          else match filter (is_candidate w1) ws with
               | [] => []
               | _ :: _ => [w1]
               end).
Proof.
  induction ws as [|w2 ws IH]; intro g.
  - simpl. destruct (dict_mem w1 (dictionary g)); symmetry;
      apply app_nil_r.
  - simpl for_each. unfold bind. rewrite compare_pair_run.
    rewrite IH. simpl dictionary. simpl filter.
    destruct (is_candidate w1 w2).
    + rewrite add_edge_mem, add_edge_keys, app_nil_r.
      destruct (dict_mem w1 (dictionary g)); reflexivity.
    + reflexivity.
Qed.

Lemma compare_row_keys (keys : list str) m (w1 : str) g :
  In w1 keys ->
  dict_keys (dictionary (snd (compare_row keys m w1 g)))
  = dict_keys (dictionary g)
    ++ (if dict_mem w1 (dictionary g) then []
        else if has_candidates keys w1 then [w1] else []).
Proof.
  intro Hin. unfold compare_row, has_candidates, edges_of.
  assert (Hi : exists i, index keys w1 = Some i).
  { clear -Hin. induction keys as [|y keys IH]; [contradiction|]. simpl.
    destruct (str_eqb y w1) eqn:E; [eauto|].
    apply str_eqb_neq in E. destruct Hin as [->|Hin]; [congruence|].
    destruct (IH Hin) as [i ->]. simpl. eauto. }
  destruct Hi as [i Hi]. rewrite Hi. unfold bind at 1. simpl lift_opt.
  unfold ret at 1. cbv beta iota. unfold bind at 1.
  set (pr := if range_contains i m then _ else _).
  assert (Hp : exists out,
             pr g = (inr tt, mk_globals (dictionary g) (data g) out)).
  { subst pr. destruct (range_contains i m).
    - eexists. reflexivity.
    - exists (stdout g). destruct g. reflexivity. }
  destruct Hp as [out Hp]. rewrite Hp. rewrite compare_pairs_keys.
  simpl dictionary.
  destruct (filter (is_candidate w1) (skipn (i + 1) keys)); reflexivity.
Qed.

Lemma compare_rows_keys (keys : list str) m (ws : list str) :
  (forall w, In w ws -> In w keys) ->
  NoDup ws ->
  forall g,
    (forall w, In w ws -> ~ In w (dict_keys (dictionary g))) ->
    dict_keys (dictionary (snd (for_each ws (compare_row keys m) g)))
    = dict_keys (dictionary g) ++ filter (has_candidates keys) ws.
Proof.
  intros Hsub Hnd. induction Hnd as [|w1 ws Hw1 Hnd IH]; intros g Hnew.
  - simpl. symmetry. apply app_nil_r.
  - simpl for_each. unfold bind.
    pose proof (@compare_row_keys keys m w1 g (Hsub w1 (or_introl eq_refl)))
      as Hk.
    destruct (@compare_row_run keys m w1 g (Hsub w1 (or_introl eq_refl)))
      as [d1 [out1 [Hrow _]]].
    rewrite Hrow in *. simpl snd in Hk. simpl dictionary in Hk.
    assert (Hm : dict_mem w1 (dictionary g) = false).
    { unfold dict_mem. destruct (str_in w1 (dict_keys (dictionary g)))
        eqn:E; [|reflexivity].
      apply str_in_In in E. exfalso. apply (Hnew w1); [now left|exact E]. }
    rewrite Hm in Hk.
    rewrite IH.
    + simpl dictionary. rewrite Hk. simpl filter.
      destruct (has_candidates keys w1); rewrite <- app_assoc; reflexivity.
    + intros w Hw. apply Hsub. now right.
    + intros w Hw. simpl dictionary. rewrite Hk. intro H.
      apply in_app_or in H. destruct H as [H|H].
      * apply (Hnew w); [now right|exact H].
      * destruct (has_candidates keys w1); [|contradiction].
        destruct H as [<-|[]]. contradiction.
Qed.

(** The keys of the edge mapping after [compare]. *)
Lemma compare_keys (dict_data : dict record) (g : globals) :
  NoDup (dict_keys dict_data) ->
  100 <= length (dict_keys dict_data) ->
  dictionary g = [] ->
  dict_keys (dictionary (snd (compare dict_data g)))
  = filter (has_candidates (dict_keys dict_data)) (dict_keys dict_data).
Proof.
  intros Hnd Hlen Hempty. unfold compare. cbv zeta.
  set (keys := dict_keys dict_data) in *.
  unfold bind at 1. unfold print at 1. cbv beta iota.
  unfold bind at 1. unfold range_.
  assert (Hstep : length keys / 100 <> 0).
  { intro H0. apply Nat.div_small_iff in H0; lia. }
  apply Nat.eqb_neq in Hstep. rewrite Hstep. unfold ret at 1.
  cbv beta iota.
  rewrite compare_rows_keys.
  - simpl dictionary. rewrite Hempty. reflexivity.
  - auto.
  - exact Hnd.
  - intros w _. simpl dictionary. rewrite Hempty. simpl. tauto.
Qed.

(** A filter keeps the order of a list without repetition. *)
Lemma filter_order (f : str -> bool) (l : list str) :
  NoDup l ->
  forall p q i j (a b : str),
    nth_error (filter f l) p = Some a ->
    nth_error (filter f l) q = Some b ->
    nth_error l i = Some a ->
    nth_error l j = Some b ->
    i < j ->
    p < q.
Proof.
  induction 1 as [|x l Hx Hnd IH]; intros p q i j a b Hp Hq Hi Hj Hij.
  - destruct i; discriminate.
  - assert (Hfl : forall n c, nth_error (filter f l) n = Some c -> c <> x).
    { intros n c Hn ->. apply nth_error_In in Hn.
      apply filter_In in Hn. tauto. }
    destruct j as [|j]; [lia|]. simpl in Hj.
    assert (Hb : b <> x).
    { intros ->. apply nth_error_In in Hj. contradiction. }
    simpl in Hp, Hq. destruct (f x).
    + destruct q as [|q]; [simpl in Hq; congruence|]. simpl in Hq.
      destruct p as [|p]; [lia|]. simpl in Hp.
      destruct i as [|i].
      * simpl in Hi. exfalso. apply (Hfl p a Hp). congruence.
      * simpl in Hi. apply -> Nat.succ_lt_mono.
        apply (IH p q i j a b); try assumption. lia.
    + destruct i as [|i].
      * simpl in Hi. exfalso. apply (Hfl p a Hp). congruence.
      * simpl in Hi. apply (IH p q i j a b); try assumption. lia.
Qed.

(** The edge mapping that [compare] builds from nothing has distinct
    keys, all of them lemmas of the store, and is forward. *)
Lemma compare_output_forward (dict_data : dict record) (g : globals) :
  NoDup (dict_keys dict_data) ->
  100 <= length (dict_keys dict_data) ->
  dictionary g = [] ->
  exists g',
    compare dict_data g = (inr tt, g')
    /\ dict_keys (dictionary g')
       = filter (has_candidates (dict_keys dict_data))
                (dict_keys dict_data)
    /\ NoDup (dict_keys (dictionary g'))
    /\ forward (dictionary g').
Proof.
  intros Hnd Hlen Hempty.
  destruct (@compare_candidates dict_data g Hnd Hlen)
    as [g' [Hrun [_ Hc]]].
  pose proof (@compare_keys dict_data g Hnd Hlen Hempty) as Hk.
  rewrite Hrun in Hk. simpl snd in Hk.
  exists g'. split; [exact Hrun|]. split; [exact Hk|]. split.
  - rewrite Hk. apply NoDup_filter, Hnd.
  - intros p q w1 w2 Hp Hq Hin. rewrite Hk in Hp, Hq.
    assert (H1 : In w1 (dict_keys dict_data)).
    { apply nth_error_In in Hp. apply filter_In in Hp. tauto. }
    assert (H2 : In w2 (dict_keys dict_data)).
    { apply nth_error_In in Hq. apply filter_In in Hq. tauto. }
    destruct (In_nth_error _ _ H1) as [i Hi].
    destruct (In_nth_error _ _ H2) as [j Hj].
    apply (@filter_order _ _ Hnd p q i j w1 w2 Hp Hq Hi Hj).
    rewrite Hc, Hempty in Hin. simpl in Hin.
    rewrite (@edges_of_position _ i w1 Hnd Hi) in Hin.
    apply filter_In in Hin. destruct Hin as [Hin _].
    apply (proj1 (@In_skipn_position _ (i + 1) j w2 Hnd Hj)) in Hin. lia.
Qed.

End CompareKeys.



(** X30. The transitive merge can be run on what [compare] builds: on a
    store of at least a hundred distinct lemmas, none of them named [_],
    [compare] started with an empty edge mapping returns, and
    [merge_entries] on its edge mapping returns as well, leaving the
    tombstone under exactly the keys that are a candidate of some key,
    and under every other key a list that begins with its own
    candidates. *)
Theorem merge_entries_after_compare (dict_data : dict record)
    (g : globals) :
  NoDup (dict_keys dict_data) ->
  100 <= length (dict_keys dict_data) ->
  ~ In tomb (dict_keys dict_data) ->
  dictionary g = [] ->
  exists g',
    compare dict_data g = (inr tt, g')
    /\ forall fuel,
         2 * length (concat (map snd (dictionary g'))) + 2 <= fuel ->
         exists st',
           merge_entries fuel (load_edges (dictionary g'))
           = (Returned, st')
           /\ forall k,
                In k (dict_keys (dictionary g')) ->
                ((exists j, In k (candidates (dictionary g') j)) ->
                 view st' k = Some (inr tomb))
                /\ ((forall j, ~ In k (candidates (dictionary g') j)) ->
                    exists extra,
                      view st' k
                      = Some (inl (candidates (dictionary g') k
                                   ++ extra))).
Proof.
  intros Hnd Hlen Htomb Hempty.
  destruct (@compare_output_forward dict_data g Hnd Hlen Hempty)
    as [g' [Hrun [Hk [Hnd' Hfwd]]]].
  exists g'. split; [exact Hrun|]. intros fuel Hfuel.
  assert (Htomb' : ~ In tomb (dict_keys (dictionary g'))).
  { rewrite Hk. intro H. apply filter_In in H. tauto. }
  destruct (@merge_entries_run (dictionary g') Hnd' Htomb' fuel Hfwd Hfuel)
    as [st' [p' [Hmerge [Hp' Hinv]]]].
  exists st'. split; [exact Hmerge|]. intros k Hin. split.
  - intro Hj. eapply merge_inv_absorbed; eassumption.
  - intro Hj. eapply merge_inv_root; eassumption.
Qed.

Lemma merge_entries_after_compare_witness :
  exists g' fuel st',
    compare store_100 initial_globals = (inr tt, g')
    /\ merge_entries fuel (load_edges (dictionary g')) = (Returned, st').
Proof.
  destruct (@merge_entries_after_compare store_100 initial_globals)
    as [g' [Hrun H]].
  - apply nodupb_NoDup. vm_compute. reflexivity.
  - vm_compute. repeat constructor.
  - intro H. apply str_in_In in H. vm_compute in H. discriminate.
  - reflexivity.
  - destruct (H _ (le_n _)) as [st' [Hmerge _]].
    exists g', (2 * length (concat (map snd (dictionary g'))) + 2), st'.
    split; [exact Hrun|exact Hmerge].
Defined.
